(** * lightmcmc: single-site Metropolis-Hastings over traces, and rejection sampling

    A shallow embedding of [lightmcmc.py].

    Conventions of the embedding.
    - The file is Python 2 code ([from __future__ import division]): [/] is true
      division, [dict.items()] and [dict.values()] are list snapshots, so
      [World.clean] may pop entries while it walks [self.items()].
    - Probabilities (Python floats) are exact rationals [Q]; float division by
      zero raises [ZeroDivisionError] and is written out.
    - [Draw] objects are mutable and shared by reference: they live in a store
      (a list indexed by address).  A [World] (a dict from names to [Draw]
      objects) is an association list from names to addresses, in iteration
      order, threaded through the calls that update it.
    - The random generators ([numpy.random] and [random]) are two tapes that
      are consumed as the program draws from them.
    - The two unbounded [while] loops take a fuel argument; running out of fuel
      is the outcome [Diverges]. *)

From Stdlib Require Import ZArith QArith List String Bool Lia.
From Stdlib Require Import Qpower Qround Permutation Sorted.

Import ListNotations.

Open Scope string_scope.

Open Scope list_scope.

Open Scope Z_scope.

(** ** Random sources *)

Record RNG := mkRNG {
  np_tape : list Q;      (* successive results of np.random.uniform(0, 1) *)
  py_tape : list nat     (* successive raw picks of the random module *)
}.

(** [np.random.uniform(0, 1)] *)
Definition np_uniform01 (r : RNG) : Q * RNG :=
  match np_tape r with
  | [] => (0%Q, r)
  | u :: t => (u, mkRNG t (py_tape r))
  end.

(** the index [random.choice] picks in a sequence of [n] elements *)
Definition py_index (n : nat) (r : RNG) : nat * RNG :=
  match py_tape r with
  | [] => (0%nat, r)
  | k :: t => ((k mod n)%nat, mkRNG (np_tape r) t)
  end.

(** ** Exceptions and outcomes *)

Inductive exn : Type :=
| ZeroProbabilityException
| IndexError
| ZeroDivisionError.

Inductive outcome (A : Type) : Type :=
| Returns (a : A)
| Raises (e : exn)
| Diverges          (* fuel of a while loop exhausted *)
| Stuck.            (* an address outside the store: no Python state does this *)

Arguments Returns {A} a.

Arguments Raises {A} e.

Arguments Diverges {A}.

Arguments Stuck {A}.

(** the keys of a trace: the example models use strings and integers *)
Inductive Name : Type :=
| NStr (s : string)
| NInt (z : Z).

Definition Name_eqb (a b : Name) : bool :=
  match a, b with
  | NStr s, NStr t => String.eqb s t
  | NInt x, NInt y => Z.eqb x y
  | _, _ => false
  end.

(** the address of an object in the store *)
Definition loc := nat.

(** a dict from names to objects: bindings in iteration order, keys unique *)
Definition World := list (Name * loc).

Definition dict_get (name : Name) (w : World) : option loc :=
  match find (fun e => Name_eqb (fst e) name) w with
  | Some e => Some (snd e)
  | None => None
  end.

(** [world[name] = draw] *)
Fixpoint dict_set (name : Name) (l : loc) (w : World) : World :=
  match w with
  | [] => [(name, l)]
  | (n, l0) :: w' =>
      if Name_eqb n name then (n, l) :: w' else (n, l0) :: dict_set name l w'
  end.

(** [world.pop(name)], for a key that is present *)
Definition dict_pop (name : Name) (w : World) : World :=
  filter (fun e => negb (Name_eqb (fst e) name)) w.

(** [product(seq)]: [functools.reduce(operator.mul, seq, 1)] *)
Definition product (seq : list Q) : Q := fold_left Qmult seq 1%Q.

(** [range(n)] *)
Definition range (n : Z) : list Z := map Z.of_nat (seq 0 (Z.to_nat n)).

(** values of random choices: the integers of geometric, binomial and integer
    draws, the floats of uniform draws, the booleans of flips *)
Inductive Value : Type :=
| VInt (z : Z)
| VFloat (q : Q)
| VBool (b : bool).

(** ** Choice and Draw *)

Record Choice := mkChoice {
  sampler : RNG -> Value * RNG;
  scorer : Value -> Q;
  description : string
}.

Record Draw := mkDraw {
  value : Value;
  choice : Choice;
  tick_touched : Z;
  tick_created : Z;
  fixed : bool
}.

(** [tick_created or tick_touched]: [None] and [0] are both falsy *)
Definition py_or (tick_created : option Z) (tick_touched : Z) : Z :=
  match tick_created with
  | None => tick_touched
  | Some c => if c =? 0 then tick_touched else c
  end.

(** [Draw.__init__] *)
Definition Draw_init (value : Value) (choice : Choice) (tick_touched : Z)
    (tick_created : option Z) (fixed : bool) : Draw :=
  mkDraw value choice tick_touched (py_or tick_created tick_touched) fixed.

(** [Draw.score] *)
Definition Draw_score (self : Draw) : Q := scorer (choice self) (value self).

(** [Draw.copy] *)
Definition Draw_copy (self : Draw) : Draw :=
  Draw_init (value self) (choice self) (tick_touched self)
            (Some (tick_created self)) (fixed self).

(** ** The store and the monad of the program *)

Record State := mkState {
  draws : list Draw;
  rng : RNG
}.

Definition M (A : Type) : Type := State -> State * outcome A.

Definition ret {A} (a : A) : M A := fun st => (st, Returns a).

Definition bind {A B} (m : M A) (k : A -> M B) : M B :=
  fun st =>
    match m st with
    | (st', Returns a) => k a st'
    | (st', Raises e) => (st', Raises e)
    | (st', Diverges) => (st', Diverges)
    | (st', Stuck) => (st', Stuck)
    end.

Definition raise {A} (e : exn) : M A := fun st => (st, Raises e).

Definition diverge {A} : M A := fun st => (st, Diverges).

Definition load (l : loc) : M Draw :=
  fun st =>
    match nth_error (draws st) l with
    | Some d => (st, Returns d)
    | None => (st, Stuck)
    end.

Fixpoint list_set {A} (xs : list A) (i : nat) (x : A) : list A :=
  match xs, i with
  | [], _ => []
  | _ :: t, O => x :: t
  | h :: t, S i' => h :: list_set t i' x
  end.

Definition store (l : loc) (d : Draw) : M unit :=
  fun st => (mkState (list_set (draws st) l d) (rng st), Returns tt).

Definition alloc (d : Draw) : M loc :=
  fun st => (mkState (draws st ++ [d]) (rng st), Returns (List.length (draws st))).

Definition with_rng {A} (f : RNG -> A * RNG) : M A :=
  fun st => let (a, r) := f (rng st) in (mkState (draws st) r, Returns a).

Declare Scope monad_scope.

Delimit Scope monad_scope with monad.

Notation "x <- m ;; k" := (bind m (fun x => k))
  (at level 61, m at next level, right associativity) : monad_scope.

Notation "' p <- m ;; k" := (bind m (fun x => match x with p => k end))
  (at level 61, p pattern, m at next level, right associativity) : monad_scope.

Notation "m ;;; k" := (bind m (fun _ => k))
  (at level 61, right associativity) : monad_scope.

Open Scope monad_scope.

(** an attribute assignment on the object at [l] *)
Definition assign (l : loc) (f : Draw -> Draw) : M unit :=
  d <- load l ;; store l (f d).

Definition set_value (v : Value) (d : Draw) : Draw :=
  mkDraw v (choice d) (tick_touched d) (tick_created d) (fixed d).

Definition set_choice (c : Choice) (d : Draw) : Draw :=
  mkDraw (value d) c (tick_touched d) (tick_created d) (fixed d).

Definition set_tick_touched (t : Z) (d : Draw) : Draw :=
  mkDraw (value d) (choice d) t (tick_created d) (fixed d).

Definition set_fixed (b : bool) (d : Draw) : Draw :=
  mkDraw (value d) (choice d) (tick_touched d) (tick_created d) b.

Fixpoint mapM {A B} (f : A -> M B) (xs : list A) : M (list B) :=
  match xs with
  | [] => ret []
  | x :: t => y <- f x ;; ys <- mapM f t ;; ret (y :: ys)
  end.

(** a [for] loop over [xs] that updates the variables [s] *)
Fixpoint for_each {A S} (xs : list A) (body : A -> S -> M S) (s : S) : M S :=
  match xs with
  | [] => ret s
  | x :: t => s' <- body x s ;; for_each t body s'
  end.

(** [try: body  except ZeroProbabilityException: handler  else: orelse] *)
Definition try_except_else {A B} (body : M A) (handler : M B)
    (orelse : A -> M B) : M B :=
  fun st =>
    match body st with
    | (st', Returns a) => orelse a st'
    | (st', Raises ZeroProbabilityException) => handler st'
    | (st', Raises e) => (st', Raises e)
    | (st', Diverges) => (st', Diverges)
    | (st', Stuck) => (st', Stuck)
    end.

(** float division *)
Definition py_div (a b : Q) : M Q :=
  if Qeq_bool b 0 then raise ZeroDivisionError else ret (a / b)%Q.

(** [len(seq)] as a number *)
Definition len {A} (xs : list A) : Q := inject_Z (Z.of_nat (List.length xs)).

(** [flip(weight)]: [np.random.uniform(0, 1) <= weight] *)
Definition flip_rng (weight : Q) (r : RNG) : bool * RNG :=
  let (u, r') := np_uniform01 r in (Qle_bool u weight, r').

Definition flip (weight : Q) : M bool := with_rng (flip_rng weight).

(** [random.choice(seq)] *)
Definition random_choice {A} (seq : list A) : M A :=
  match seq with
  | [] => raise IndexError
  | _ :: _ =>
      i <- with_rng (py_index (List.length seq)) ;;
      match nth_error seq i with
      | Some x => ret x
      | None => raise IndexError
      end
  end.

(** ** Choice.sample and Choice.set *)

Definition Choice_sample (self : Choice) (world : World) (name : Name)
    (tick : Z) : M (World * Value) :=
  match dict_get name world with
  | Some draw =>
      assign draw (set_choice self) ;;;
      assign draw (set_tick_touched tick) ;;;
      d <- load draw ;;
      if Qeq_bool (Draw_score d) 0 then raise ZeroProbabilityException
      else ret (world, value d)
  | None =>
      value <- with_rng (sampler self) ;;
      draw <- alloc (Draw_init value self tick None false) ;;
      ret (dict_set name draw world, value)
  end.

Definition Choice_set (self : Choice) (world : World) (name : Name)
    (tick : Z) (fixed_val : Value) : M (World * Value) :=
  match dict_get name world with
  | Some draw =>
      assign draw (set_choice self) ;;;
      assign draw (set_tick_touched tick) ;;;
      assign draw (set_value fixed_val) ;;;
      assign draw (set_fixed true) ;;;
      d <- load draw ;;
      if Qeq_bool (Draw_score d) 0 then raise ZeroProbabilityException
      else ret (world, fixed_val)
  | None =>
      draw <- alloc (Draw_init fixed_val self tick None true) ;;
      ret (dict_set name draw world, fixed_val)
  end.

(** [Draw.resample] *)
Definition Draw_resample (self : loc) : M unit :=
  d <- load self ;;
  v <- with_rng (sampler (choice d)) ;;
  assign self (set_value v).

(** ** World *)

(** [self.values()] *)
Definition World_values (self : World) : list loc := map snd self.

(** [World.score] *)
Definition World_score (self : World) : M Q :=
  scores <- mapM (fun draw => d <- load draw ;; ret (Draw_score d))
                 (World_values self) ;;
  ret (product scores).

Fixpoint copy_items (items : World) (new_world : World) : M World :=
  match items with
  | [] => ret new_world
  | (i, draw) :: rest =>
      d <- load draw ;;
      c <- alloc (Draw_copy d) ;;
      copy_items rest (dict_set i c new_world)
  end.

(** [World.copy] *)
Definition World_copy (self : World) : M World := copy_items self [].

Fixpoint clean_items (items : World) (tick : Z) (self : World)
    (inc_fw inc_bw : Q) : M (World * (Q * Q)) :=
  match items with
  | [] => ret (self, (inc_fw, inc_bw))
  | (name, draw) :: rest =>
      d <- load draw ;;
      if tick_created d =? tick then
        clean_items rest tick self (Draw_score d * inc_fw)%Q inc_bw
      else if negb (tick_touched d =? tick) then
        clean_items rest tick (dict_pop name self) inc_fw
                    (Draw_score d * inc_bw)%Q
      else clean_items rest tick self inc_fw inc_bw
  end.

(** [World.clean]: the loop walks the snapshot [self.items()] *)
Definition World_clean (self : World) (tick : Z) : M (World * (Q * Q)) :=
  clean_items self tick self 1%Q 1%Q.

(** [[d for d in world.values() if not d.fixed]] *)
Fixpoint proposable (vals : list loc) : M (list loc) :=
  match vals with
  | [] => ret []
  | draw :: rest =>
      d <- load draw ;;
      ds <- proposable rest ;;
      ret (if fixed d then ds else draw :: ds)
  end.

(** a model callback: [model(world, tick) -> (world, value)] *)
Definition Model (Out : Type) : Type := World -> Z -> M (World * Out).

(** [World.propose] *)
Definition World_propose {Out} (self : World) (model : Model Out) (tick : Z)
    : M (World * Out * Q * Q) :=
  proposal <- World_copy self ;;
  proposable_draws_pre <- proposable (World_values proposal) ;;
  draw <- random_choice proposable_draws_pre ;;
  d <- load draw ;;
  let draw_score_pre := Draw_score d in
  Draw_resample draw ;;;
  d <- load draw ;;
  let draw_score_post := Draw_score d in
  '(new_world, new_value) <- model proposal tick ;;
  '(new_world, (inc_fw, inc_bw)) <- World_clean new_world tick ;;
  proposable_draws_post <- proposable (World_values new_world) ;;
  r <- py_div 1 (len proposable_draws_post) ;;
  let bw := (r * draw_score_pre * inc_bw)%Q in
  r <- py_div 1 (len proposable_draws_pre) ;;
  let fw := (r * draw_score_post * inc_fw)%Q in
  ret (new_world, new_value, bw, fw).

(** ** The MCMC driver *)

Fixpoint initialize_loop {Out} (fuel : nat) (model : Model Out)
    (condition : Out -> bool) (world : World) (value : Out)
    : M (World * Out) :=
  if condition value then ret (world, value)
  else match fuel with
       | O => diverge
       | S fuel' =>
           '(world, value) <- model [] (-1) ;;
           initialize_loop fuel' model condition world value
       end.

Definition initialize {Out} (fuel : nat) (model : Model Out)
    (condition : Out -> bool) : M (World * Out) :=
  '(world, value) <- model [] (-1) ;;
  initialize_loop fuel model condition world value.

(** the body of the inner loop of [mcmc]: one Metropolis-Hastings transition *)
Definition transition {Out} (model : Model Out) (condition : Out -> bool)
    (i j : Z) (world : World) (value : Out) : M (World * Out) :=
  try_except_else (World_propose world model (i * j))
    (ret (world, value))
    (fun '(proposal, new_value, bw, fw) =>
       if condition new_value then
         sp <- World_score proposal ;;
         sw <- World_score world ;;
         a <- py_div sp sw ;;
         b <- py_div bw fw ;;
         let p := (a * b)%Q in
         if Qle_bool 1 p then ret (proposal, new_value)
         else
           f <- flip p ;;
           if f then ret (proposal, new_value) else ret (world, value)
       else ret (world, value)).

Definition mcmc {Out T} (fuel : nat) (model : Model Out)
    (condition : Out -> bool) (query : Out -> T) (num_steps num_samples : Z)
    : M (list T) :=
  '(world, value) <- initialize fuel model condition ;;
  '(_, _, samples) <-
    for_each (range num_samples)
      (fun i '(world, value, samples) =>
         '(world, value) <-
           for_each (range num_steps)
             (fun j '(world, value) => transition model condition i j world value)
             (world, value) ;;
         ret (world, value, samples ++ [query value]))
      (world, value, []) ;;
  ret samples.

(** ** Rejection *)

Fixpoint single_rejection_loop {Out T} (fuel : nat) (model : Model Out)
    (condition : Out -> bool) (query : Out -> T) (value : Out) : M T :=
  if condition value then ret (query value)
  else match fuel with
       | O => diverge
       | S fuel' =>
           '(_, value) <- model [] (-1) ;;
           single_rejection_loop fuel' model condition query value
       end.

Definition single_rejection {Out T} (fuel : nat) (model : Model Out)
    (condition : Out -> bool) (query : Out -> T) : M T :=
  '(_, value) <- model [] (-1) ;;
  single_rejection_loop fuel model condition query value.

(** [mapp]: the sequential fallback [map] *)
Definition mapp {A B} (f : A -> M B) (xs : list A) : M (list B) := mapM f xs.

Definition rejection {Out T} (fuel : nat) (model : Model Out)
    (condition : Out -> bool) (query : Out -> T) (num_samples : Z)
    : M (list T) :=
  samples <-
    for_each (range (Z.quot num_samples 100))
      (fun _ samples =>
         batch <- mapp (fun _ => single_rejection fuel model condition query)
                       (range 100) ;;
         ret (samples ++ batch))
      [] ;;
  if negb (num_samples mod 100 =? 0) then
    batch <- mapp (fun _ => single_rejection fuel model condition query)
                  (range (num_samples mod 100)) ;;
    ret (samples ++ batch)
  else ret samples.

(** ** The distributions of the example models

    [np.random.binomial] and [scipy.stats.binom.pmf] are library functions:
    the definitions below take them as arguments. *)

(** the truth value of a Python value *)
Definition truthy (v : Value) : bool :=
  match v with
  | VInt z => negb (z =? 0)
  | VFloat q => negb (Qeq_bool q 0)
  | VBool b => b
  end.

(** [church_flip] of [test_transdimensional] *)
Definition flip_choice (p : Q) : Choice :=
  mkChoice (fun r => let (b, r') := flip_rng p r in (VBool b, r'))
           (fun val => if truthy val then (1 # 3)%Q else (2 # 3)%Q)
           "flip".

Definition church_flip (world : World) (name : Name) (tick : Z) (p : Q)
    : M (World * Value) :=
  Choice_sample (flip_choice p) world name tick.

(** the number a value stands for in a comparison *)
Definition num (v : Value) : Q :=
  match v with
  | VInt z => inject_Z z
  | VFloat q => q
  | VBool b => if b then 1%Q else 0%Q
  end.

Definition score_binomial (binom_pmf : Value -> Z -> Q -> Q)
    (n : Z) (k : Value) (p : Q) : Q :=
  if Qlt_le_dec (inject_Z n) (num k) then 0%Q else binom_pmf k n p.

Definition church_binomial_fixed
    (np_binomial : Z -> Q -> RNG -> Value * RNG)
    (binom_pmf : Value -> Z -> Q -> Q)
    (world : World) (name : Name) (tick : Z) (n : Z) (p : Q)
    (fixed_val : Value) : M (World * Value) :=
  let choice := mkChoice (np_binomial n p)
                         (fun k => score_binomial binom_pmf n k p)
                         "binomial/fixed" in
  Choice_set choice world name tick fixed_val.

(** [score_integer] and the choice of [church_sampleinteger];
    [np.random.randint] is an argument *)
Definition score_integer (low high : Z) (v : Value) : Q :=
  if Qlt_le_dec (num v) (inject_Z low) then 0%Q
  else if Qlt_le_dec (num v) (inject_Z high) then (1 / inject_Z (high - low))%Q
  else 0%Q.

Definition integer_choice (np_randint : Z -> Z -> RNG -> Value * RNG)
    (low high : Z) : Choice :=
  mkChoice (np_randint low high) (score_integer low high) "sample_int".

(** * Notions used in the statements *)

(** every object of the world exists in the store *)
Definition in_store (st : State) (w : World) : Prop :=
  forall n l, In (n, l) w -> (l < List.length (draws st))%nat.

(** a dict of the program: unique keys, and objects that exist *)
Definition wf_world (st : State) (w : World) : Prop :=
  NoDup (map fst w) /\ in_store st w.

(** the Draws of a world, in iteration order *)
Definition draws_of (st : State) (w : World) : list Draw :=
  flat_map (fun e => match nth_error (draws st) (snd e) with
                     | Some d => [d]
                     | None => []
                     end) w.

(** the entry was created at [tick] *)
Definition created (st : State) (tick : Z) (e : Name * loc) : bool :=
  match nth_error (draws st) (snd e) with
  | Some d => tick_created d =? tick
  | None => false
  end.

(** the entry was neither created nor touched at [tick] *)
Definition stale (st : State) (tick : Z) (e : Name * loc) : bool :=
  match nth_error (draws st) (snd e) with
  | Some d => negb (tick_created d =? tick) && negb (tick_touched d =? tick)
  | None => false
  end.

(** the Draw at [l] is not fixed *)
Definition not_fixed (st : State) (l : loc) : bool :=
  match nth_error (draws st) l with
  | Some d => negb (fixed d)
  | None => false
  end.

(** the same test on a list of objects *)
Definition not_fixed_in (ds : list Draw) (l : loc) : bool :=
  match nth_error ds l with
  | Some d => negb (fixed d)
  | None => false
  end.

(** the value of an accumulator after [acc = s * acc] for each [s] *)
Definition accumulate (ss : list Q) (acc : Q) : Q :=
  fold_left (fun acc s => (s * acc)%Q) ss acc.

(** the dict after [pop] of each name *)
Definition pop_all (names : list Name) (w : World) : World :=
  fold_left (fun w n => dict_pop n w) names w.

(** [n] calls of [m] in sequence *)
Fixpoint replicateM {A} (n : nat) (m : M A) : M (list A) :=
  match n with
  | O => ret []
  | S n' => x <- m ;; xs <- replicateM n' m ;; ret (x :: xs)
  end.

(** one round: the inner loop of [mcmc] from the retained state [s] *)
Definition mcmc_round {Out} (model : Model Out) (condition : Out -> bool)
    (num_steps : Z) (i : Z) (s : World * Out) : M (World * Out) :=
  for_each (range num_steps)
    (fun j '(world, value) => transition model condition i j world value) s.

(** the states retained at the end of each round *)
Fixpoint retained_states {Out} (model : Model Out) (condition : Out -> bool)
    (num_steps : Z) (rounds : list Z) (s : World * Out)
    : M (list (World * Out)) :=
  match rounds with
  | [] => ret []
  | i :: rest =>
      s' <- mcmc_round model condition num_steps i s ;;
      states <- retained_states model condition num_steps rest s' ;;
      ret (s' :: states)
  end.

(** the objects at the addresses below [n] are the same in [st'] as in [st] *)
Definition keeps (n : nat) (st st' : State) : Prop :=
  forall l, (l < n)%nat -> nth_error (draws st') l = nth_error (draws st) l.

(** a model callback writes only to the Draws of the world it is given and to
    the Draws it creates *)
Definition model_frame {Out} (model : Model Out) : Prop :=
  forall world tick st l,
    (l < List.length (draws st))%nat ->
    ~ In l (World_values world) ->
    nth_error (draws (fst (model world tick st))) l = nth_error (draws st) l.

(** the store has at least [n] objects and the Draws of [w] are not among
    the first [n] *)
Definition above (n : nat) (st : State) (w : World) : Prop :=
  (n <= List.length (draws st))%nat /\
  forall l, In l (World_values w) -> (n <= l)%nat.

(** ** Example models

    [branching_model] is [test_transdimensional]'s model with its two branches
    cut down: it flips "a" and, when "a" came up true, also flips 1. *)

Definition flip_model : Model bool :=
  fun init_world tick =>
    world <- World_copy init_world ;;
    '(world, A) <- church_flip world (NStr "a") tick (1 # 2) ;;
    ret (world, truthy A).

Definition branching_model : Model (bool * bool) :=
  fun init_world tick =>
    world <- World_copy init_world ;;
    '(world, A) <- church_flip world (NStr "a") tick (1 # 2) ;;
    if truthy A then
      '(world, B) <- church_flip world (NInt 1) tick (1 # 2) ;;
      ret (world, (truthy A, truthy B))
    else ret (world, (truthy A, false)).

(** a model that reports the tick it was run at *)
Definition tick_probe : Model Z :=
  fun init_world tick =>
    world <- World_copy init_world ;;
    '(world, _) <- church_flip world (NStr "a") tick (1 # 2) ;;
    ret (world, tick).

(** a store with one non-fixed Draw, "a", which came up false *)
Definition world_a : World := [(NStr "a", 0%nat)].

Definition store_a (np : list Q) (py : list nat) : State :=
  mkState [mkDraw (VBool false) (flip_choice (1 # 2)) (-1) (-1) false]
          (mkRNG np py).

Definition empty_store (np : list Q) (py : list nat) : State :=
  mkState [] (mkRNG np py).

(** a store with three Draws: "a" touched at tick 5, "b" created at tick 5,
    "c" neither *)
Definition world_abc : World :=
  [(NStr "a", 0%nat); (NStr "b", 1%nat); (NStr "c", 2%nat)].

Definition store_abc : State :=
  mkState [mkDraw (VBool false) (flip_choice (1 # 2)) 5 (-1) false;
           mkDraw (VBool true) (flip_choice (1 # 2)) 5 5 false;
           mkDraw (VBool false) (flip_choice (1 # 2)) 4 4 false]
          (mkRNG [] []).

(** the retained world holds one non-fixed flip, "a" *)
Definition flip_inv (st : State) (s : World * bool) : Prop :=
  exists l d,
    fst s = [(NStr "a", l)] /\
    nth_error (draws st) l = Some d /\
    fixed d = false /\
    choice d = flip_choice (1 # 2).

Ltac solve_wf :=
  split;
  [ repeat (constructor; [simpl; intuition discriminate|]); constructor
  | intros ? ? Hin; simpl in Hin;
    repeat (destruct Hin as [Hin | Hin]; [inversion Hin; subst; simpl; lia|]);
    contradiction ].

(** * More of the program: the tail of a proposal, utilities, distributions
    and the model of [test_transdimensional] *)

(** what [World.propose] does from the call of the model on: lines 176-181 *)
Definition propose_tail {Out} (model : Model Out) (tick : Z)
    (proposal : World) (proposable_draws_pre : list loc)
    (draw_score_pre draw_score_post : Q) : M (World * Out * Q * Q) :=
  '(new_world, new_value) <- model proposal tick ;;
  '(new_world, (inc_fw, inc_bw)) <- World_clean new_world tick ;;
  proposable_draws_post <- proposable (World_values new_world) ;;
  r <- py_div 1 (len proposable_draws_post) ;;
  let bw := (r * draw_score_pre * inc_bw)%Q in
  r <- py_div 1 (len proposable_draws_pre) ;;
  let fw := (r * draw_score_post * inc_fw)%Q in
  ret (new_world, new_value, bw, fw).

(** a model that ignores the trace it is given and conditions one Draw *)
Definition fixed_only_model : Model Value :=
  fun init_world tick =>
    Choice_set (flip_choice (1 # 2)) [] (NStr "k") tick (VBool true).

(** a store with a non-fixed Draw "a" and a fixed Draw "k" *)
Definition world_ak : World := [(NStr "a", 0%nat); (NStr "k", 1%nat)].

Definition store_ak (np : list Q) (py : list nat) : State :=
  mkState [mkDraw (VBool false) (flip_choice (1 # 2)) (-1) (-1) false;
           mkDraw (VBool true) (flip_choice (1 # 2)) (-1) (-1) true]
          (mkRNG np py).

(** a store whose only Draw, "k", is fixed *)
Definition world_k : World := [(NStr "k", 0%nat)].

Definition store_k (np : list Q) (py : list nat) : State :=
  mkState [mkDraw (VBool true) (flip_choice (1 # 2)) (-1) (-1) true]
          (mkRNG np py).




(** the sum of a list of numbers *)
Definition Qsum (qs : list Q) : Q := fold_right Qplus 0%Q qs.

(** ** Utilities *)







(** [memoize(obj)]: [memoizer] with its cache, a dict keyed by the positional
    arguments; [obj] may read and write a state of its own *)
Definition memoizer {Args Kw S Res} (eqb : Args -> Args -> bool)
    (obj : Args -> Kw -> S -> S * Res)
    (cache : list (Args * Res)) (args : Args) (kwargs : Kw) (s : S)
    : list (Args * Res) * S * Res :=
  match find (fun e => eqb (fst e) args) cache with
  | Some e => (cache, s, snd e)
  | None =>
      let (s', r) := obj args kwargs s in
      (cache ++ [(args, r)], s', r)
  end.

(** ** The model of [test_transdimensional] *)

(** [[rbit(name) for name in names]], where [rbit] flips on the world of the
    model with weight .5 *)
Fixpoint rbits (names : list Name) (world : World) (tick : Z)
    : M (World * list Value) :=
  match names with
  | [] => ret (world, [])
  | name :: rest =>
      '(world, b) <- church_flip world name tick (1 # 2) ;;
      '(world, bs) <- rbits rest world tick ;;
      ret (world, b :: bs)
  end.

(** [z % 2] *)
Definition mod2 (z : Q) : Q := (z - 2 * inject_Z (Qfloor (z / 2)))%Q.

(** [model] of [test_transdimensional]; the value is the triple
    [(A, B, C)] *)
Definition transdimensional_model : Model (Value * Value * Value) :=
  fun init_world tick =>
    world <- World_copy init_world ;;
    '(world, A) <- church_flip world (NStr "a") tick (1 # 2) ;;
    '(world, B) <-
      (if truthy A then church_flip world (NInt 1) tick (1 # 2)
       else
         '(world, bits) <-
           rbits (map (fun n => NInt (1 + n)) (range 50)) world tick ;;
         let z := Qsum (map num bits) in
         ret (world, VInt (if Qeq_bool (mod2 z) 1 then 1 else 0))) ;;
    let w := if truthy B then (1 # 3)%Q else (2 # 3)%Q in
    '(world, C) <- church_flip world (NStr "c") tick w ;;
    ret (world, (A, B, C)).

(** ** Traces on which a chain cannot fail *)

(** a Draw that can be proposed and scores above 0 whatever its value *)
Definition positive (d : Draw) : Prop :=
  fixed d = false /\ forall v, ~ scorer (choice d) v == 0.

(** a well-formed world of such Draws *)
Definition positive_world (st : State) (w : World) : Prop :=
  NoDup (map fst w) /\
  forall n l, In (n, l) w ->
    exists d, nth_error (draws st) l = Some d /\ positive d.

(** the Draw of [name] was touched at [tick] *)
Definition touched (st : State) (tick : Z) (w : World) (name : Name) : Prop :=
  exists l d,
    In (name, l) w /\ nth_error (draws st) l = Some d /\ tick_touched d = tick.

(** what a model has to do for the chain of [mcmc] not to fail: on a positive
    world it returns a positive world and touches one of its Draws *)
Definition positive_model {Out} (model : Model Out) : Prop :=
  forall world tick st,
    positive_world st world ->
    exists st' w' v,
      model world tick st = (st', Returns (w', v)) /\
      positive_world st' w' /\
      exists name, touched st' tick w' name.

(** * Properties *)

(** ** Lists, dicts and the store *)

Lemma Name_eqb_eq (a b : Name) : Name_eqb a b = true <-> a = b.
Proof.
  destruct a as [s | x], b as [t | y]; simpl; split; intro H;
    try discriminate; try (inversion H; subst).
  - apply String.eqb_eq in H. now subst.
  - apply String.eqb_refl.
  - apply Z.eqb_eq in H. now subst.
  - apply Z.eqb_refl.
Qed.

Lemma Name_eqb_refl (a : Name) : Name_eqb a a = true.
Proof. now apply Name_eqb_eq. Qed.

Lemma Name_eqb_neq (a b : Name) : Name_eqb a b = false <-> a <> b.
Proof.
  split.
  - intros H E. apply Name_eqb_eq in E. congruence.
  - intro H. destruct (Name_eqb a b) eqn:E; [|reflexivity].
    apply Name_eqb_eq in E. contradiction.
Qed.

Lemma length_list_set {A} (xs : list A) i x :
  List.length (list_set xs i x) = List.length xs.
Proof.
  revert i. induction xs as [|h t IH]; intros [|i]; simpl; auto.
Qed.

Lemma nth_error_list_set_eq {A} (xs : list A) i x :
  (i < List.length xs)%nat -> nth_error (list_set xs i x) i = Some x.
Proof.
  revert i. induction xs as [|h t IH]; intros [|i] H; simpl in *; try lia; auto.
  apply IH. lia.
Qed.

Lemma nth_error_list_set_neq {A} (xs : list A) i j x :
  i <> j -> nth_error (list_set xs i x) j = nth_error xs j.
Proof.
  revert i j.
  induction xs as [|h t IH]; intros [|i] [|j] H; simpl; auto; try congruence.
Qed.

Lemma list_set_list_set {A} (xs : list A) i x y :
  list_set (list_set xs i x) i y = list_set xs i y.
Proof.
  revert i. induction xs as [|h t IH]; intros [|i]; simpl; auto.
  now rewrite IH.
Qed.

Lemma list_set_out_of_range {A} (xs : list A) i x :
  (List.length xs <= i)%nat -> list_set xs i x = xs.
Proof.
  revert i. induction xs as [|h t IH]; intros [|i] H; simpl in *; auto; try lia.
  rewrite IH; auto. lia.
Qed.

Lemma dict_get_In name w l : dict_get name w = Some l -> In (name, l) w.
Proof.
  unfold dict_get. destruct (find _ w) as [[n l0]|] eqn:F; [|discriminate].
  intro H. inversion H; subst. apply find_some in F. destruct F as [F E].
  simpl in E. apply Name_eqb_eq in E. now subst.
Qed.

Lemma dict_get_None name w :
  dict_get name w = None <-> ~ In name (map fst w).
Proof.
  unfold dict_get. induction w as [|[n l] w IH]; simpl.
  - tauto.
  - destruct (Name_eqb n name) eqn:E.
    + apply Name_eqb_eq in E. subst. split; [discriminate | tauto].
    + apply Name_eqb_neq in E. tauto.
Qed.

Lemma dict_set_absent name l w :
  dict_get name w = None -> dict_set name l w = w ++ [(name, l)].
Proof.
  unfold dict_get. induction w as [|[n l0] w IH]; simpl; auto.
  destruct (Name_eqb n name) eqn:E; [discriminate|].
  intro H. now rewrite IH.
Qed.

(** ** Draw.copy *)

Lemma Draw_copy_fields (d : Draw) :
  value (Draw_copy d) = value d /\
  choice (Draw_copy d) = choice d /\
  tick_touched (Draw_copy d) = tick_touched d /\
  fixed (Draw_copy d) = fixed d /\
  tick_created (Draw_copy d) =
    (if tick_created d =? 0 then tick_touched d else tick_created d).
Proof. repeat split. Qed.

Lemma Draw_copy_id (d : Draw) :
  tick_created d <> 0 -> Draw_copy d = d.
Proof.
  intro H. destruct d as [v c tt tc f]. unfold Draw_copy, Draw_init; simpl in *.
  apply Z.eqb_neq in H. now rewrite H.
Qed.

(** C10, at the failing input: a Draw created at tick 0 and touched at tick 1
    is copied to a Draw created at tick 1, so the copy differs from the
    original in [tick_created]. *)
Theorem Draw_copy_tick_created_zero :
  forall v c f,
    let d := mkDraw v c 1 0 f in
    tick_created d = 0 /\
    tick_created (Draw_copy d) = 1 /\
    Draw_copy d <> d.
Proof.
  intros v c f d. repeat split. intro H.
  apply (f_equal tick_created) in H. discriminate H.
Qed.

(** ** Choice.sample and Choice.set *)

Lemma nth_error_in_range {A} (xs : list A) i x :
  nth_error xs i = Some x -> (i < List.length xs)%nat.
Proof. intro H. apply nth_error_Some. congruence. Qed.

(** [Choice.sample] on a name that is present *)
Lemma Choice_sample_present :
  forall (self : Choice) (world : World) (name : Name) (tick : Z) (st : State)
         draw d,
    dict_get name world = Some draw ->
    nth_error (draws st) draw = Some d ->
    Choice_sample self world name tick st
    = (mkState (list_set (draws st) draw
                  (mkDraw (value d) self tick (tick_created d) (fixed d)))
               (rng st),
       if Qeq_bool (scorer self (value d)) 0
       then Raises ZeroProbabilityException
       else Returns (world, value d)).
Proof.
  intros self world name tick st draw d Hget Hd.
  pose proof (nth_error_in_range _ _ _ Hd) as Hlt.
  unfold Choice_sample. rewrite Hget.
  cbv [bind assign load store raise ret]. rewrite Hd. simpl.
  rewrite nth_error_list_set_eq by assumption. simpl.
  rewrite list_set_list_set.
  rewrite nth_error_list_set_eq by assumption.
  unfold Draw_score, set_tick_touched, set_choice. simpl.
  destruct (Qeq_bool (scorer self (value d)) 0); reflexivity.
Qed.

(** [Choice.sample] on an absent name *)
Lemma Choice_sample_absent :
  forall (self : Choice) (world : World) (name : Name) (tick : Z) (st : State)
         v r,
    dict_get name world = None ->
    sampler self (rng st) = (v, r) ->
    Choice_sample self world name tick st
    = (mkState (draws st ++ [mkDraw v self tick tick false]) r,
       Returns (world ++ [(name, List.length (draws st))], v)).
Proof.
  intros self world name tick st v r Hget Hs. unfold Choice_sample.
  rewrite Hget. unfold bind, with_rng, alloc, ret. rewrite Hs. simpl.
  rewrite dict_set_absent by assumption. reflexivity.
Qed.

(** C5: on a name that is present, [Choice.sample] rebinds the Draw's choice
    and [tick_touched], raises [ZeroProbabilityException] exactly when the
    stored value scores 0 under the new scorer, and otherwise returns the
    stored value, which it leaves in place; on an absent name it draws a value
    from the sampler, inserts a new, non-fixed Draw created at this tick and
    returns the value. *)
Theorem Choice_sample_spec :
  forall (self : Choice) (world : World) (name : Name) (tick : Z) (st : State),
    (forall draw d,
        dict_get name world = Some draw ->
        nth_error (draws st) draw = Some d ->
        let st' :=
          mkState (list_set (draws st) draw
                     (mkDraw (value d) self tick (tick_created d) (fixed d)))
                  (rng st) in
        (scorer self (value d) == 0 ->
         Choice_sample self world name tick st
         = (st', Raises ZeroProbabilityException)) /\
        (~ scorer self (value d) == 0 ->
         Choice_sample self world name tick st
         = (st', Returns (world, value d)))) /\
    (forall v r,
        dict_get name world = None ->
        sampler self (rng st) = (v, r) ->
        Choice_sample self world name tick st
        = (mkState (draws st ++ [mkDraw v self tick tick false]) r,
           Returns (world ++ [(name, List.length (draws st))], v))).
Proof.
  intros self world name tick st. split.
  - intros draw d Hget Hd st'. subst st'.
    rewrite (Choice_sample_present self world name tick st draw d Hget Hd).
    split; intro Hs.
    + apply Qeq_bool_iff in Hs. now rewrite Hs.
    + destruct (Qeq_bool (scorer self (value d)) 0) eqn:B; [|reflexivity].
      apply Qeq_bool_iff in B. contradiction.
  - intros v r. apply Choice_sample_absent.
Qed.

(** On a name that is present, [Choice.set] assigns the value, marks the Draw
    fixed, and raises exactly when the value scores 0. *)
Lemma Choice_set_present :
  forall (self : Choice) (world : World) (name : Name) (tick : Z)
         (fixed_val : Value) (st : State) draw d,
    dict_get name world = Some draw ->
    nth_error (draws st) draw = Some d ->
    Choice_set self world name tick fixed_val st
    = (mkState (list_set (draws st) draw
                  (mkDraw fixed_val self tick (tick_created d) true))
               (rng st),
       if Qeq_bool (scorer self fixed_val) 0
       then Raises ZeroProbabilityException
       else Returns (world, fixed_val)).
Proof.
  intros self world name tick fixed_val st draw d Hget Hd.
  pose proof (nth_error_in_range _ _ _ Hd) as Hlt.
  unfold Choice_set. rewrite Hget.
  cbv [bind assign load store raise ret]. rewrite Hd. simpl.
  repeat (rewrite nth_error_list_set_eq by (rewrite ?length_list_set; assumption);
          simpl; rewrite ?list_set_list_set).
  unfold Draw_score. simpl.
  destruct (Qeq_bool (scorer self fixed_val) 0); reflexivity.
Qed.

(** On an absent name, [Choice.set] inserts a fixed Draw and returns, whatever
    the value scores. *)
Lemma Choice_set_absent :
  forall (self : Choice) (world : World) (name : Name) (tick : Z)
         (fixed_val : Value) (st : State),
    dict_get name world = None ->
    Choice_set self world name tick fixed_val st
    = (mkState (draws st ++ [mkDraw fixed_val self tick tick true]) (rng st),
       Returns (world ++ [(name, List.length (draws st))], fixed_val)).
Proof.
  intros self world name tick fixed_val st Hget.
  unfold Choice_set. rewrite Hget. unfold bind, alloc, ret. simpl.
  rewrite dict_set_absent by assumption. reflexivity.
Qed.

(** C4, at the failing input: conditioning a fresh binomial Draw with [n = 10],
    [p = 0.3] on the value 11 scores 0, and [Choice.set] returns 11 without
    raising [ZeroProbabilityException]. *)
Theorem church_binomial_fixed_fresh_returns :
  forall np_binomial binom_pmf name tick st,
    let choice :=
      mkChoice (np_binomial 10 (3 # 10)%Q)
               (fun k => score_binomial binom_pmf 10 k (3 # 10)%Q)
               "binomial/fixed" in
    scorer choice (VInt 11) == 0 /\
    church_binomial_fixed np_binomial binom_pmf [] name tick 10 (3 # 10)%Q
                          (VInt 11) st
    = (mkState (draws st ++ [mkDraw (VInt 11) choice tick tick true]) (rng st),
       Returns ([(name, List.length (draws st))], VInt 11)).
Proof.
  intros np_binomial binom_pmf name tick st choice. split.
  - reflexivity.
  - unfold church_binomial_fixed. now rewrite Choice_set_absent.
Qed.

(** ** The monad *)

Lemma bind_Returns {A B} (m : M A) (k : A -> M B) st st' a :
  m st = (st', Returns a) -> bind m k st = k a st'.
Proof. intro H. unfold bind. now rewrite H. Qed.

Lemma bind_inv {A B} (m : M A) (k : A -> M B) st st2 b :
  bind m k st = (st2, Returns b) ->
  exists st1 a, m st = (st1, Returns a) /\ k a st1 = (st2, Returns b).
Proof.
  unfold bind. destruct (m st) as [st1 [a | e | | ]]; intro H;
    try discriminate. now exists st1, a.
Qed.

Lemma load_Returns l st d :
  nth_error (draws st) l = Some d -> load l st = (st, Returns d).
Proof. intro H. unfold load. now rewrite H. Qed.

Lemma load_in_store st l :
  (l < List.length (draws st))%nat ->
  exists d, nth_error (draws st) l = Some d /\ load l st = (st, Returns d).
Proof.
  intro H. destruct (nth_error (draws st) l) as [d|] eqn:E.
  - exists d. split; [reflexivity | now apply load_Returns].
  - apply nth_error_None in E. lia.
Qed.

(** ** World.clean *)

Lemma accumulate_product_gen ss a b :
  a == b -> accumulate ss a == fold_left Qmult ss b.
Proof.
  revert a b. induction ss as [|s ss IH]; intros a b H; simpl.
  - exact H.
  - apply IH. rewrite H. apply Qmult_comm.
Qed.

Lemma accumulate_product ss : accumulate ss 1 == product ss.
Proof. apply accumulate_product_gen. reflexivity. Qed.

Lemma in_store_cons st e w :
  in_store st (e :: w) ->
  (snd e < List.length (draws st))%nat /\ in_store st w.
Proof.
  intro H. split.
  - destruct e as [n l]. apply (H n l). now left.
  - intros n l Hin. apply (H n l). now right.
Qed.

Lemma clean_items_run :
  forall items tick self inc_fw inc_bw st,
    in_store st items ->
    clean_items items tick self inc_fw inc_bw st
    = (st,
       Returns
         (pop_all (map fst (filter (stale st tick) items)) self,
          (accumulate (map Draw_score
                         (draws_of st (filter (created st tick) items))) inc_fw,
           accumulate (map Draw_score
                         (draws_of st (filter (stale st tick) items))) inc_bw))).
Proof.
  induction items as [|[name draw] rest IH]; intros tick self a b st Hst.
  - reflexivity.
  - apply in_store_cons in Hst. destruct Hst as [Hlt Hrest]. simpl in Hlt.
    destruct (load_in_store st draw Hlt) as [d [Hd Hload]].
    simpl clean_items. rewrite (bind_Returns _ _ _ _ _ Hload).
    unfold created, stale. simpl filter. simpl snd. rewrite Hd.
    fold (created st tick). fold (stale st tick).
    destruct (tick_created d =? tick) eqn:Ec; simpl.
    + rewrite IH by assumption. rewrite Hd. reflexivity.
    + destruct (tick_touched d =? tick) eqn:Et; simpl.
      * rewrite IH by assumption. reflexivity.
      * rewrite IH by assumption. rewrite Hd. reflexivity.
Qed.

Lemma pop_all_filter names w :
  pop_all names w
  = filter (fun e => negb (existsb (Name_eqb (fst e)) names)) w.
Proof.
  revert w. induction names as [|n names IH]; intro w; simpl.
  - induction w as [|e w IHw]; simpl; [reflexivity | now rewrite <- IHw].
  - rewrite IH. unfold dict_pop.
    induction w as [|e w IHw]; simpl; [reflexivity|].
    destruct (Name_eqb (fst e) n); simpl.
    + exact IHw.
    + destruct (existsb (Name_eqb (fst e)) names); simpl; now rewrite IHw.
Qed.

Lemma NoDup_keys_unique (w : World) n l l' :
  NoDup (map fst w) -> In (n, l) w -> In (n, l') w -> l = l'.
Proof.
  induction w as [|[n0 l0] w IH]; simpl; intros Hnd H1 H2; [contradiction|].
  inversion Hnd as [|? ? Hnot Hnd']; subst.
  destruct H1 as [H1 | H1], H2 as [H2 | H2].
  - congruence.
  - inversion H1; subst. exfalso. apply Hnot.
    change n with (fst (n, l')). now apply in_map.
  - inversion H2; subst. exfalso. apply Hnot.
    change n with (fst (n, l)). now apply in_map.
  - now apply IH.
Qed.

Lemma stale_names_filter st tick (w : World) :
  NoDup (map fst w) ->
  filter (fun e => negb (existsb (Name_eqb (fst e))
                                 (map fst (filter (stale st tick) w)))) w
  = filter (fun e => negb (stale st tick e)) w.
Proof.
  intro Hnd. apply filter_ext_in. intros [n l] Hin. f_equal. simpl.
  destruct (stale st tick (n, l)) eqn:Es.
  - apply existsb_exists. exists n. split; [|apply Name_eqb_refl].
    change n with (fst (n, l)). apply in_map. apply filter_In. now split.
  - destruct (existsb _ _) eqn:Ex; [|reflexivity].
    apply existsb_exists in Ex. destruct Ex as [n' [Hn' E]].
    apply Name_eqb_eq in E. subst n'.
    apply in_map_iff in Hn'. destruct Hn' as [[n1 l1] [E1 H1]].
    simpl in E1. subst n1. apply filter_In in H1. destruct H1 as [H1 Hs1].
    assert (l1 = l) by (eapply NoDup_keys_unique; eauto). subst.
    congruence.
Qed.

(** what [World.clean] keeps and returns *)
Lemma World_clean_run :
  forall (self : World) (tick : Z) (st : State),
    wf_world st self ->
    let kept := filter (fun e => negb (stale st tick e)) self in
    let removed := filter (stale st tick) self in
    exists inc_fw inc_bw,
      World_clean self tick st = (st, Returns (kept, (inc_fw, inc_bw))) /\
      (forall n l, In (n, l) kept ->
         exists d, nth_error (draws st) l = Some d /\
                   (tick_touched d = tick \/ tick_created d = tick)) /\
      (forall n l d, In (n, l) self -> nth_error (draws st) l = Some d ->
         tick_touched d <> tick -> tick_created d <> tick ->
         ~ In (n, l) kept /\ In (n, l) removed) /\
      inc_fw == product (map Draw_score
                           (draws_of st (filter (created st tick) self))) /\
      inc_bw == product (map Draw_score (draws_of st removed)).
Proof.
  intros self tick st [Hnd Hst] kept removed.
  do 2 eexists. split; [|split; [|split; [|split]]].
  - unfold World_clean. rewrite clean_items_run by assumption.
    rewrite pop_all_filter, stale_names_filter by assumption. reflexivity.
  - intros n l Hin. apply filter_In in Hin. destruct Hin as [Hin Hs].
    destruct (load_in_store st l (Hst n l Hin)) as [d [Hd _]].
    exists d. split; [assumption|].
    unfold stale in Hs. simpl in Hs. rewrite Hd in Hs.
    destruct (tick_created d =? tick) eqn:Ec.
    + right. now apply Z.eqb_eq.
    + destruct (tick_touched d =? tick) eqn:Et; [|discriminate].
      left. now apply Z.eqb_eq.
  - intros n l d Hin Hd Ht Hc.
    assert (Hs : stale st tick (n, l) = true).
    { unfold stale. simpl. rewrite Hd.
      apply Z.eqb_neq in Ht. apply Z.eqb_neq in Hc. now rewrite Ht, Hc. }
    split.
    + intro Hk. apply filter_In in Hk. destruct Hk as [_ Hk].
      rewrite Hs in Hk. discriminate.
    + apply filter_In. now split.
  - apply accumulate_product.
  - apply accumulate_product.
Qed.

(** C3: [World.clean] leaves the store as it is, keeps exactly the entries
    that were created or touched at [tick] (so every retained Draw has
    [tick_touched = tick] or [tick_created = tick], and every entry with both
    ticks different from [tick] is removed), and returns [inc_fw], the product
    of the scores of the Draws created at [tick], and [inc_bw], the product of
    the scores of the Draws it removed. *)
Theorem World_clean_spec :
  forall (self : World) (tick : Z) (st : State),
    wf_world st self ->
    let kept := filter (fun e => negb (stale st tick e)) self in
    let removed := filter (stale st tick) self in
    exists inc_fw inc_bw,
      World_clean self tick st = (st, Returns (kept, (inc_fw, inc_bw))) /\
      (forall n l, In (n, l) kept ->
         exists d, nth_error (draws st) l = Some d /\
                   (tick_touched d = tick \/ tick_created d = tick)) /\
      (forall n l d, In (n, l) self -> nth_error (draws st) l = Some d ->
         tick_touched d <> tick -> tick_created d <> tick ->
         ~ In (n, l) kept /\ In (n, l) removed) /\
      inc_fw == product (map Draw_score
                           (draws_of st (filter (created st tick) self))) /\
      inc_bw == product (map Draw_score (draws_of st removed)).
Proof. exact World_clean_run. Qed.

(** ** Rejection sampling *)

Lemma single_rejection_loop_condition {Out T} :
  forall fuel (model : Model Out) condition (query : Out -> T) value st st' r,
    single_rejection_loop fuel model condition query value st
    = (st', Returns r) ->
    (st' = st /\ condition value = true /\ r = query value) \/
    (exists st0 world v,
        model [] (-1) st0 = (st', Returns (world, v)) /\
        condition v = true /\ r = query v).
Proof.
  induction fuel as [|fuel IH]; intros model condition query value st st' r;
    simpl; destruct (condition value) eqn:C.
  - intro H. inversion H; subst. now left.
  - discriminate.
  - intro H. inversion H; subst. now left.
  - intro H. apply bind_inv in H. destruct H as [st1 [[w v] [Hm H]]].
    right. apply IH in H. destruct H as [(-> & Hc & Hr) | H].
    + now exists st, w, v.
    + exact H.
Qed.

(** C9: when [single_rejection] returns, the result is [query(v)] for a value
    [v] on which [condition] holds, the value of its last run of the model on
    an empty trace at tick -1. *)
Theorem single_rejection_condition {Out T} :
  forall fuel (model : Model Out) condition (query : Out -> T) st st' r,
    single_rejection fuel model condition query st = (st', Returns r) ->
    exists st0 world v,
      model [] (-1) st0 = (st', Returns (world, v)) /\
      condition v = true /\ r = query v.
Proof.
  intros fuel model condition query st st' r H. unfold single_rejection in H.
  apply bind_inv in H. destruct H as [st1 [[w v] [Hm H]]].
  apply single_rejection_loop_condition in H.
  destruct H as [(-> & Hc & Hr) | H].
  - now exists st, w, v.
  - exact H.
Qed.

(** more fuel does not change a result *)
Lemma single_rejection_loop_fuel {Out T} :
  forall fuel (model : Model Out) condition (query : Out -> T) value st st' r,
    single_rejection_loop fuel model condition query value st
    = (st', Returns r) ->
    single_rejection_loop (S fuel) model condition query value st
    = (st', Returns r).
Proof.
  induction fuel as [|fuel IH]; intros model condition query value st st' r H.
  - simpl in *. destruct (condition value); [assumption | discriminate].
  - simpl in H. change (single_rejection_loop (S (S fuel)) model condition
                          query value st)
      with ((if condition value then ret (query value)
             else '(_, value) <- model [] (-1) ;;
                  single_rejection_loop (S fuel) model condition query value)
              st).
    destruct (condition value); [assumption|].
    apply bind_inv in H. destruct H as [st1 [[w v] [Hm H]]].
    rewrite (bind_Returns _ _ _ _ _ Hm). now apply IH.
Qed.

Lemma bind_ret_r {A} (m : M A) st : bind m ret st = m st.
Proof. unfold bind, ret. destruct (m st) as [st' [a | e | | ]]; reflexivity. Qed.

Lemma bind_ext {A B} (m : M A) (k k' : A -> M B) st :
  (forall a s, k a s = k' a s) -> bind m k st = bind m k' st.
Proof.
  intro H. unfold bind. destruct (m st) as [st' [a | e | | ]]; auto.
Qed.

Lemma bind_assoc {A B C} (m : M A) (k : A -> M B) (h : B -> M C) st :
  bind (bind m k) h st = bind m (fun a => bind (k a) h) st.
Proof.
  unfold bind. destruct (m st) as [st' [a | e | | ]]; reflexivity.
Qed.

Lemma mapM_const {A B} (m : M B) (xs : list A) st :
  mapM (fun _ => m) xs st = replicateM (List.length xs) m st.
Proof.
  revert st. induction xs as [|x xs IH]; intro st; simpl; [reflexivity|].
  apply bind_ext. intros a s. unfold bind. now rewrite IH.
Qed.

Lemma replicateM_add {A} (m : M A) (a b : nat) st :
  replicateM (a + b) m st
  = (xs <- replicateM a m ;; ys <- replicateM b m ;; ret (xs ++ ys)) st.
Proof.
  revert st. induction a as [|a IH]; intro st; simpl.
  - unfold bind at 1. unfold ret at 1. simpl.
    symmetry. apply bind_ret_r.
  - rewrite bind_assoc. apply bind_ext. intros x s.
    rewrite bind_assoc. unfold bind at 1. rewrite IH.
    unfold bind, ret.
    destruct (replicateM a m s) as [s1 [xs | e | | ]]; try reflexivity.
    destruct (replicateM b m s1) as [s2 [ys | e | | ]]; reflexivity.
Qed.

Lemma replicateM_length {A} (m : M A) n st st' xs :
  replicateM n m st = (st', Returns xs) -> List.length xs = n.
Proof.
  revert st st' xs. induction n as [|n IH]; intros st st' xs H; simpl in H.
  - inversion H. reflexivity.
  - apply bind_inv in H. destruct H as [s1 [x [_ H]]].
    apply bind_inv in H. destruct H as [s2 [ys [Hr H]]].
    inversion H; subst. simpl. f_equal. eapply IH; eauto.
Qed.

Lemma replicateM_returns {A} (m : M A) n :
  (forall s, exists s' r, m s = (s', Returns r)) ->
  forall st, exists st' xs, replicateM n m st = (st', Returns xs).
Proof.
  intro Hm. induction n as [|n IH]; intro st; simpl.
  - now exists st, [].
  - destruct (Hm st) as [s1 [x Hx]]. destruct (IH s1) as [s2 [xs Hxs]].
    exists s2, (x :: xs). rewrite (bind_Returns _ _ _ _ _ Hx).
    now rewrite (bind_Returns _ _ _ _ _ Hxs).
Qed.

Lemma length_range n : List.length (range n) = Z.to_nat n.
Proof. unfold range. now rewrite length_map, length_seq. Qed.

Lemma bind_cong_l {A B} (m m' : M A) (k : A -> M B) st :
  m st = m' st -> bind m k st = bind m' k st.
Proof. intro H. unfold bind. now rewrite H. Qed.

Lemma batches_run {A B} (m : M B) (rounds : list A) (k : Z) acc st :
  for_each rounds
    (fun _ samples =>
       batch <- mapp (fun _ : Z => m) (range k) ;; ret (samples ++ batch))
    acc st
  = (xs <- replicateM (List.length rounds * Z.to_nat k) m ;; ret (acc ++ xs)) st.
Proof.
  revert acc st. induction rounds as [|x rounds IH]; intros acc st.
  - simpl. unfold bind, ret. now rewrite app_nil_r.
  - simpl for_each. simpl Nat.mul.
    rewrite bind_assoc.
    rewrite (bind_cong_l _ _ _ _ (replicateM_add m _ _ st)).
    rewrite bind_assoc.
    unfold mapp.
    rewrite (bind_cong_l _ _ _ _ (mapM_const m (range k) st)).
    rewrite length_range.
    apply bind_ext. intros xs s.
    rewrite bind_assoc.
    change (for_each rounds
              (fun _ samples =>
                 batch <- mapp (fun _ : Z => m) (range k) ;;
                 ret (samples ++ batch)) (acc ++ xs) s
            = (ys <- replicateM (List.length rounds * Z.to_nat k) m ;;
               ret (acc ++ (xs ++ ys))) s).
    rewrite IH. apply bind_ext. intros ys s'. now rewrite app_assoc.
Qed.

(** C8: for a non-negative [num_samples], [rejection] is [num_samples] calls
    of [single_rejection] in sequence, the full batches of 100 followed by the
    batch of [num_samples mod 100]; the list it returns has exactly
    [num_samples] elements, and it returns whenever every call of
    [single_rejection] does. *)
Theorem rejection_spec {Out T} :
  forall fuel (model : Model Out) condition (query : Out -> T) num_samples st,
    0 <= num_samples ->
    let call := single_rejection fuel model condition query in
    rejection fuel model condition query num_samples st
    = replicateM (Z.to_nat num_samples) call st /\
    (forall st' samples,
        rejection fuel model condition query num_samples st
        = (st', Returns samples) ->
        List.length samples = Z.to_nat num_samples) /\
    ((forall s, exists s' r, call s = (s', Returns r)) ->
     exists st' samples,
       rejection fuel model condition query num_samples st
       = (st', Returns samples) /\
       List.length samples = Z.to_nat num_samples).
Proof.
  intros fuel model condition query n st Hn call.
  assert (E : rejection fuel model condition query n st
              = replicateM (Z.to_nat n) call st).
  { unfold rejection. fold call.
    assert (Hsplit : Z.to_nat n
                     = (Z.to_nat (n ÷ 100) * Z.to_nat 100
                        + Z.to_nat (n mod 100))%nat).
    { rewrite Z.quot_div_nonneg by lia.
      pose proof (Z.div_mod n 100 ltac:(lia)) as Hdm.
      pose proof (Z.mod_pos_bound n 100 ltac:(lia)) as Hb.
      pose proof (Z.div_pos n 100 Hn ltac:(lia)) as Hq.
      rewrite <- Z2Nat.inj_mul by lia.
      rewrite <- Z2Nat.inj_add by lia. f_equal. lia. }
    rewrite Hsplit, replicateM_add.
    rewrite (bind_cong_l _ _ _ _ (batches_run call _ 100 [] st)).
    rewrite length_range, bind_assoc.
    apply bind_ext. intros xs s. simpl app.
    change ((if negb (n mod 100 =? 0)
             then batch <- mapp (fun _ : Z => call) (range (n mod 100)) ;;
                  ret (xs ++ batch)
             else ret xs) s
            = (ys <- replicateM (Z.to_nat (n mod 100)) call ;;
               ret (xs ++ ys)) s).
    destruct (n mod 100 =? 0) eqn:Em; simpl negb; cbv iota.
    - apply Z.eqb_eq in Em. rewrite Em. simpl. unfold bind, ret. simpl.
      now rewrite app_nil_r.
    - unfold mapp. apply bind_cong_l. rewrite mapM_const, length_range.
      reflexivity. }
  split; [exact E|]. split.
  - intros st' samples H. rewrite E in H. now apply replicateM_length in H.
  - intro Hcall. destruct (replicateM_returns call (Z.to_nat n) Hcall st)
      as [st' [xs Hxs]].
    exists st', xs. rewrite E. split; [assumption|].
    now apply replicateM_length in Hxs.
Qed.

(** ** World.copy, World.score and the proposable Draws *)

Lemma draws_of_app_store (st st' : State) (w : World) extra :
  in_store st w ->
  draws st' = draws st ++ extra ->
  draws_of st' w = draws_of st w.
Proof.
  intros Hst E. unfold draws_of.
  induction w as [|[n l] w IH]; [reflexivity|].
  apply in_store_cons in Hst. destruct Hst as [Hlt Hw]. simpl in Hlt.
  simpl. rewrite IH by assumption. rewrite E.
  now rewrite nth_error_app1 by assumption.
Qed.

Lemma in_store_app_store (st st' : State) (w : World) extra :
  in_store st w -> draws st' = draws st ++ extra -> in_store st' w.
Proof.
  intros Hst E n l Hin. rewrite E, length_app.
  specialize (Hst n l Hin). lia.
Qed.

Lemma dict_set_fresh name l (w : World) :
  ~ In name (map fst w) -> dict_set name l w = w ++ [(name, l)].
Proof. intro H. apply dict_set_absent. now apply dict_get_None. Qed.

Lemma copy_items_run :
  forall (items new_world : World) (st : State),
    in_store st items ->
    NoDup (map fst items) ->
    (forall n, In n (map fst items) -> ~ In n (map fst new_world)) ->
    copy_items items new_world st
    = (mkState (draws st ++ map Draw_copy (draws_of st items)) (rng st),
       Returns (new_world
                ++ combine (map fst items)
                     (seq (List.length (draws st)) (List.length items)))).
Proof.
  induction items as [|[i draw] rest IH]; intros acc st Hst Hnd Hfresh.
  - simpl. rewrite !app_nil_r. destruct st; reflexivity.
  - apply in_store_cons in Hst. destruct Hst as [Hlt Hrest]. simpl in Hlt.
    destruct (load_in_store st draw Hlt) as [d [Hd Hload]].
    inversion Hnd as [|? ? Hnot Hnd']; subst.
    simpl copy_items. rewrite (bind_Returns _ _ _ _ _ Hload).
    unfold bind at 1. unfold alloc at 1.
    set (st1 := mkState (draws st ++ [Draw_copy d]) (rng st)).
    assert (E1 : draws st1 = draws st ++ [Draw_copy d]) by reflexivity.
    rewrite dict_set_fresh by (apply Hfresh; now left).
    rewrite IH.
    + rewrite (draws_of_app_store st st1 rest [Draw_copy d]) by assumption.
      unfold draws_of at 2. simpl flat_map. rewrite Hd.
      fold (draws_of st rest).
      simpl. rewrite length_app. simpl.
      rewrite <- !app_assoc. simpl.
      replace (List.length (draws st) + 1)%nat
        with (S (List.length (draws st))) by lia.
      reflexivity.
    + now apply (in_store_app_store st st1 rest [Draw_copy d]).
    + assumption.
    + intros n Hn. rewrite map_app, in_app_iff. simpl.
      intros [H | [H | []]].
      * apply (Hfresh n); [now right | assumption].
      * subst. contradiction.
Qed.

Lemma World_copy_run (self : World) (st : State) :
  wf_world st self ->
  World_copy self st
  = (mkState (draws st ++ map Draw_copy (draws_of st self)) (rng st),
     Returns (combine (map fst self)
                (seq (List.length (draws st)) (List.length self)))).
Proof.
  intros [Hnd Hst]. unfold World_copy.
  rewrite copy_items_run; auto.
Qed.

Lemma proposable_run (vals : list loc) (st : State) :
  (forall l, In l vals -> (l < List.length (draws st))%nat) ->
  proposable vals st = (st, Returns (filter (not_fixed st) vals)).
Proof.
  induction vals as [|l vals IH]; intro H; [reflexivity|].
  destruct (load_in_store st l (H l (or_introl eq_refl))) as [d [Hd Hload]].
  simpl proposable. rewrite (bind_Returns _ _ _ _ _ Hload).
  rewrite (bind_Returns _ _ _ _ _ (IH (fun l' Hl' => H l' (or_intror Hl')))).
  assert (Hnf : not_fixed st l = negb (fixed d))
    by (unfold not_fixed; now rewrite Hd).
  simpl. rewrite Hnf. destruct (fixed d); reflexivity.
Qed.

Lemma in_store_values st (w : World) :
  in_store st w ->
  forall l, In l (World_values w) -> (l < List.length (draws st))%nat.
Proof.
  intros H l Hin. apply in_map_iff in Hin. destruct Hin as [[n l'] [E Hin]].
  simpl in E. subst. eapply H; eauto.
Qed.

Lemma World_score_run (self : World) (st : State) :
  in_store st self ->
  World_score self st
  = (st, Returns (product (map Draw_score (draws_of st self)))).
Proof.
  intro Hst. unfold World_score.
  assert (E : mapM (fun draw => d <- load draw ;; ret (Draw_score d))
                   (World_values self) st
              = (st, Returns (map Draw_score (draws_of st self)))).
  { induction self as [|[n l] w IH]; [reflexivity|].
    apply in_store_cons in Hst. destruct Hst as [Hlt Hw]. simpl in Hlt.
    destruct (load_in_store st l Hlt) as [d [Hd Hload]].
    simpl. rewrite bind_assoc. rewrite (bind_Returns _ _ _ _ _ Hload).
    unfold bind at 1. unfold ret at 1.
    rewrite (bind_Returns _ _ _ _ _ (IH Hw)).
    unfold draws_of. simpl. rewrite Hd. reflexivity. }
  now rewrite (bind_Returns _ _ _ _ _ E).
Qed.

(** ** Which objects a computation writes to *)

Lemma keeps_refl n st : keeps n st st.
Proof. intros l _. reflexivity. Qed.

Lemma keeps_trans n st1 st2 st3 :
  keeps n st1 st2 -> keeps n st2 st3 -> keeps n st1 st3.
Proof. intros H1 H2 l Hl. rewrite H2, H1; auto. Qed.

Lemma keeps_bind {A B} n (m : M A) (k : A -> M B) st0 st :
  keeps n st0 (fst (m st)) ->
  (forall a st1, m st = (st1, Returns a) -> keeps n st0 (fst (k a st1))) ->
  keeps n st0 (fst (bind m k st)).
Proof.
  intros Hm Hk. unfold bind.
  destruct (m st) as [st1 [a | e | | ]] eqn:E; simpl in *; auto.
Qed.

Lemma keeps_length n st st' :
  (n <= List.length (draws st))%nat -> keeps n st st' ->
  (n <= List.length (draws st'))%nat.
Proof.
  intros Hn Hk. destruct n as [|n]; [lia|].
  assert (Hl : (n < S n)%nat) by lia. specialize (Hk n Hl).
  assert (nth_error (draws st) n <> None) by (apply nth_error_Some; lia).
  assert (nth_error (draws st') n <> None) by congruence.
  apply nth_error_Some in H0. lia.
Qed.

Lemma load_state l st : fst (load l st) = st.
Proof. unfold load. destruct (nth_error (draws st) l); reflexivity. Qed.

Lemma load_inv l st st' d :
  load l st = (st', Returns d) -> st' = st /\ nth_error (draws st) l = Some d.
Proof.
  unfold load. destruct (nth_error (draws st) l); intro H; inversion H; auto.
Qed.

Lemma proposable_state vals st : fst (proposable vals st) = st.
Proof.
  induction vals as [|l vals IH]; [reflexivity|]. simpl. unfold bind.
  pose proof (load_state l st) as Hl. destruct (load l st) as [s1 [d | e | | ]];
    simpl in Hl; subst; try reflexivity.
  destruct (proposable vals st) as [s2 [ds | e | | ]]; simpl in IH; subst;
    reflexivity.
Qed.

Lemma proposable_inv vals st st' ds :
  proposable vals st = (st', Returns ds) ->
  st' = st /\ forall l, In l ds -> In l vals.
Proof.
  intro H. split.
  - pose proof (proposable_state vals st) as E. rewrite H in E. exact E.
  - revert st st' ds H. induction vals as [|v vals IH]; intros st st' ds H.
    + inversion H; subst. auto.
    + simpl in H. apply bind_inv in H. destruct H as [s1 [d [Hl H]]].
      apply bind_inv in H. destruct H as [s2 [ds' [Hp H]]].
      inversion H; subst. intros l Hin.
      destruct (fixed d); [right | destruct Hin as [-> | Hin]; [now left | right]];
        eapply IH; eauto.
Qed.

Lemma clean_items_state items tick self a b st :
  fst (clean_items items tick self a b st) = st.
Proof.
  revert self a b. induction items as [|[n l] items IH]; intros self a b;
    [reflexivity|].
  simpl. unfold bind. pose proof (load_state l st) as Hl.
  destruct (load l st) as [s1 [d | e | | ]]; simpl in Hl; subst;
    try reflexivity.
  destruct (tick_created d =? tick); [apply IH|].
  destruct (negb (tick_touched d =? tick)); apply IH.
Qed.

Lemma py_div_state a b st : fst (py_div a b st) = st.
Proof. unfold py_div. destruct (Qeq_bool b 0); reflexivity. Qed.

Lemma with_rng_draws {A} (f : RNG -> A * RNG) st :
  draws (fst (with_rng f st)) = draws st.
Proof. unfold with_rng. destruct (f (rng st)); reflexivity. Qed.

Lemma random_choice_draws {A} (seq : list A) st :
  draws (fst (random_choice seq st)) = draws st.
Proof.
  unfold random_choice. destruct seq as [|x xs]; [reflexivity|].
  unfold bind. pose proof (with_rng_draws (py_index (List.length (x :: xs))) st) as H.
  destruct (with_rng _ st) as [s1 [i | e | | ]]; simpl in H; try exact H.
  destruct (nth_error (x :: xs) i); exact H.
Qed.

Lemma random_choice_In {A} (seq : list A) st st' x :
  random_choice seq st = (st', Returns x) -> In x seq.
Proof.
  unfold random_choice. destruct seq as [|y ys]; [discriminate|].
  intro H. apply bind_inv in H. destruct H as [s1 [i [_ H]]].
  destruct (nth_error (y :: ys) i) eqn:E; inversion H; subst.
  eapply nth_error_In; eauto.
Qed.

Lemma keeps_of_draws n st st' : draws st' = draws st -> keeps n st st'.
Proof. intros E l _. now rewrite E. Qed.

Lemma assign_keeps n l f st :
  (n <= l)%nat -> keeps n st (fst (assign l f st)).
Proof.
  intro Hl. unfold assign, bind. pose proof (load_state l st) as E.
  destruct (load l st) as [s1 [d | e | | ]]; simpl in E; subst;
    try apply keeps_refl.
  simpl. intros l0 Hl0. simpl. apply nth_error_list_set_neq. lia.
Qed.

Lemma Draw_resample_keeps n l st :
  (n <= l)%nat -> keeps n st (fst (Draw_resample l st)).
Proof.
  intro Hl. unfold Draw_resample.
  apply keeps_bind.
  - rewrite load_state. apply keeps_refl.
  - intros d s1 Hd. apply load_inv in Hd. destruct Hd as [-> _].
    apply keeps_bind.
    + apply keeps_of_draws. apply with_rng_draws.
    + intros v s2 Hv.
      assert (E : draws s2 = draws st).
      { pose proof (with_rng_draws (sampler (choice d)) st) as E.
        now rewrite Hv in E. }
      eapply keeps_trans; [apply keeps_of_draws; exact E|].
      now apply assign_keeps.
Qed.

Lemma combine_seq_values (names : list Name) n len l :
  In l (World_values (combine names (seq n len))) -> (n <= l)%nat.
Proof.
  intro H. apply in_map_iff in H. destruct H as [[k l'] [E H]].
  simpl in E. subst. apply in_combine_r in H. apply in_seq in H. lia.
Qed.

Lemma map_fst_combine_eq {A B} (xs : list A) (ys : list B) :
  List.length xs = List.length ys -> map fst (combine xs ys) = xs.
Proof.
  revert ys. induction xs as [|x xs IH]; intros [|y ys] H; simpl in *;
    try discriminate; [reflexivity|].
  f_equal. apply IH. lia.
Qed.

Lemma map_snd_combine_eq {A B} (xs : list A) (ys : list B) :
  List.length xs = List.length ys -> map snd (combine xs ys) = ys.
Proof.
  revert ys. induction xs as [|x xs IH]; intros [|y ys] H; simpl in *;
    try discriminate; [reflexivity|].
  f_equal. apply IH. lia.
Qed.

Lemma fst_run_eq {A} (m : M A) st st' o :
  m st = (st', o) -> fst (m st) = st'.
Proof. intro H. now rewrite H. Qed.

(** [World.propose] writes to no object that existed before the call *)
Lemma World_propose_keeps {Out} (self : World) (model : Model Out) tick st :
  wf_world st self ->
  model_frame model ->
  keeps (List.length (draws st)) st (fst (World_propose self model tick st)).
Proof.
  intros Hwf Hframe. set (n := List.length (draws st)).
  unfold World_propose.
  apply keeps_bind.
  { rewrite World_copy_run by assumption. simpl. intros l Hl.
    now apply nth_error_app1. }
  intros proposal s1 Hcopy.
  assert (K1 : keeps n st s1).
  { rewrite World_copy_run in Hcopy by assumption. inversion Hcopy; subst.
    intros l Hl. simpl. now apply nth_error_app1. }
  assert (Hfresh : forall l, In l (World_values proposal) -> (n <= l)%nat).
  { rewrite World_copy_run in Hcopy by assumption. inversion Hcopy; subst.
    intros l Hl. eapply combine_seq_values; eauto. }
  clear Hcopy.
  apply keeps_bind; [now rewrite proposable_state|].
  intros pre s2 Hpre. apply proposable_inv in Hpre. destruct Hpre as [-> Hpre].
  apply keeps_bind.
  { eapply keeps_trans; [exact K1|]. apply keeps_of_draws.
    apply random_choice_draws. }
  intros draw s3 Hdraw.
  assert (K3 : keeps n st s3).
  { eapply keeps_trans; [exact K1|]. apply keeps_of_draws.
    pose proof (random_choice_draws pre s1) as E. now rewrite Hdraw in E. }
  assert (Hd : (n <= draw)%nat).
  { apply Hfresh, Hpre. eapply random_choice_In; eauto. }
  clear Hdraw K1.
  apply keeps_bind; [now rewrite load_state|].
  intros d s4 Hl. apply load_inv in Hl. destruct Hl as [-> _]. cbv zeta.
  apply keeps_bind.
  { eapply keeps_trans; [exact K3|]. now apply Draw_resample_keeps. }
  intros [] s5 Hres.
  assert (K5 : keeps n st s5).
  { eapply keeps_trans; [exact K3|].
    rewrite <- (fst_run_eq _ _ _ _ Hres). now apply Draw_resample_keeps. }
  clear Hres K3.
  apply keeps_bind; [now rewrite load_state|].
  intros d' s6 Hl. apply load_inv in Hl. destruct Hl as [-> _]. cbv zeta.
  assert (Km : keeps n st (fst (model proposal tick s5))).
  { intros l Hl. rewrite <- (K5 l Hl). apply Hframe.
    - pose proof (keeps_length n st s5 (Nat.le_refl _) K5). lia.
    - intro Hin. apply Hfresh in Hin. lia. }
  apply keeps_bind; [exact Km|].
  intros [new_world new_value] s7 Hm.
  rewrite (fst_run_eq _ _ _ _ Hm) in Km. clear Hm.
  apply keeps_bind; [unfold World_clean; now rewrite clean_items_state|].
  intros [new_world' [inc_fw inc_bw]] s8 Hc.
  assert (s8 = s7).
  { unfold World_clean in Hc.
    rewrite <- (fst_run_eq _ _ _ _ Hc). apply clean_items_state. }
  subst s8. clear Hc.
  apply keeps_bind; [now rewrite proposable_state|].
  intros post s9 Hpost. apply proposable_inv in Hpost. destruct Hpost as [-> _].
  apply keeps_bind; [now rewrite py_div_state|].
  intros r s10 Hr.
  assert (s10 = s7) by (rewrite <- (fst_run_eq _ _ _ _ Hr); apply py_div_state).
  subst s10. clear Hr. cbv zeta.
  apply keeps_bind; [now rewrite py_div_state|].
  intros r' s11 Hr.
  assert (s11 = s7) by (rewrite <- (fst_run_eq _ _ _ _ Hr); apply py_div_state).
  subst s11. exact Km.
Qed.

(** C6: [World.copy] returns a world with the names of the original whose
    Draws are new objects: writing any Draw record at an address of the copy
    leaves every Draw of the original as it was.  Consequently
    [World.propose], run with a model callback that writes only to the Draws
    of the world it is given, leaves every object that existed before the
    call, and so every Draw of the retained world, unchanged, whether it
    returns or raises. *)
Theorem World_copy_independent {Out} :
  forall (self : World) (st : State),
    wf_world st self ->
    exists proposal st1,
      World_copy self st = (st1, Returns proposal) /\
      map fst proposal = map fst self /\
      (forall l, In l (World_values proposal) -> ~ In l (World_values self)) /\
      (forall l d' l0,
          In l (World_values proposal) ->
          In l0 (World_values self) ->
          nth_error (draws (fst (store l d' st1))) l0
          = nth_error (draws st) l0) /\
      (forall (model : Model Out) (tick : Z),
          model_frame model ->
          forall l0,
            (l0 < List.length (draws st))%nat ->
            nth_error (draws (fst (World_propose self model tick st))) l0
            = nth_error (draws st) l0).
Proof.
  intros self st Hwf. pose proof Hwf as [Hnd Hst].
  do 2 eexists. split; [now apply World_copy_run|].
  assert (Hfresh : forall l,
             In l (World_values
                     (combine (map fst self)
                        (seq (List.length (draws st)) (List.length self)))) ->
             (List.length (draws st) <= l)%nat)
    by (intros l Hl; eapply combine_seq_values; eauto).
  split; [|split; [|split]].
  - apply map_fst_combine_eq. now rewrite length_map, length_seq.
  - intros l Hl Hin. apply Hfresh in Hl.
    apply (in_store_values st self Hst) in Hin. lia.
  - intros l d' l0 Hl Hl0. apply Hfresh in Hl.
    apply (in_store_values st self Hst) in Hl0. simpl.
    rewrite nth_error_list_set_neq by lia.
    now apply nth_error_app1.
  - intros model tick Hframe l0 Hl0.
    now apply (World_propose_keeps self model tick st Hwf Hframe).
Qed.

(** ** The MCMC driver *)

Lemma retained_states_length {Out} (model : Model Out) condition num_steps
    rounds s st st' states :
  retained_states model condition num_steps rounds s st = (st', Returns states) ->
  List.length states = List.length rounds.
Proof.
  revert s st st' states.
  induction rounds as [|i rounds IH]; intros s st st' states H; simpl in H.
  - inversion H. reflexivity.
  - apply bind_inv in H. destruct H as [s1 [x [_ H]]].
    apply bind_inv in H. destruct H as [s2 [ys [Hr H]]].
    inversion H; subst. simpl. f_equal. eapply IH; eauto.
Qed.

Lemma outer_loop_run {Out T} (model : Model Out) condition (query : Out -> T)
    num_steps rounds world value acc st :
  ('(_, _, samples) <-
     for_each rounds
       (fun i '(world, value, samples) =>
          '(world, value) <-
            for_each (range num_steps)
              (fun j '(world, value) =>
                 transition model condition i j world value)
              (world, value) ;;
          ret (world, value, samples ++ [query value]))
       (world, value, acc) ;;
   ret samples) st
  = (states <- retained_states model condition num_steps rounds (world, value) ;;
     ret (acc ++ map (fun s => query (snd s)) states)) st.
Proof.
  revert world value acc st.
  induction rounds as [|i rounds IH]; intros world value acc st.
  - simpl. unfold bind, ret. now rewrite app_nil_r.
  - simpl for_each. simpl retained_states. rewrite !bind_assoc.
    unfold mcmc_round. apply bind_ext. intros [w v] s.
    rewrite bind_assoc.
    change (('(_, _, samples) <-
               for_each rounds
                 (fun i '(world, value, samples) =>
                    '(world, value) <-
                      for_each (range num_steps)
                        (fun j '(world, value) =>
                           transition model condition i j world value)
                        (world, value) ;;
                    ret (world, value, samples ++ [query value]))
                 (w, v, acc ++ [query v]) ;;
             ret samples) s
            = (states <- retained_states model condition num_steps rounds (w, v) ;;
               x <- ret ((w, v) :: states) ;;
               ret (acc ++ map (fun s => query (snd s)) x)) s).
    rewrite IH. apply bind_ext. intros states s'.
    unfold bind, ret. simpl. now rewrite <- app_assoc.
Qed.

Lemma mcmc_round_returns {Out} (model : Model Out) condition
    (Inv : State -> World * Out -> Prop) :
  (forall i j s st,
      Inv st s ->
      exists st' s',
        transition model condition i j (fst s) (snd s) st = (st', Returns s') /\
        Inv st' s') ->
  forall num_steps i s st,
    Inv st s ->
    exists st' s',
      mcmc_round model condition num_steps i s st = (st', Returns s') /\
      Inv st' s'.
Proof.
  intros Hstep num_steps i. unfold mcmc_round.
  induction (range num_steps) as [|j js IH]; intros s st HI.
  - now exists st, s.
  - destruct (Hstep i j s st HI) as [st1 [s1 [Ht HI1]]].
    destruct (IH s1 st1 HI1) as [st2 [s2 [Hr HI2]]].
    exists st2, s2. split; [|assumption].
    simpl. destruct s as [w v]. simpl in Ht.
    now rewrite (bind_Returns _ _ _ _ _ Ht).
Qed.

Lemma retained_states_returns {Out} (model : Model Out) condition
    (Inv : State -> World * Out -> Prop) :
  (forall i j s st,
      Inv st s ->
      exists st' s',
        transition model condition i j (fst s) (snd s) st = (st', Returns s') /\
        Inv st' s') ->
  forall num_steps rounds s st,
    Inv st s ->
    exists st' states,
      retained_states model condition num_steps rounds s st
      = (st', Returns states).
Proof.
  intros Hstep num_steps rounds.
  induction rounds as [|i rounds IH]; intros s st HI.
  - now exists st, [].
  - destruct (mcmc_round_returns model condition Inv Hstep num_steps i s st HI)
      as [st1 [s1 [Hr HI1]]].
    destruct (IH s1 st1 HI1) as [st2 [states Hs]].
    exists st2, (s1 :: states). simpl.
    rewrite (bind_Returns _ _ _ _ _ Hr).
    now rewrite (bind_Returns _ _ _ _ _ Hs).
Qed.

(** C7: [mcmc] initializes, runs one round of [num_steps] transitions for
    each of the [num_samples] rounds, and returns the projection by [query] of
    the state retained at the end of each round, one output per round: the
    list has exactly [num_samples] elements ([range] of a negative number is
    empty).  It returns whenever [initialize] returns and no transition lets
    an exception escape. *)
Theorem mcmc_spec {Out T} :
  forall fuel (model : Model Out) condition (query : Out -> T)
         num_steps num_samples st,
    mcmc fuel model condition query num_steps num_samples st
    = (s0 <- initialize fuel model condition ;;
       states <- retained_states model condition num_steps
                   (range num_samples) s0 ;;
       ret (map (fun s => query (snd s)) states)) st /\
    (forall st' samples,
        mcmc fuel model condition query num_steps num_samples st
        = (st', Returns samples) ->
        List.length samples = Z.to_nat num_samples) /\
    (forall (Inv : State -> World * Out -> Prop) st0 s0,
        (forall i j s st1,
            Inv st1 s ->
            exists st2 s',
              transition model condition i j (fst s) (snd s) st1
              = (st2, Returns s') /\ Inv st2 s') ->
        initialize fuel model condition st = (st0, Returns s0) ->
        Inv st0 s0 ->
        exists st' samples,
          mcmc fuel model condition query num_steps num_samples st
          = (st', Returns samples) /\
          List.length samples = Z.to_nat num_samples).
Proof.
  intros fuel model condition query num_steps num_samples st.
  assert (E : mcmc fuel model condition query num_steps num_samples st
              = (s0 <- initialize fuel model condition ;;
                 states <- retained_states model condition num_steps
                             (range num_samples) s0 ;;
                 ret (map (fun s => query (snd s)) states)) st).
  { unfold mcmc. apply bind_ext. intros [world value] s.
    apply (outer_loop_run model condition query num_steps (range num_samples)
             world value [] s). }
  assert (L : forall st' samples,
             mcmc fuel model condition query num_steps num_samples st
             = (st', Returns samples) ->
             List.length samples = Z.to_nat num_samples).
  { intros st' samples H. rewrite E in H.
    apply bind_inv in H. destruct H as [s1 [s0 [_ H]]].
    apply bind_inv in H. destruct H as [s2 [states [Hr H]]].
    inversion H; subst. rewrite length_map.
    apply retained_states_length in Hr. now rewrite Hr, length_range. }
  split; [exact E|]. split; [exact L|].
  intros Inv st0 s0 Hstep Hinit HI.
  destruct (retained_states_returns model condition Inv Hstep num_steps
              (range num_samples) s0 st0 HI) as [st' [states Hs]].
  exists st', (map (fun s => query (snd s)) states).
  assert (R : mcmc fuel model condition query num_steps num_samples st
              = (st', Returns (map (fun s => query (snd s)) states))).
  { rewrite E. rewrite (bind_Returns _ _ _ _ _ Hinit).
    now rewrite (bind_Returns _ _ _ _ _ Hs). }
  split; [exact R | now apply (L st')].
Qed.

(** ** World.propose *)

Lemma length_draws_of st (w : World) :
  in_store st w -> List.length (draws_of st w) = List.length w.
Proof.
  induction w as [|[n l] w IH]; intro H; [reflexivity|].
  apply in_store_cons in H. destruct H as [Hlt Hw]. simpl in Hlt.
  destruct (load_in_store st l Hlt) as [d [Hd _]].
  unfold draws_of. simpl. rewrite Hd. simpl. f_equal. now apply IH.
Qed.

Lemma nth_error_app_length {A} (xs : list A) x t :
  nth_error (xs ++ x :: t) (List.length xs) = Some x.
Proof.
  rewrite nth_error_app2 by lia. now rewrite Nat.sub_diag.
Qed.

Lemma count_proposable_copy_gen (st : State) (w : World) (prefix : list Draw) :
  in_store st w ->
  List.length
    (filter (not_fixed_in (prefix ++ map Draw_copy (draws_of st w)))
            (seq (List.length prefix) (List.length w)))
  = List.length (filter (not_fixed st) (World_values w)).
Proof.
  revert prefix. induction w as [|[n l] w IH]; intros prefix H; [reflexivity|].
  apply in_store_cons in H. destruct H as [Hlt Hw]. simpl in Hlt.
  destruct (load_in_store st l Hlt) as [d [Hd _]].
  assert (E : draws_of st ((n, l) :: w) = d :: draws_of st w)
    by (unfold draws_of; simpl; now rewrite Hd).
  assert (Hnf : not_fixed st l = negb (fixed d))
    by (unfold not_fixed; now rewrite Hd).
  assert (Hnfi : not_fixed_in
                   (prefix ++ Draw_copy d :: map Draw_copy (draws_of st w))
                   (List.length prefix) = negb (fixed d))
    by (unfold not_fixed_in; now rewrite nth_error_app_length).
  specialize (IH (prefix ++ [Draw_copy d]) Hw).
  rewrite <- app_assoc in IH. simpl app in IH.
  rewrite length_app in IH. simpl List.length in IH.
  replace (List.length prefix + 1)%nat with (S (List.length prefix)) in IH by lia.
  rewrite E. simpl. rewrite Hnf, Hnfi.
  destruct (fixed d); simpl; now rewrite IH.
Qed.

Lemma random_choice_run {A} (seq : list A) st :
  seq <> [] ->
  exists x st',
    random_choice seq st = (st', Returns x) /\ In x seq /\
    draws st' = draws st.
Proof.
  intro Hne. destruct seq as [|y ys]; [contradiction|].
  unfold random_choice, bind, with_rng.
  destruct (py_index (List.length (y :: ys)) (rng st)) as [i r] eqn:Ei.
  assert (Hi : (i < List.length (y :: ys))%nat).
  { unfold py_index in Ei. destruct (py_tape (rng st)) as [|k t].
    - inversion Ei; subst. simpl. lia.
    - assert (i = (k mod List.length (y :: ys))%nat) by congruence. subst i.
      apply Nat.mod_upper_bound. simpl. lia. }
  destruct (nth_error (y :: ys) i) as [x|] eqn:En.
  - exists x. eexists. split; [reflexivity|]. split; [|reflexivity].
    eapply nth_error_In; eauto.
  - apply nth_error_None in En. lia.
Qed.

Lemma Draw_resample_run l st d v r :
  nth_error (draws st) l = Some d ->
  sampler (choice d) (rng st) = (v, r) ->
  Draw_resample l st
  = (mkState (list_set (draws st) l (set_value v d)) r, Returns tt).
Proof.
  intros Hd Hs. unfold Draw_resample.
  rewrite (bind_Returns _ _ _ _ _ (load_Returns _ _ _ Hd)).
  unfold bind at 1. unfold with_rng. rewrite Hs.
  unfold assign, bind, load, store. simpl. rewrite Hd. reflexivity.
Qed.

Lemma py_div_run a b st :
  ~ b == 0 -> py_div a b st = (st, Returns (a / b)%Q).
Proof.
  intro H. unfold py_div. destruct (Qeq_bool b 0) eqn:E; [|reflexivity].
  apply Qeq_bool_iff in E. contradiction.
Qed.

Lemma len_nonzero {A} (xs : list A) : xs <> [] -> ~ len xs == 0.
Proof.
  intros Hne H. destruct xs as [|x xs]; [contradiction|].
  unfold len in H. simpl List.length in H.
  unfold Qeq in H. simpl in H. lia.
Qed.

Lemma in_store_filter st (w : World) f :
  in_store st w -> in_store st (filter f w).
Proof. intros H n l Hin. apply filter_In in Hin. eapply H, Hin. Qed.

(** the run of [World.propose], step by step *)
Lemma World_propose_run {Out} :
  forall (self : World) (model : Model Out) (tick : Z) (st : State),
    wf_world st self ->
    filter (not_fixed st) (World_values self) <> [] ->
    exists proposal st1 pre draw st2 d v st3,
      World_copy self st = (st1, Returns proposal) /\
      proposable (World_values proposal) st1 = (st1, Returns pre) /\
      List.length pre
      = List.length (filter (not_fixed st) (World_values self)) /\
      random_choice pre st1 = (st2, Returns draw) /\
      nth_error (draws st2) draw = Some d /\
      Draw_resample draw st2 = (st3, Returns tt) /\
      nth_error (draws st3) draw = Some (set_value v d) /\
      forall st4 new_world new_value,
        model proposal tick st3 = (st4, Returns (new_world, new_value)) ->
        wf_world st4 new_world ->
        let kept := filter (fun e => negb (stale st4 tick e)) new_world in
        let removed := filter (stale st4 tick) new_world in
        let fresh := filter (created st4 tick) new_world in
        let post := filter (not_fixed st4) (World_values kept) in
        post <> [] ->
        exists bw fw,
          World_propose self model tick st
          = (st4, Returns (kept, new_value, bw, fw)) /\
          bw == (1 / len post) * Draw_score d
                * product (map Draw_score (draws_of st4 removed)) /\
          fw == (1 / len pre) * Draw_score (set_value v d)
                * product (map Draw_score (draws_of st4 fresh)).
Proof.
  intros self model tick st Hwf Hne. pose proof Hwf as [Hnd Hst].
  set (n := List.length (draws st)).
  set (st1 := mkState (draws st ++ map Draw_copy (draws_of st self)) (rng st)).
  set (proposal := combine (map fst self) (seq n (List.length self))).
  assert (Hcopy : World_copy self st = (st1, Returns proposal))
    by now apply World_copy_run.
  assert (Hvals : World_values proposal = seq n (List.length self)).
  { apply map_snd_combine_eq. now rewrite length_map, length_seq. }
  assert (Hin1 : forall l, In l (World_values proposal) ->
                           (l < List.length (draws st1))%nat).
  { intros l Hl. rewrite Hvals in Hl. apply in_seq in Hl.
    unfold st1. simpl. rewrite length_app, length_map, length_draws_of by assumption.
    fold n. lia. }
  set (pre := filter (not_fixed st1) (World_values proposal)).
  assert (Hpre : proposable (World_values proposal) st1 = (st1, Returns pre))
    by now apply proposable_run.
  assert (Hlen : List.length pre
                 = List.length (filter (not_fixed st) (World_values self))).
  { unfold pre. rewrite Hvals.
    apply (count_proposable_copy_gen st self (draws st) Hst). }
  assert (Hpre_ne : pre <> []).
  { intro E. rewrite E in Hlen. simpl in Hlen.
    destruct (filter (not_fixed st) (World_values self)); [now apply Hne|].
    discriminate. }
  destruct (random_choice_run pre st1 Hpre_ne)
    as [draw [st2 [Hpick [Hdraw_in E2]]]].
  assert (Hdraw_lt : (draw < List.length (draws st2))%nat).
  { rewrite E2. apply Hin1. unfold pre in Hdraw_in.
    now apply filter_In in Hdraw_in. }
  destruct (load_in_store st2 draw Hdraw_lt) as [d [Hd Hload]].
  destruct (sampler (choice d) (rng st2)) as [v r] eqn:Hs.
  set (st3 := mkState (list_set (draws st2) draw (set_value v d)) r).
  assert (Hres : Draw_resample draw st2 = (st3, Returns tt))
    by now apply Draw_resample_run.
  assert (Hd3 : nth_error (draws st3) draw = Some (set_value v d))
    by (simpl; now apply nth_error_list_set_eq).
  exists proposal, st1, pre, draw, st2, d, v, st3.
  repeat (split; [assumption|]).
  intros st4 new_world new_value Hmodel Hwf4 kept removed fresh post Hpost.
  destruct (World_clean_run new_world tick st4 Hwf4)
    as [inc_fw [inc_bw [Hclean [_ [_ [Hfw Hbw]]]]]].
  fold kept in Hclean. fold removed in Hbw. fold fresh in Hfw.
  assert (Hpost_run : proposable (World_values kept) st4 = (st4, Returns post)).
  { apply proposable_run. apply in_store_values.
    apply in_store_filter. apply Hwf4. }
  exists ((1 / len post) * Draw_score d * inc_bw)%Q,
         ((1 / len pre) * Draw_score (set_value v d) * inc_fw)%Q.
  split; [|split].
  - unfold World_propose.
    rewrite (bind_Returns _ _ _ _ _ Hcopy).
    rewrite (bind_Returns _ _ _ _ _ Hpre).
    rewrite (bind_Returns _ _ _ _ _ Hpick).
    rewrite (bind_Returns _ _ _ _ _ Hload). cbv zeta.
    rewrite (bind_Returns _ _ _ _ _ Hres).
    rewrite (bind_Returns _ _ _ _ _ (load_Returns _ _ _ Hd3)). cbv zeta.
    rewrite (bind_Returns _ _ _ _ _ Hmodel).
    rewrite (bind_Returns _ _ _ _ _ Hclean).
    rewrite (bind_Returns _ _ _ _ _ Hpost_run).
    rewrite (bind_Returns _ _ _ _ _
               (py_div_run 1 (len post) st4 (len_nonzero post Hpost))).
    rewrite (bind_Returns _ _ _ _ _
               (py_div_run 1 (len pre) st4 (len_nonzero pre Hpre_ne))).
    reflexivity.
  - now rewrite Hbw.
  - now rewrite Hfw.
Qed.

(** C1, as the code has it: for a world with at least one non-fixed Draw,
    [World.propose] copies the world, picks one of the proposable Draws of the
    copy (there are as many as in the world itself) and resamples it; when the
    model callback returns on the resampled copy and leaves a proposable Draw
    after cleaning, [propose] returns the cleaned world with
    [bw = (1 / |proposable after cleaning|) * score before resampling * inc_bw]
    and
    [fw = (1 / |proposable before resampling|) * score after resampling * inc_fw],
    where [inc_bw] is the product of the scores of the removed Draws and
    [inc_fw] the product of the scores of the Draws created at this tick. *)
Theorem World_propose_weights {Out} :
  forall (self : World) (model : Model Out) (tick : Z) (st : State),
    wf_world st self ->
    filter (not_fixed st) (World_values self) <> [] ->
    exists proposal st1 pre draw st2 d v st3,
      World_copy self st = (st1, Returns proposal) /\
      proposable (World_values proposal) st1 = (st1, Returns pre) /\
      List.length pre
      = List.length (filter (not_fixed st) (World_values self)) /\
      random_choice pre st1 = (st2, Returns draw) /\
      nth_error (draws st2) draw = Some d /\
      Draw_resample draw st2 = (st3, Returns tt) /\
      nth_error (draws st3) draw = Some (set_value v d) /\
      forall st4 new_world new_value,
        model proposal tick st3 = (st4, Returns (new_world, new_value)) ->
        wf_world st4 new_world ->
        let kept := filter (fun e => negb (stale st4 tick e)) new_world in
        let removed := filter (stale st4 tick) new_world in
        let fresh := filter (created st4 tick) new_world in
        let post := filter (not_fixed st4) (World_values kept) in
        post <> [] ->
        exists bw fw,
          World_propose self model tick st
          = (st4, Returns (kept, new_value, bw, fw)) /\
          bw == (1 / len post) * Draw_score d
                * product (map Draw_score (draws_of st4 removed)) /\
          fw == (1 / len pre) * Draw_score (set_value v d)
                * product (map Draw_score (draws_of st4 fresh)).
Proof. exact (@World_propose_run Out). Qed.

(** ** Models that write only to their own world *)

Lemma dict_set_values name l (w : World) l' :
  In l' (World_values (dict_set name l w)) ->
  l' = l \/ In l' (World_values w).
Proof.
  unfold World_values. induction w as [|[n0 l0] w IH]; simpl.
  - intros [H | []]. now left.
  - destruct (Name_eqb n0 name); simpl.
    + intros [H | H]; [now left | right; now right].
    + intros [H | H]; [right; now left|].
      destruct (IH H) as [E | E]; [now left | right; now right].
Qed.

Lemma alloc_above n d st (w : World) name :
  above n st w ->
  above n (mkState (draws st ++ [d]) (rng st))
        (dict_set name (List.length (draws st)) w).
Proof.
  intros [Hn Hw]. split.
  - simpl. rewrite length_app. lia.
  - intros l Hl. apply dict_set_values in Hl.
    destruct Hl as [-> | Hl]; [exact Hn | now apply Hw].
Qed.

Lemma keeps_alloc n st d r :
  (n <= List.length (draws st))%nat ->
  keeps n st (mkState (draws st ++ [d]) r).
Proof. intros Hn l Hl. simpl. apply nth_error_app1. lia. Qed.

Lemma copy_items_above n items :
  forall acc st st0,
    keeps n st0 st -> above n st acc ->
    keeps n st0 (fst (copy_items items acc st)) /\
    forall st' w, copy_items items acc st = (st', Returns w) -> above n st' w.
Proof.
  induction items as [|[i l] items IH]; intros acc st st0 K A.
  - simpl. split; [exact K|]. intros st' w H. inversion H; subst. exact A.
  - simpl. unfold bind, alloc. pose proof (load_state l st) as E.
    destruct (load l st) as [s1 [d | e | | ]]; simpl in E; subst s1;
      try (split; [exact K | discriminate]).
    apply IH.
    + eapply keeps_trans; [exact K|]. apply keeps_alloc.
      destruct A as [An _]. exact An.
    + now apply alloc_above.
Qed.

Lemma above_nil n st : (n <= List.length (draws st))%nat -> above n st [].
Proof. intro H. split; [exact H|]. intros l []. Qed.

Lemma above_list_set n st (w : World) l d :
  above n st w -> above n (mkState (list_set (draws st) l d) (rng st)) w.
Proof.
  intros [Hn Hw]. split; [|exact Hw]. simpl. now rewrite length_list_set.
Qed.

Lemma Choice_sample_above n self world name tick st st0 :
  keeps n st0 st -> above n st world ->
  keeps n st0 (fst (Choice_sample self world name tick st)) /\
  forall st' w v,
    Choice_sample self world name tick st = (st', Returns (w, v)) ->
    above n st' w.
Proof.
  intros K A. unfold Choice_sample.
  destruct (dict_get name world) as [draw|] eqn:G.
  - assert (Hd : (n <= draw)%nat).
    { apply A. apply dict_get_In in G.
      change draw with (snd (name, draw)). now apply in_map. }
    cbv [bind assign load store raise ret].
    destruct (nth_error (draws st) draw) as [d|] eqn:Ed; simpl;
      [|split; [exact K | discriminate]].
    pose proof (nth_error_in_range _ _ _ Ed) as Hlt.
    rewrite nth_error_list_set_eq by assumption. simpl.
    rewrite list_set_list_set.
    rewrite nth_error_list_set_eq by assumption.
    set (st1 := mkState (list_set (draws st) draw _) (rng st)).
    assert (K1 : keeps n st0 st1).
    { eapply keeps_trans; [exact K|]. intros l Hl. simpl.
      apply nth_error_list_set_neq. lia. }
    destruct (Qeq_bool _ 0); simpl; (split; [exact K1|]);
      [discriminate|].
    intros st' w v H. inversion H; subst. now apply above_list_set.
  - unfold bind, with_rng, alloc, ret.
    destruct (sampler self (rng st)) as [v r]. simpl. split.
    + eapply keeps_trans; [exact K|]. apply keeps_alloc.
      destruct A as [An _]. exact An.
    + intros st' w v' H. inversion H; subst.
      apply (alloc_above n _ (mkState (draws st) r) world name A).
Qed.

Lemma keeps_model_frame {Out} (model : Model Out) :
  (forall world tick st,
      keeps (List.length (draws st)) st (fst (model world tick st))) ->
  model_frame model.
Proof. intros H world tick st l Hl _. now apply H. Qed.

Lemma branching_model_frame : model_frame branching_model.
Proof.
  apply keeps_model_frame. intros world tick st.
  set (n := List.length (draws st)). unfold branching_model, World_copy.
  destruct (copy_items_above n world [] st st (keeps_refl n st)
              (above_nil n st (Nat.le_refl n))) as [K1 A1].
  apply keeps_bind; [exact K1|]. intros w1 s1 H1.
  rewrite (fst_run_eq _ _ _ _ H1) in K1. specialize (A1 s1 w1 H1).
  unfold church_flip.
  destruct (Choice_sample_above n (flip_choice (1 # 2)) w1 (NStr "a") tick
              s1 st K1 A1) as [K2 A2].
  apply keeps_bind; [exact K2|]. intros [w2 A] s2 H2.
  rewrite (fst_run_eq _ _ _ _ H2) in K2. specialize (A2 s2 w2 A H2).
  destruct (truthy A); [|exact K2].
  destruct (Choice_sample_above n (flip_choice (1 # 2)) w2 (NInt 1) tick
              s2 st K2 A2) as [K3 A3].
  apply keeps_bind; [exact K3|]. intros [w3 B] s3 H3.
  now rewrite (fst_run_eq _ _ _ _ H3) in K3.
Qed.

(** ** A chain that never fails: [flip_model] under the condition "true" *)

Lemma flip_score_nonzero p v : ~ scorer (flip_choice p) v == 0.
Proof. simpl. destruct (truthy v); intro H; discriminate H. Qed.

Lemma Qmult_nonzero (a b : Q) : ~ a == 0 -> ~ b == 0 -> ~ a * b == 0.
Proof.
  intros Ha Hb H. apply Qmult_integral in H. tauto.
Qed.

Lemma wf_singleton st (name : Name) (l : loc) :
  (l < List.length (draws st))%nat -> wf_world st [(name, l)].
Proof.
  intro H. split.
  - constructor; [intros [] | constructor].
  - intros n l' [E | []]. inversion E; subst. exact H.
Qed.

Lemma draws_of_singleton st (name : Name) (l : loc) d :
  nth_error (draws st) l = Some d -> draws_of st [(name, l)] = [d].
Proof. intro H. unfold draws_of. simpl. now rewrite H. Qed.

Lemma list_set_app_length {A} (xs : list A) x t y :
  list_set (xs ++ x :: t) (List.length xs) y = xs ++ y :: t.
Proof. induction xs as [|h xs IH]; simpl; [reflexivity | now rewrite IH]. Qed.

Lemma flip_model_run (l : loc) (d : Draw) (tick : Z) (st : State) :
  nth_error (draws st) l = Some d ->
  flip_model [(NStr "a", l)] tick st
  = (mkState (draws st
              ++ [mkDraw (value d) (flip_choice (1 # 2)) tick
                         (tick_created (Draw_copy d)) (fixed d)])
             (rng st),
     Returns ([(NStr "a", List.length (draws st))], truthy (value d))).
Proof.
  intro Hd. unfold flip_model.
  pose proof (nth_error_in_range _ _ _ Hd) as Hlt.
  rewrite (bind_Returns _ _ _ _ _
             (World_copy_run _ st (wf_singleton st (NStr "a") l Hlt))).
  rewrite (draws_of_singleton st _ l d Hd). simpl map. simpl combine.
  set (st1 := mkState (draws st ++ [Draw_copy d]) (rng st)).
  assert (Hn : nth_error (draws st1) (List.length (draws st))
               = Some (Draw_copy d))
    by apply nth_error_app_length.
  pose proof (Choice_sample_present (flip_choice (1 # 2))
                [(NStr "a", List.length (draws st))] (NStr "a") tick st1
                (List.length (draws st)) (Draw_copy d) eq_refl Hn) as Hs.
  destruct (Qeq_bool _ 0) eqn:B in Hs.
  { apply Qeq_bool_iff in B. now apply flip_score_nonzero in B. }
  unfold church_flip. rewrite (bind_Returns _ _ _ _ _ Hs).
  unfold ret. simpl. now rewrite list_set_app_length.
Qed.

Lemma flip_model_frame : model_frame flip_model.
Proof.
  apply keeps_model_frame. intros world tick st.
  set (n := List.length (draws st)). unfold flip_model, World_copy.
  destruct (copy_items_above n world [] st st (keeps_refl n st)
              (above_nil n st (Nat.le_refl n))) as [K1 A1].
  apply keeps_bind; [exact K1|]. intros w1 s1 H1.
  rewrite (fst_run_eq _ _ _ _ H1) in K1. specialize (A1 s1 w1 H1).
  unfold church_flip.
  destruct (Choice_sample_above n (flip_choice (1 # 2)) w1 (NStr "a") tick
              s1 st K1 A1) as [K2 A2].
  apply keeps_bind; [exact K2|]. intros [w2 A] s2 H2.
  now rewrite (fst_run_eq _ _ _ _ H2) in K2.
Qed.

(** from a state of [flip_inv], a transition returns in a state of [flip_inv] *)
Lemma flip_transition_returns :
  forall i j s st,
    flip_inv st s ->
    exists st' s',
      transition flip_model (fun _ => true) i j (fst s) (snd s) st
      = (st', Returns s') /\
      flip_inv st' s'.
Proof.
  intros i j [w b] st (l & d & Hw & Hd & Hf & Hc). simpl in Hw. subst w.
  simpl fst. simpl snd. set (tick := i * j).
  pose proof (nth_error_in_range _ _ _ Hd) as Hlt.
  pose proof (wf_singleton st (NStr "a") l Hlt) as Hwf.
  assert (Hnf : filter (not_fixed st) (World_values [(NStr "a", l)]) = [l]).
  { simpl. unfold not_fixed. now rewrite Hd, Hf. }
  destruct (World_propose_run [(NStr "a", l)] flip_model tick st Hwf
              ltac:(rewrite Hnf; discriminate))
    as (proposal & st1 & pre & draw & st2 & d0 & v0 & st3
        & Hcopy & Hpre & Hlen & Hpick & Hd0 & Hres & Hd3 & Hrest).
  set (n := List.length (draws st)) in *.
  (* the copy *)
  rewrite (World_copy_run _ st Hwf) in Hcopy.
  rewrite (draws_of_singleton st _ l d Hd) in Hcopy. simpl in Hcopy.
  inversion Hcopy; subst proposal st1. clear Hcopy. fold n in Hpre, Hpick.
  (* the pick *)
  apply proposable_inv in Hpre. destruct Hpre as [_ Hpre].
  rewrite Hnf in Hlen.
  assert (pre = [n]).
  { destruct pre as [|x [|y pre]]; try discriminate.
    destruct (Hpre x (or_introl eq_refl)) as [E | []]. now subst. }
  subst pre. clear Hpre Hlen.
  assert (draw = n).
  { apply random_choice_In in Hpick. destruct Hpick as [E | []]. now subst. }
  subst draw.
  assert (E2 : draws st2 = draws st ++ [Draw_copy d]).
  { rewrite <- (fst_run_eq _ _ _ _ Hpick). apply random_choice_draws. }
  assert (d0 = Draw_copy d).
  { rewrite E2 in Hd0. unfold n in Hd0. rewrite nth_error_app_length in Hd0.
    congruence. }
  subst d0.
  (* the model *)
  pose proof (flip_model_run n _ tick st3 Hd3) as Hmodel.
  simpl value in Hmodel. simpl fixed in Hmodel.
  set (c := mkDraw v0 (flip_choice (1 # 2)) tick _ (fixed d)) in Hmodel.
  set (n3 := List.length (draws st3)) in *.
  set (st4 := mkState (draws st3 ++ [c]) (rng st3)) in *.
  assert (Hn3 : nth_error (draws st4) n3 = Some c)
    by apply nth_error_app_length.
  assert (Hwf4 : wf_world st4 [(NStr "a", n3)]).
  { apply wf_singleton. simpl. rewrite length_app. simpl. lia. }
  assert (Hstale : stale st4 tick (NStr "a", n3) = false).
  { unfold stale. simpl snd. rewrite Hn3. simpl.
    rewrite Z.eqb_refl. apply andb_false_r. }
  assert (Hnf4 : not_fixed st4 n3 = true).
  { unfold not_fixed. rewrite Hn3. simpl. now rewrite Hf. }
  specialize (Hrest st4 [(NStr "a", n3)] (truthy v0) Hmodel Hwf4).
  simpl in Hrest. rewrite Hstale in Hrest. simpl in Hrest.
  rewrite Hnf4 in Hrest.
  destruct (Hrest ltac:(discriminate)) as (bw & fw & Hrun & _ & Hfw).
  clear Hrest.
  (* the scores *)
  assert (Hl4 : nth_error (draws st4) l = Some d).
  { pose proof (World_propose_keeps [(NStr "a", l)] flip_model tick st Hwf
                  flip_model_frame l Hlt) as K.
    rewrite Hrun in K. simpl fst in K. now rewrite K. }
  assert (Hsw : ~ product (map Draw_score (draws_of st4 [(NStr "a", l)])) == 0).
  { rewrite (draws_of_singleton st4 _ l d Hl4). unfold product. simpl.
    apply Qmult_nonzero; [discriminate|].
    unfold Draw_score. rewrite Hc. apply flip_score_nonzero. }
  assert (Hfw0 : ~ fw == 0).
  { rewrite Hfw. apply Qmult_nonzero; [apply Qmult_nonzero|].
    - discriminate.
    - unfold Draw_score. simpl. rewrite Hc. apply flip_score_nonzero.
    - destruct (created st4 tick (NStr "a", n3)).
      + rewrite (draws_of_singleton st4 _ n3 c Hn3). unfold product. simpl.
        apply Qmult_nonzero; [discriminate|]. apply flip_score_nonzero.
      + discriminate. }
  (* the transition *)
  unfold transition, try_except_else. fold tick. rewrite Hrun.
  rewrite (bind_Returns _ _ _ _ _
             (World_score_run [(NStr "a", n3)] st4 (proj2 Hwf4))).
  assert (Hin4 : in_store st4 [(NStr "a", l)]).
  { intros k l' [E | []]. inversion E; subst.
    apply (nth_error_in_range _ _ _ Hl4). }
  rewrite (bind_Returns _ _ _ _ _ (World_score_run [(NStr "a", l)] st4 Hin4)).
  rewrite (bind_Returns _ _ _ _ _ (py_div_run _ _ st4 Hsw)).
  rewrite (bind_Returns _ _ _ _ _ (py_div_run bw fw st4 Hfw0)).
  cbv zeta.
  assert (Hkeep : flip_inv st4 ([(NStr "a", l)], b)).
  { exists l, d. repeat split; assumption. }
  assert (Hnew : flip_inv st4 ([(NStr "a", n3)], truthy v0)).
  { exists n3, c. repeat split; assumption. }
  destruct (Qle_bool 1 _).
  - exists st4, ([(NStr "a", n3)], truthy v0). split; [reflexivity | exact Hnew].
  - unfold bind, flip, with_rng.
    destruct (flip_rng _ (rng st4)) as [f r].
    exists (mkState (draws st4) r).
    destruct f; eexists; (split; [reflexivity|]).
    + destruct Hnew as (l' & d' & H1 & H2 & H3 & H4). now exists l', d'.
    + destruct Hkeep as (l' & d' & H1 & H2 & H3 & H4). now exists l', d'.
Qed.

(** ** Concrete runs *)

Lemma world_a_wf np py : wf_world (store_a np py) world_a.
Proof. solve_wf. Defined.

Lemma world_abc_wf : wf_world store_abc world_abc.
Proof. solve_wf. Defined.

(** [Choice.sample] on the stored "a": the Draw is rebound to tick 3 and its
    value returned; on a Draw whose value 3 lies outside the new support 0..1
    it raises. *)
Lemma Choice_sample_spec_witness :
  Choice_sample (flip_choice (1 # 2)) world_a (NStr "a") 3 (store_a [] [])
  = (mkState [mkDraw (VBool false) (flip_choice (1 # 2)) 3 (-1) false]
             (mkRNG [] []),
     Returns (world_a, VBool false)) /\
  forall np_randint,
    Choice_sample (integer_choice np_randint 0 2) world_a (NStr "a") 3
      (mkState [mkDraw (VInt 3) (integer_choice np_randint 0 4) 2 2 false]
               (mkRNG [] []))
    = (mkState [mkDraw (VInt 3) (integer_choice np_randint 0 2) 3 2 false]
               (mkRNG [] []),
       Raises ZeroProbabilityException).
Proof.
  split.
  - destruct (Choice_sample_spec (flip_choice (1 # 2)) world_a (NStr "a") 3
                (store_a [] [])) as [Hpresent _].
    destruct (Hpresent 0%nat _ eq_refl eq_refl) as [_ Hret].
    apply Hret. intro H. discriminate H.
  - intro np_randint.
    destruct (Choice_sample_spec (integer_choice np_randint 0 2) world_a
                (NStr "a") 3
                (mkState [mkDraw (VInt 3) (integer_choice np_randint 0 4) 2 2
                                 false] (mkRNG [] []))) as [Hpresent _].
    destruct (Hpresent 0%nat _ eq_refl eq_refl) as [Hraise _].
    apply Hraise. reflexivity.
Defined.

(** [World.clean] at tick 5 keeps "a" and "b", removes "c", and returns the
    score of "b" and the score of "c". *)
Lemma World_clean_spec_witness :
  wf_world store_abc world_abc /\
  exists inc_fw inc_bw,
    World_clean world_abc 5 store_abc
    = (store_abc,
       Returns ([(NStr "a", 0%nat); (NStr "b", 1%nat)], (inc_fw, inc_bw))) /\
    inc_fw == 1 # 3 /\ inc_bw == 2 # 3.
Proof.
  split; [exact world_abc_wf|].
  destruct (World_clean_spec world_abc 5 store_abc world_abc_wf)
    as [inc_fw [inc_bw [Hrun [_ [_ [Hfw Hbw]]]]]].
  exists inc_fw, inc_bw. split; [exact Hrun|]. split.
  - rewrite Hfw. reflexivity.
  - rewrite Hbw. reflexivity.
Defined.

(** the first run of the model comes up (false, false), the second
    (true, false): [single_rejection] with the condition "A" returns the
    projection "B" of the second run *)
Lemma single_rejection_condition_witness :
  exists st' st0 world (v : bool * bool),
    single_rejection 3 branching_model fst snd (empty_store [1; 0; 1]%Q [])
    = (st', Returns false) /\
    branching_model [] (-1) st0 = (st', Returns (world, v)) /\
    fst v = true /\ false = snd v.
Proof.
  eassert (Hrun : single_rejection 3 branching_model fst snd
                    (empty_store [1; 0; 1]%Q []) = (_, Returns false))
    by (vm_compute; reflexivity).
  destruct (single_rejection_condition 3 branching_model fst snd
              (empty_store [1; 0; 1]%Q []) _ false Hrun)
    as (st0 & world & v & Hmodel & Hcond & Hquery).
  eexists. exists st0, world, v. split; [exact Hrun|]. now split.
Defined.

Lemma flip_model_returns fuel :
  forall s, exists s' r,
    single_rejection fuel flip_model (fun _ => true) (fun b => b) s
    = (s', Returns r).
Proof.
  intro s. destruct s as [ds [np py]].
  destruct fuel; destruct np as [|u np]; do 2 eexists; reflexivity.
Defined.

(** 205 samples: two batches of 100 and one of 5 *)
Lemma rejection_spec_witness :
  0 <= 205 /\
  exists st' samples,
    rejection 1 flip_model (fun _ => true) (fun b => b) 205 (empty_store [] [])
    = (st', Returns samples) /\
    List.length samples = 205%nat.
Proof.
  split; [lia|].
  destruct (rejection_spec 1 flip_model (fun _ => true) (fun b => b) 205
              (empty_store [] []) ltac:(lia)) as [_ [_ Hreturns]].
  exact (Hreturns (flip_model_returns 1)).
Defined.

(** C1, as claimed, fails: "a" came up false and is the only Draw; it is
    resampled to true, so the model also flips 1, and the cleaned world has two
    proposable Draws where the world before had one.  [bw] is divided by the
    count after cleaning, not by the count before resampling, and [fw] by the
    count before resampling, not by the count after cleaning. *)
Lemma World_propose_claimed_weights_fail :
  exists proposal st1 pre draw st2 d v st3 st4 new_world new_value
         cleaned inc_fw inc_bw post bw fw,
    World_copy world_a (store_a [0%Q] []) = (st1, Returns proposal) /\
    proposable (World_values proposal) st1 = (st1, Returns pre) /\
    random_choice pre st1 = (st2, Returns draw) /\
    nth_error (draws st2) draw = Some d /\
    Draw_resample draw st2 = (st3, Returns tt) /\
    nth_error (draws st3) draw = Some (set_value v d) /\
    branching_model proposal 1 st3 = (st4, Returns (new_world, new_value)) /\
    World_clean new_world 1 st4 = (st4, Returns (cleaned, (inc_fw, inc_bw))) /\
    proposable (World_values cleaned) st4 = (st4, Returns post) /\
    World_propose world_a branching_model 1 (store_a [0%Q] [])
    = (st4, Returns (cleaned, new_value, bw, fw)) /\
    List.length pre = 1%nat /\ List.length post = 2%nat /\
    ~ bw == (1 / len pre) * Draw_score d * inc_bw /\
    ~ fw == (1 / len post) * Draw_score (set_value v d) * inc_fw.
Proof.
  do 17 eexists.
  repeat match goal with |- _ /\ _ => split end;
    try (cbv; reflexivity).
  - cbv. intro H. discriminate H.
  - cbv. intro H. discriminate H.
Qed.

(** the same run, through the theorem: [bw = (1/2) * (2/3) * 1] and
    [fw = (1/1) * (1/3) * (1/3)] *)
Lemma World_propose_weights_witness :
  wf_world (store_a [0%Q] []) world_a /\
  filter (not_fixed (store_a [0%Q] [])) (World_values world_a) <> [] /\
  exists st4 kept new_value bw fw,
    World_propose world_a branching_model 1 (store_a [0%Q] [])
    = (st4, Returns (kept, new_value, bw, fw)) /\
    List.length (World_values kept) = 2%nat /\
    bw == (1 # 2) * (2 # 3) * 1 /\
    fw == (1 # 1) * (1 # 3) * (1 # 3).
Proof.
  split; [apply world_a_wf|]. split; [discriminate|].
  destruct (World_propose_weights world_a branching_model 1
              (store_a [0%Q] []) (world_a_wf _ _) ltac:(discriminate))
    as (proposal & st1 & pre & draw & st2 & d & v & st3
        & Hcopy & Hpre & Hlen & Hpick & Hd & Hres & Hd3 & Hrest).
  cbv in Hcopy. inversion Hcopy; subst st1 proposal. clear Hcopy.
  cbv in Hpre. inversion Hpre; subst pre. clear Hpre.
  cbv in Hpick. inversion Hpick; subst st2 draw. clear Hpick.
  cbv in Hd. inversion Hd; subst d. clear Hd.
  cbv in Hres. inversion Hres; subst st3. clear Hres.
  cbv in Hd3. inversion Hd3; subst v. clear Hd3.
  edestruct Hrest as (bw & fw & Hrun & Hbw & Hfw).
  - cbv. reflexivity.
  - solve_wf.
  - cbv. discriminate.
  - do 3 eexists. exists bw, fw.
    split; [exact Hrun|]. split; [reflexivity|]. split.
    + rewrite Hbw. reflexivity.
    + rewrite Hfw. reflexivity.
Defined.

(** the proposal of that run leaves the Draw of the retained world as it was *)
Lemma World_copy_independent_witness :
  wf_world (store_a [0%Q] []) world_a /\
  nth_error
    (draws (fst (World_propose world_a branching_model 1 (store_a [0%Q] []))))
    0
  = nth_error (draws (store_a [0%Q] [])) 0 /\
  exists proposal st1,
    World_copy world_a (store_a [0%Q] []) = (st1, Returns proposal) /\
    forall l d',
      In l (World_values proposal) ->
      nth_error (draws (fst (store l d' st1))) 0
      = nth_error (draws (store_a [0%Q] [])) 0.
Proof.
  split; [apply world_a_wf|].
  destruct (World_copy_independent (Out := bool * bool) world_a
              (store_a [0%Q] []) (world_a_wf _ _))
    as (proposal & st1 & Hcopy & _ & _ & Hwrite & Hpropose).
  split.
  - apply (Hpropose branching_model 1 branching_model_frame 0%nat).
    simpl. lia.
  - exists proposal, st1. split; [exact Hcopy|].
    intros l d' Hl. apply Hwrite; [exact Hl | now left].
Defined.

(** two rounds of two transitions of the branching model *)
Lemma mcmc_branching_run :
  snd (mcmc 3 branching_model (fun _ => true) fst 2 2
            (empty_store [1; 0; 1; 0; 1; 0]%Q []))
  = Returns [false; true].
Proof. vm_compute. reflexivity. Qed.

(** [mcmc(..., num_steps=100, num_samples=10)] on the flip model returns
    exactly 10 outputs *)
Lemma mcmc_spec_witness :
  exists st' samples,
    mcmc 0 flip_model (fun _ => true) (fun b => b) 100 10 (empty_store [] [])
    = (st', Returns samples) /\
    List.length samples = Z.to_nat 10.
Proof.
  destruct (mcmc_spec 0 flip_model (fun _ => true) (fun b => b) 100 10
              (empty_store [] [])) as [_ [_ Hreturns]].
  eapply (Hreturns flip_inv _ _ flip_transition_returns).
  - reflexivity.
  - exists 0%nat. eexists. repeat split; reflexivity.
Defined.

(** C2, at the failing input: every transition of round 0 and every first
    transition of a round runs [World.propose] at the same tick, 0, and so do
    the transitions (1, 2) and (2, 1), at tick 2; a run of three rounds of one
    step runs the model at tick 0 in all three transitions. *)
Theorem mcmc_ticks_collide :
  (forall Out (model : Model Out) condition j world value st,
      transition model condition 0 j world value st
      = transition model condition 0 0 world value st) /\
  (forall Out (model : Model Out) condition i world value st,
      transition model condition i 0 world value st
      = transition model condition 0 0 world value st) /\
  (forall Out (model : Model Out) condition world value st,
      transition model condition 1 2 world value st
      = transition model condition 2 1 world value st) /\
  snd (mcmc 3 tick_probe (fun _ => true) (fun t => t) 1 3 (empty_store [] []))
  = Returns [0; 0; 0].
Proof.
  split; [|split; [|split]].
  - reflexivity.
  - intros. unfold transition. now rewrite Z.mul_0_r.
  - reflexivity.
  - vm_compute. reflexivity.
Qed.

(** a Draw created by [Choice.sample] at tick 0 and revisited at tick 1 is
    copied by [World.copy] to a Draw created at tick 1 *)
Lemma World_copy_changes_tick_created :
  let run :=
    '(world, _) <- church_flip [] (NStr "a") 0 (1 # 2) ;;
    '(world, _) <- church_flip world (NStr "a") 1 (1 # 2) ;;
    World_copy world in
  map (fun d => (tick_touched d, tick_created d))
      (draws (fst (run (empty_store [] []))))
  = [(1, 0); (1, 1)].
Proof. vm_compute. reflexivity. Qed.

(** * Further properties *)

(** ** World.score *)

Lemma fold_left_Qmult_zero (ss : list Q) (a : Q) :
  fold_left Qmult ss a == 0 <-> a == 0 \/ exists s, In s ss /\ s == 0.
Proof.
  revert a. induction ss as [|s ss IH]; intro a; simpl.
  - split; [now left | intros [H | [s [[] _]]]; exact H].
  - rewrite IH. split.
    + intros [H | [x [Hin Hx]]].
      * apply Qmult_integral in H. destruct H as [H | H]; [now left|].
        right. exists s. split; [now left | exact H].
      * right. exists x. split; [now right | exact Hx].
    + intros [H | [x [[E | Hin] Hx]]].
      * left. rewrite H. apply Qmult_0_l.
      * subst x. left. rewrite Hx. apply Qmult_0_r.
      * right. now exists x.
Qed.

Lemma product_zero (ss : list Q) :
  product ss == 0 <-> exists s, In s ss /\ s == 0.
Proof.
  unfold product. rewrite fold_left_Qmult_zero. split.
  - intros [H | H]; [discriminate H | exact H].
  - intro H. now right.
Qed.



(** ** World.copy *)

Lemma draws_of_combine_seq (names : list Name) (ds prefix : list Draw) r :
  List.length names = List.length ds ->
  draws_of (mkState (prefix ++ ds) r)
           (combine names (seq (List.length prefix) (List.length ds)))
  = ds.
Proof.
  revert names prefix. induction ds as [|d ds IH]; intros names prefix Hlen.
  - destruct names; reflexivity.
  - destruct names as [|n names]; [discriminate|]. simpl in Hlen.
    simpl seq. simpl combine. unfold draws_of. simpl flat_map.
    rewrite nth_error_app_length. simpl. f_equal.
    specialize (IH names (prefix ++ [d]) ltac:(lia)).
    rewrite <- app_assoc, length_app in IH. simpl in IH.
    replace (List.length prefix + 1)%nat with (S (List.length prefix)) in IH
      by lia.
    exact IH.
Qed.

Lemma map_Draw_score_copy (ds : list Draw) :
  map Draw_score (map Draw_copy ds) = map Draw_score ds.
Proof. rewrite map_map. reflexivity. Qed.

Lemma World_copy_wf (self : World) (st : State) :
  wf_world st self ->
  wf_world (mkState (draws st ++ map Draw_copy (draws_of st self)) (rng st))
           (combine (map fst self)
              (seq (List.length (draws st)) (List.length self))).
Proof.
  intros [Hnd Hst]. split.
  - rewrite map_fst_combine_eq; [exact Hnd|].
    now rewrite length_map, length_seq.
  - intros n l Hin. apply in_combine_r in Hin. apply in_seq in Hin.
    simpl. rewrite length_app, length_map, length_draws_of by assumption. lia.
Qed.

(** X2: [World.copy] returns a well-formed world with the same names, in the
    same order, whose Draws are the [Draw.copy] of the Draws of the original;
    it draws no random number, and the copy scores what the original
    scores. *)
Theorem World_copy_faithful :
  forall (self : World) (st : State),
    wf_world st self ->
    exists st1 proposal,
      World_copy self st = (st1, Returns proposal) /\
      wf_world st1 proposal /\
      map fst proposal = map fst self /\
      rng st1 = rng st /\
      draws_of st1 proposal = map Draw_copy (draws_of st self) /\
      snd (World_score proposal st1) = snd (World_score self st).
Proof.
  intros self st Hwf. pose proof Hwf as [Hnd Hst].
  pose proof (World_copy_wf self st Hwf) as Hwf1.
  do 2 eexists. split; [now apply World_copy_run|].
  split; [exact Hwf1|].
  assert (Hd : draws_of
                 (mkState (draws st ++ map Draw_copy (draws_of st self))
                          (rng st))
                 (combine (map fst self)
                    (seq (List.length (draws st)) (List.length self)))
               = map Draw_copy (draws_of st self)).
  { replace (List.length self)
      with (List.length (map Draw_copy (draws_of st self)))
      by (now rewrite length_map, length_draws_of).
    apply draws_of_combine_seq.
    now rewrite !length_map, length_draws_of. }
  split; [|split; [reflexivity|split; [exact Hd|]]].
  - apply map_fst_combine_eq. now rewrite length_map, length_seq.
  - rewrite (World_score_run _ _ (proj2 Hwf1)), (World_score_run _ _ Hst).
    simpl. now rewrite Hd, map_Draw_score_copy.
Qed.

Lemma World_copy_faithful_witness :
  wf_world store_abc world_abc /\
  exists st1 proposal,
    World_copy world_abc store_abc = (st1, Returns proposal) /\
    map fst proposal = [NStr "a"; NStr "b"; NStr "c"] /\
    snd (World_score proposal st1) = snd (World_score world_abc store_abc).
Proof.
  split; [apply world_abc_wf|].
  destruct (World_copy_faithful world_abc store_abc world_abc_wf)
    as (st1 & proposal & Hrun & _ & Hnames & _ & _ & Hscore).
  now exists st1, proposal.
Defined.

(** ** Choice.sample and Choice.set, composed *)

Lemma dict_get_app_absent (name : Name) (l : loc) (w : World) :
  dict_get name w = None -> dict_get name (w ++ [(name, l)]) = Some l.
Proof.
  unfold dict_get. induction w as [|[n l0] w IH]; simpl.
  - now rewrite Name_eqb_refl.
  - destruct (Name_eqb n name); [discriminate | exact IH].
Qed.

Lemma dict_get_app_other (n name : Name) (l : loc) (w : World) :
  n <> name -> dict_get n (w ++ [(name, l)]) = dict_get n w.
Proof.
  intro Hne. unfold dict_get. induction w as [|[n0 l0] w IH]; simpl.
  - apply Name_eqb_neq in Hne.
    destruct (Name_eqb name n) eqn:E; [|reflexivity].
    apply Name_eqb_eq in E. subst. now rewrite Name_eqb_refl in Hne.
  - destruct (Name_eqb n0 n); [reflexivity | exact IH].
Qed.

Lemma Choice_sample_stuck self world name tick st draw :
  dict_get name world = Some draw ->
  nth_error (draws st) draw = None ->
  Choice_sample self world name tick st = (st, Stuck).
Proof.
  intros Hget Hd. unfold Choice_sample. rewrite Hget.
  cbv [bind assign load]. now rewrite Hd.
Qed.

Lemma Choice_set_stuck self world name tick fixed_val st draw :
  dict_get name world = Some draw ->
  nth_error (draws st) draw = None ->
  Choice_set self world name tick fixed_val st = (st, Stuck).
Proof.
  intros Hget Hd. unfold Choice_set. rewrite Hget.
  cbv [bind assign load]. now rewrite Hd.
Qed.

(** what a call of [Choice.sample] that returns leaves behind *)
Lemma Choice_sample_returns_inv self world name tick st st1 w1 v :
  Choice_sample self world name tick st = (st1, Returns (w1, v)) ->
  exists l d,
    dict_get name w1 = Some l /\
    nth_error (draws st1) l = Some d /\
    value d = v /\ choice d = self /\ tick_touched d = tick.
Proof.
  intro H. destruct (dict_get name world) as [l|] eqn:G.
  - destruct (nth_error (draws st) l) as [d|] eqn:Ed.
    + rewrite (Choice_sample_present _ _ _ _ _ _ _ G Ed) in H.
      destruct (Qeq_bool _ 0); inversion H; subst.
      exists l. eexists. split; [exact G|]. split.
      * simpl. apply nth_error_list_set_eq. eapply nth_error_in_range; eauto.
      * now repeat split.
    + rewrite (Choice_sample_stuck _ _ _ _ _ _ G Ed) in H. discriminate.
  - destruct (sampler self (rng st)) as [v0 r] eqn:Es.
    rewrite (Choice_sample_absent _ _ _ _ _ _ _ G Es) in H.
    inversion H; subst. exists (List.length (draws st)). eexists.
    split; [now apply dict_get_app_absent|]. split.
    + simpl. apply nth_error_app_length.
    + now repeat split.
Qed.

(** what a call of [Choice.set] that returns leaves behind *)
Lemma Choice_set_returns_inv self world name tick fixed_val st st1 w1 v :
  Choice_set self world name tick fixed_val st = (st1, Returns (w1, v)) ->
  v = fixed_val /\
  exists l d,
    dict_get name w1 = Some l /\
    nth_error (draws st1) l = Some d /\
    value d = fixed_val /\ choice d = self /\ tick_touched d = tick /\
    fixed d = true.
Proof.
  intro H. destruct (dict_get name world) as [l|] eqn:G.
  - destruct (nth_error (draws st) l) as [d|] eqn:Ed.
    + rewrite (Choice_set_present _ _ _ _ _ _ _ _ G Ed) in H.
      destruct (Qeq_bool _ 0); inversion H; subst.
      split; [reflexivity|].
      exists l. eexists. split; [exact G|]. split.
      * simpl. apply nth_error_list_set_eq. eapply nth_error_in_range; eauto.
      * now repeat split.
    + rewrite (Choice_set_stuck _ _ _ _ _ _ _ G Ed) in H. discriminate.
  - rewrite (Choice_set_absent _ _ _ _ _ _ G) in H.
    inversion H; subst. split; [reflexivity|].
    exists (List.length (draws st)). eexists.
    split; [now apply dict_get_app_absent|]. split.
    + simpl. apply nth_error_app_length.
    + now repeat split.
Qed.

(** a revisit of a Draw whose value scores above 0 *)
Lemma Choice_sample_revisit self' w1 name tick' st1 l d :
  dict_get name w1 = Some l ->
  nth_error (draws st1) l = Some d ->
  ~ scorer self' (value d) == 0 ->
  Choice_sample self' w1 name tick' st1
  = (mkState (list_set (draws st1) l
                (mkDraw (value d) self' tick' (tick_created d) (fixed d)))
             (rng st1),
     Returns (w1, value d)).
Proof.
  intros G Ed Hs. rewrite (Choice_sample_present _ _ _ _ _ _ _ G Ed).
  destruct (Qeq_bool _ 0) eqn:B; [|reflexivity].
  apply Qeq_bool_iff in B. contradiction.
Qed.

(** X3: a value returned by [Choice.sample] is replayed: a later
    [Choice.sample] on the same name, with any choice under which the value
    does not score 0 and at any tick, returns the same value, draws no random
    number, creates no Draw and leaves the dict as it is; it rebinds the choice
    and [tick_touched] and keeps [tick_created] and [fixed]. *)
Theorem Choice_sample_replay :
  forall self self' world name tick tick' st st1 w1 v,
    Choice_sample self world name tick st = (st1, Returns (w1, v)) ->
    ~ scorer self' v == 0 ->
    exists l d,
      dict_get name w1 = Some l /\
      nth_error (draws st1) l = Some d /\
      Choice_sample self' w1 name tick' st1
      = (mkState (list_set (draws st1) l
                    (mkDraw v self' tick' (tick_created d) (fixed d)))
                 (rng st1),
         Returns (w1, v)).
Proof.
  intros self self' world name tick tick' st st1 w1 v H Hs.
  destruct (Choice_sample_returns_inv _ _ _ _ _ _ _ _ H)
    as (l & d & G & Ed & Hv & _ & _).
  exists l, d. split; [exact G|]. split; [exact Ed|]. subst v.
  now apply Choice_sample_revisit.
Qed.

(** X4: a value fixed by [Choice.set] is what a later [Choice.sample] on the
    same name returns, when it does not score 0 under the later choice, and
    the Draw stays fixed: [Choice.sample] never clears [fixed]. *)
Theorem Choice_set_then_sample :
  forall self self' world name tick tick' fixed_val st st1 w1 v,
    Choice_set self world name tick fixed_val st = (st1, Returns (w1, v)) ->
    ~ scorer self' fixed_val == 0 ->
    v = fixed_val /\
    exists st2 l d,
      Choice_sample self' w1 name tick' st1 = (st2, Returns (w1, fixed_val)) /\
      dict_get name w1 = Some l /\
      nth_error (draws st2) l = Some d /\
      value d = fixed_val /\ fixed d = true.
Proof.
  intros self self' world name tick tick' fixed_val st st1 w1 v H Hs.
  destruct (Choice_set_returns_inv _ _ _ _ _ _ _ _ _ H)
    as (Hv & l & d & G & Ed & Hval & _ & _ & Hf).
  split; [exact Hv|].
  rewrite <- Hval in Hs.
  pose proof (Choice_sample_revisit self' w1 name tick' st1 l d G Ed Hs) as R.
  rewrite Hval in R.
  eexists. exists l. eexists. split; [exact R|]. split; [exact G|].
  split; [|split].
  - simpl. apply nth_error_list_set_eq. eapply nth_error_in_range; eauto.
  - reflexivity.
  - exact Hf.
Qed.

Lemma Choice_sample_replay_witness :
  exists st1 w1 v,
    Choice_sample (flip_choice (1 # 2)) [] (NStr "a") 0 (empty_store [] [])
    = (st1, Returns (w1, v)) /\
    snd (Choice_sample (flip_choice (1 # 3)) w1 (NStr "a") 7 st1)
    = Returns (w1, v).
Proof.
  eassert (H : Choice_sample (flip_choice (1 # 2)) [] (NStr "a") 0
                 (empty_store [] []) = (_, Returns (_, _))) by reflexivity.
  destruct (Choice_sample_replay _ (flip_choice (1 # 3)) _ _ _ 7 _ _ _ _ H
              (flip_score_nonzero _ _)) as (l & d & _ & _ & R).
  do 3 eexists. split; [exact H|]. rewrite R. reflexivity.
Defined.

Lemma Choice_set_then_sample_witness :
  exists st1 w1,
    Choice_set (flip_choice (1 # 2)) world_a (NStr "a") 4 (VBool true)
      (store_a [] [])
    = (st1, Returns (w1, VBool true)) /\
    snd (Choice_sample (flip_choice (1 # 3)) w1 (NStr "a") 7 st1)
    = Returns (w1, VBool true).
Proof.
  eassert (H : Choice_set (flip_choice (1 # 2)) world_a (NStr "a") 4
                 (VBool true) (store_a [] []) = (_, Returns (_, _)))
    by reflexivity.
  destruct (Choice_set_then_sample _ (flip_choice (1 # 3)) _ _ _ 7 _ _ _ _ _ H
              (flip_score_nonzero _ _)) as (_ & st2 & l & d & R & _).
  do 2 eexists. split; [exact H|]. rewrite R. reflexivity.
Defined.

(** X5: on a name that is present, [Choice.set] overwrites the value, the
    choice and [tick_touched] of the Draw, marks it fixed and keeps
    [tick_created]; it raises [ZeroProbabilityException] exactly when the
    assigned value scores 0, and the Draw keeps the assigned value and the
    fixed mark also when it raises. *)
Theorem Choice_set_revisit :
  forall (self : Choice) (world : World) (name : Name) (tick : Z)
         (fixed_val : Value) (st : State) draw d,
    dict_get name world = Some draw ->
    nth_error (draws st) draw = Some d ->
    let st' :=
      mkState (list_set (draws st) draw
                 (mkDraw fixed_val self tick (tick_created d) true))
              (rng st) in
    (scorer self fixed_val == 0 ->
     Choice_set self world name tick fixed_val st
     = (st', Raises ZeroProbabilityException)) /\
    (~ scorer self fixed_val == 0 ->
     Choice_set self world name tick fixed_val st
     = (st', Returns (world, fixed_val))).
Proof.
  intros self world name tick fixed_val st draw d G Ed st'. subst st'.
  rewrite (Choice_set_present _ _ _ _ _ _ _ _ G Ed). split; intro Hs.
  - apply Qeq_bool_iff in Hs. now rewrite Hs.
  - destruct (Qeq_bool _ 0) eqn:B; [|reflexivity].
    apply Qeq_bool_iff in B. contradiction.
Qed.

Lemma Choice_set_revisit_witness :
  let c := integer_choice (fun low _ r => (VInt low, r)) 0 2 in
  Choice_set c world_a (NStr "a") 3 (VInt 5) (store_a [] [])
  = (mkState [mkDraw (VInt 5) c 3 (-1) true] (mkRNG [] []),
     Raises ZeroProbabilityException).
Proof.
  intro c.
  destruct (Choice_set_revisit c world_a (NStr "a") 3 (VInt 5)
              (store_a [] []) 0%nat _ eq_refl eq_refl) as [Hraise _].
  apply Hraise. reflexivity.
Defined.

(** ** Choice.sample and Choice.set write one Draw *)

Lemma wf_world_list_set st (w : World) l d :
  wf_world st w -> wf_world (mkState (list_set (draws st) l d) (rng st)) w.
Proof.
  intros [Hnd Hst]. split; [exact Hnd|]. intros n l' Hin. simpl.
  rewrite length_list_set. eapply Hst; eauto.
Qed.

Lemma wf_world_alloc st (w : World) name d r :
  wf_world st w -> dict_get name w = None ->
  wf_world (mkState (draws st ++ [d]) r)
           (w ++ [(name, List.length (draws st))]).
Proof.
  intros [Hnd Hst] G. split.
  - rewrite map_app. simpl. apply dict_get_None in G.
    clear Hst. induction w as [|[n l] w IH]; simpl in *.
    + constructor; [intros [] | constructor].
    + inversion Hnd as [|? ? Hnot Hnd']; subst. constructor.
      * rewrite in_app_iff. simpl. intros [H | [H | []]]; [now apply Hnot|].
        subst. apply G. now left.
      * apply IH; [exact Hnd'|]. intro H. apply G. now right.
  - intros n l Hin. simpl. rewrite length_app. simpl.
    apply in_app_iff in Hin. destruct Hin as [Hin | [E | []]].
    + specialize (Hst n l Hin). lia.
    + inversion E; subst. lia.
Qed.

Lemma Choice_sample_writes self world name tick st l :
  (l < List.length (draws st))%nat ->
  dict_get name world <> Some l ->
  nth_error (draws (fst (Choice_sample self world name tick st))) l
  = nth_error (draws st) l.
Proof.
  intros Hl Hne. destruct (dict_get name world) as [l0|] eqn:G.
  - destruct (nth_error (draws st) l0) as [d|] eqn:Ed.
    + rewrite (Choice_sample_present _ _ _ _ _ _ _ G Ed). simpl.
      apply nth_error_list_set_neq. intro E. apply Hne. now rewrite E.
    + now rewrite (Choice_sample_stuck _ _ _ _ _ _ G Ed).
  - destruct (sampler self (rng st)) as [v r] eqn:Es.
    rewrite (Choice_sample_absent _ _ _ _ _ _ _ G Es). simpl.
    now apply nth_error_app1.
Qed.

Lemma Choice_set_writes self world name tick fixed_val st l :
  (l < List.length (draws st))%nat ->
  dict_get name world <> Some l ->
  nth_error (draws (fst (Choice_set self world name tick fixed_val st))) l
  = nth_error (draws st) l.
Proof.
  intros Hl Hne. destruct (dict_get name world) as [l0|] eqn:G.
  - destruct (nth_error (draws st) l0) as [d|] eqn:Ed.
    + rewrite (Choice_set_present _ _ _ _ _ _ _ _ G Ed). simpl.
      apply nth_error_list_set_neq. intro E. apply Hne. now rewrite E.
    + now rewrite (Choice_set_stuck _ _ _ _ _ _ _ G Ed).
  - rewrite (Choice_set_absent _ _ _ _ _ _ G). simpl.
    now apply nth_error_app1.
Qed.

Lemma Choice_sample_keeps_wf self world name tick st st1 w1 v :
  wf_world st world ->
  Choice_sample self world name tick st = (st1, Returns (w1, v)) ->
  wf_world st1 w1 /\
  forall n, n <> name -> dict_get n w1 = dict_get n world.
Proof.
  intros Hwf H. destruct (dict_get name world) as [l0|] eqn:G.
  - destruct (nth_error (draws st) l0) as [d|] eqn:Ed.
    + rewrite (Choice_sample_present _ _ _ _ _ _ _ G Ed) in H.
      destruct (Qeq_bool _ 0); inversion H; subst.
      split; [now apply wf_world_list_set | reflexivity].
    + rewrite (Choice_sample_stuck _ _ _ _ _ _ G Ed) in H. discriminate.
  - destruct (sampler self (rng st)) as [v0 r] eqn:Es.
    rewrite (Choice_sample_absent _ _ _ _ _ _ _ G Es) in H.
    inversion H; subst. split; [now apply wf_world_alloc|].
    intros n Hn. now apply dict_get_app_other.
Qed.

Lemma Choice_set_keeps_wf self world name tick fixed_val st st1 w1 v :
  wf_world st world ->
  Choice_set self world name tick fixed_val st = (st1, Returns (w1, v)) ->
  wf_world st1 w1 /\
  forall n, n <> name -> dict_get n w1 = dict_get n world.
Proof.
  intros Hwf H. destruct (dict_get name world) as [l0|] eqn:G.
  - destruct (nth_error (draws st) l0) as [d|] eqn:Ed.
    + rewrite (Choice_set_present _ _ _ _ _ _ _ _ G Ed) in H.
      destruct (Qeq_bool _ 0); inversion H; subst.
      split; [now apply wf_world_list_set | reflexivity].
    + rewrite (Choice_set_stuck _ _ _ _ _ _ _ G Ed) in H. discriminate.
  - rewrite (Choice_set_absent _ _ _ _ _ _ G) in H.
    inversion H; subst. split; [now apply wf_world_alloc|].
    intros n Hn. now apply dict_get_app_other.
Qed.

(** X6: [Choice.sample] and [Choice.set] write to no Draw but the one bound
    to the name, whether they return or raise; when they return from a
    well-formed world, the world they leave is well-formed (unique names, every
    Draw in the store) and binds every other name as before. *)
Theorem Choice_writes_one_Draw :
  forall self world name tick fixed_val st,
    (forall l,
        (l < List.length (draws st))%nat ->
        dict_get name world <> Some l ->
        nth_error (draws (fst (Choice_sample self world name tick st))) l
        = nth_error (draws st) l /\
        nth_error
          (draws (fst (Choice_set self world name tick fixed_val st))) l
        = nth_error (draws st) l) /\
    (wf_world st world ->
     forall st1 w1 v,
       Choice_sample self world name tick st = (st1, Returns (w1, v)) \/
       Choice_set self world name tick fixed_val st = (st1, Returns (w1, v)) ->
       wf_world st1 w1 /\
       forall n, n <> name -> dict_get n w1 = dict_get n world).
Proof.
  intros self world name tick fixed_val st. split.
  - intros l Hl Hne. split.
    + now apply Choice_sample_writes.
    + now apply Choice_set_writes.
  - intros Hwf st1 w1 v [H | H].
    + eapply Choice_sample_keeps_wf; eauto.
    + eapply Choice_set_keeps_wf; eauto.
Qed.

Lemma Choice_writes_one_Draw_witness :
  wf_world store_abc world_abc /\
  nth_error
    (draws (fst (Choice_sample (flip_choice (1 # 2)) world_abc (NStr "b") 9
                   store_abc))) 2
  = nth_error (draws store_abc) 2 /\
  forall st1 w1 v,
    Choice_set (flip_choice (1 # 2)) world_abc (NStr "d") 9 (VBool true)
      store_abc = (st1, Returns (w1, v)) ->
    wf_world st1 w1.
Proof.
  split; [apply world_abc_wf|].
  destruct (Choice_writes_one_Draw (flip_choice (1 # 2)) world_abc (NStr "b")
              9 (VBool true) store_abc) as [Hw _].
  split.
  - apply (Hw 2%nat); [simpl; lia | discriminate].
  - intros st1 w1 v H.
    destruct (Choice_writes_one_Draw (flip_choice (1 # 2)) world_abc
                (NStr "d") 9 (VBool true) store_abc) as [_ Hk].
    apply (Hk world_abc_wf st1 w1 v). now right.
Defined.

(** ** World.clean, again *)

Lemma created_not_stale st tick e :
  created st tick e = true -> stale st tick e = false.
Proof.
  unfold created, stale. destruct (nth_error (draws st) (snd e)); [|reflexivity].
  intros ->. reflexivity.
Qed.

Lemma filter_stale_kept st tick (w : World) :
  filter (stale st tick) (filter (fun e => negb (stale st tick e)) w) = [].
Proof.
  induction w as [|e w IH]; [reflexivity|]. simpl.
  destruct (stale st tick e) eqn:E; simpl; [exact IH|].
  now rewrite E.
Qed.

Lemma filter_created_kept st tick (w : World) :
  filter (created st tick) (filter (fun e => negb (stale st tick e)) w)
  = filter (created st tick) w.
Proof.
  induction w as [|e w IH]; [reflexivity|]. simpl.
  destruct (stale st tick e) eqn:E; simpl.
  - destruct (created st tick e) eqn:C; [|exact IH].
    apply created_not_stale in C. congruence.
  - now rewrite IH.
Qed.

Lemma filter_not_stale_idem st tick (w : World) :
  filter (fun e => negb (stale st tick e))
         (filter (fun e => negb (stale st tick e)) w)
  = filter (fun e => negb (stale st tick e)) w.
Proof.
  induction w as [|e w IH]; [reflexivity|]. simpl.
  destruct (stale st tick e) eqn:Es; simpl; [exact IH|].
  now rewrite Es, IH.
Qed.

Lemma NoDup_keys_filter (w : World) f :
  NoDup (map fst w) -> NoDup (map fst (filter f w)).
Proof.
  induction w as [|e w IH]; simpl; intro H; [constructor|].
  inversion H as [|? ? Hnot Hnd]; subst.
  destruct (f e); simpl; [|now apply IH].
  constructor; [|now apply IH].
  intro Hin. apply Hnot. apply in_map_iff in Hin.
  destruct Hin as [x [E Hx]]. apply filter_In in Hx. rewrite <- E.
  apply in_map. apply Hx.
Qed.

Lemma World_clean_exact (self : World) (tick : Z) (st : State) :
  wf_world st self ->
  World_clean self tick st
  = (st,
     Returns
       (filter (fun e => negb (stale st tick e)) self,
        (accumulate (map Draw_score
                       (draws_of st (filter (created st tick) self))) 1,
         accumulate (map Draw_score
                       (draws_of st (filter (stale st tick) self))) 1))).
Proof.
  intros [Hnd Hst]. unfold World_clean.
  rewrite clean_items_run by assumption.
  now rewrite pop_all_filter, stale_names_filter by assumption.
Qed.

(** X7: [World.clean] at the same tick a second time removes nothing: it
    returns the cleaned world as it is, the same [inc_fw], and [inc_bw = 1];
    the cleaned world is well-formed. *)
Theorem World_clean_idempotent :
  forall (self : World) (tick : Z) (st : State),
    wf_world st self ->
    exists kept inc_fw inc_bw,
      World_clean self tick st = (st, Returns (kept, (inc_fw, inc_bw))) /\
      wf_world st kept /\
      World_clean kept tick st = (st, Returns (kept, (inc_fw, 1%Q))).
Proof.
  intros self tick st Hwf.
  assert (Hwfk : wf_world st (filter (fun e => negb (stale st tick e)) self)).
  { destruct Hwf as [Hnd Hst]. split.
    - now apply NoDup_keys_filter.
    - now apply in_store_filter. }
  do 3 eexists. split; [now apply World_clean_exact|]. split; [exact Hwfk|].
  rewrite (World_clean_exact _ tick st Hwfk).
  rewrite filter_stale_kept, filter_created_kept.
  now rewrite filter_not_stale_idem.
Qed.

Lemma World_clean_idempotent_witness :
  wf_world store_abc world_abc /\
  exists kept inc_fw inc_bw,
    World_clean world_abc 5 store_abc
    = (store_abc, Returns (kept, (inc_fw, inc_bw))) /\
    World_clean kept 5 store_abc = (store_abc, Returns (kept, (inc_fw, 1%Q))).
Proof.
  split; [apply world_abc_wf|].
  destruct (World_clean_idempotent world_abc 5 store_abc world_abc_wf)
    as (kept & inc_fw & inc_bw & H1 & _ & H2).
  now exists kept, inc_fw, inc_bw.
Defined.

Lemma clean_items_inv items tick self a b st st' r :
  clean_items items tick self a b st = (st', Returns r) ->
  st' = st /\ in_store st items.
Proof.
  revert self a b. induction items as [|[n l] items IH]; intros self a b H.
  - simpl in H. inversion H; subst. split; [reflexivity|]. intros ? ? [].
  - simpl in H. apply bind_inv in H. destruct H as [s1 [d [Hl H]]].
    apply load_inv in Hl. destruct Hl as [-> Hd].
    assert (H' : exists self' a' b',
               clean_items items tick self' a' b' st = (st', Returns r)).
    { destruct (tick_created d =? tick); [now eauto|].
      destruct (negb (tick_touched d =? tick)); eauto. }
    destruct H' as (self' & a' & b' & H').
    apply IH in H'. destruct H' as [-> Hst]. split; [reflexivity|].
    intros n' l' [E | Hin].
    + inversion E; subst. eapply nth_error_in_range; eauto.
    + eapply Hst; eauto.
Qed.

Lemma pop_all_stale_kept st tick (w : World) n l :
  In (n, l) (pop_all (map fst (filter (stale st tick) w)) w) ->
  In (n, l) w /\ stale st tick (n, l) = false.
Proof.
  rewrite pop_all_filter. intro H. apply filter_In in H.
  destruct H as [Hin Hk]. split; [exact Hin|].
  destruct (stale st tick (n, l)) eqn:Es; [|reflexivity].
  exfalso. apply negb_true_iff in Hk.
  assert (Hex : existsb (Name_eqb (fst (n, l)))
                        (map fst (filter (stale st tick) w)) = true).
  { apply existsb_exists. exists n. split; [|apply Name_eqb_refl].
    change n with (fst (n, l)). apply in_map. apply filter_In. now split. }
  congruence.
Qed.

Lemma not_stale_ticks st tick n l :
  (l < List.length (draws st))%nat ->
  stale st tick (n, l) = false ->
  exists d, nth_error (draws st) l = Some d /\
            (tick_touched d = tick \/ tick_created d = tick).
Proof.
  intros Hl Hs. destruct (load_in_store st l Hl) as [d [Hd _]].
  exists d. split; [exact Hd|]. unfold stale in Hs. simpl in Hs.
  rewrite Hd in Hs.
  destruct (tick_created d =? tick) eqn:Ec; [right; now apply Z.eqb_eq|].
  destruct (tick_touched d =? tick) eqn:Et; [left; now apply Z.eqb_eq|].
  discriminate.
Qed.

(** X8: whenever [World.propose] returns, every Draw of the world it returns
    was touched or created at the tick of the proposal, whatever the model
    callback did. *)
Theorem World_propose_ticks {Out} :
  forall (self : World) (model : Model Out) (tick : Z) (st st' : State)
         new_world new_value bw fw,
    World_propose self model tick st
    = (st', Returns (new_world, new_value, bw, fw)) ->
    forall n l,
      In (n, l) new_world ->
      exists d, nth_error (draws st') l = Some d /\
                (tick_touched d = tick \/ tick_created d = tick).
Proof.
  intros self model tick st st' new_world new_value bw fw H n l Hin.
  unfold World_propose in H.
  apply bind_inv in H. destruct H as (s1 & proposal & _ & H).
  apply bind_inv in H. destruct H as (s2 & pre & _ & H).
  apply bind_inv in H. destruct H as (s3 & draw & _ & H).
  apply bind_inv in H. destruct H as (s4 & d0 & _ & H). cbv zeta in H.
  apply bind_inv in H. destruct H as (s5 & [] & _ & H).
  apply bind_inv in H. destruct H as (s6 & d1 & _ & H). cbv zeta in H.
  apply bind_inv in H. destruct H as (s7 & [w7 v7] & _ & H).
  apply bind_inv in H. destruct H as (s8 & [w8 [f8 b8]] & Hclean & H).
  apply bind_inv in H. destruct H as (s9 & post & Hpost & H).
  apply bind_inv in H. destruct H as (s10 & r1 & Hr1 & H). cbv zeta in H.
  apply bind_inv in H. destruct H as (s11 & r2 & Hr2 & H).
  inversion H; subst. clear H.
  apply proposable_inv in Hpost. destruct Hpost as [-> _].
  pose proof (py_div_state 1 (len post) s8) as E1. rewrite Hr1 in E1.
  simpl in E1. subst s10.
  pose proof (py_div_state 1 (len pre) s8) as E2. rewrite Hr2 in E2.
  simpl in E2. subst st'.
  unfold World_clean in Hclean. pose proof Hclean as Hc.
  apply clean_items_inv in Hc. destruct Hc as [-> Hst].
  rewrite (clean_items_run _ _ _ _ _ _ Hst) in Hclean.
  inversion Hclean; subst. clear Hclean.
  apply pop_all_stale_kept in Hin. destruct Hin as [Hin Hs].
  eapply not_stale_ticks; eauto.
Qed.

Lemma World_propose_ticks_witness :
  exists st' new_world new_value bw fw,
    World_propose world_a branching_model 1 (store_a [0%Q] [])
    = (st', Returns (new_world, new_value, bw, fw)) /\
    forall n l,
      In (n, l) new_world ->
      exists d, nth_error (draws st') l = Some d /\
                (tick_touched d = 1 \/ tick_created d = 1).
Proof.
  eassert (H : World_propose world_a branching_model 1 (store_a [0%Q] [])
               = (_, Returns (_, _, _, _))) by (vm_compute; reflexivity).
  do 5 eexists. split; [exact H|].
  exact (World_propose_ticks _ _ _ _ _ _ _ _ _ H).
Defined.

(** ** World.propose: the resampled copy and the failures *)

Lemma filter_nil_length {A} (f : A -> bool) (xs ys : list A) :
  List.length ys = List.length (filter f xs) -> filter f xs = [] -> ys = [].
Proof. intros H E. rewrite E in H. now destruct ys. Qed.

Lemma list_set_app_r {A} (xs ys : list A) k x :
  list_set (xs ++ ys) (List.length xs + k) x = xs ++ list_set ys k x.
Proof.
  induction xs as [|h xs IH]; simpl; [reflexivity|]. now rewrite IH.
Qed.

Lemma nth_error_filter_seq (f : nat -> bool) n len l :
  In l (filter f (seq n len)) ->
  exists k, l = (n + k)%nat /\ (k < len)%nat /\ f l = true.
Proof.
  intro H. apply filter_In in H. destruct H as [H Hf].
  apply in_seq in H. exists (l - n)%nat. repeat split; try lia. exact Hf.
Qed.

(** [World.propose] up to the call of the model: the model is called on a copy
    of the world in which one non-fixed Draw has a resampled value *)
Lemma World_propose_resampled {Out} (self : World) (model : Model Out)
    (tick : Z) (st : State) :
  wf_world st self ->
  filter (not_fixed st) (World_values self) <> [] ->
  exists proposal pre st3 k d v,
    map fst proposal = map fst self /\
    List.length pre
    = List.length (filter (not_fixed st) (World_values self)) /\
    wf_world st3 proposal /\
    nth_error (map Draw_copy (draws_of st self)) k = Some d /\
    fixed d = false /\
    draws_of st3 proposal
    = list_set (map Draw_copy (draws_of st self)) k (set_value v d) /\
    keeps (List.length (draws st)) st st3 /\
    World_propose self model tick st
    = propose_tail model tick proposal pre (Draw_score d)
                   (Draw_score (set_value v d)) st3.
Proof.
  intros Hwf Hne. pose proof Hwf as [Hnd Hst].
  set (n := List.length (draws st)).
  set (copies := map Draw_copy (draws_of st self)).
  set (st1 := mkState (draws st ++ copies) (rng st)).
  set (proposal := combine (map fst self) (seq n (List.length self))).
  assert (Hcl : List.length copies = List.length self)
    by (unfold copies; now rewrite length_map, length_draws_of).
  assert (Hcopy : World_copy self st = (st1, Returns proposal))
    by now apply World_copy_run.
  assert (Hnames : map fst proposal = map fst self)
    by (apply map_fst_combine_eq; now rewrite length_map, length_seq).
  assert (Hvals : World_values proposal = seq n (List.length self))
    by (apply map_snd_combine_eq; now rewrite length_map, length_seq).
  assert (Hwf1 : wf_world st1 proposal) by now apply World_copy_wf.
  set (pre := filter (not_fixed st1) (World_values proposal)).
  assert (Hpre : proposable (World_values proposal) st1 = (st1, Returns pre))
    by (apply proposable_run; apply in_store_values; apply Hwf1).
  assert (Hlen : List.length pre
                 = List.length (filter (not_fixed st) (World_values self))).
  { unfold pre. rewrite Hvals.
    apply (count_proposable_copy_gen st self (draws st) Hst). }
  assert (Hpre_ne : pre <> []).
  { intro E. rewrite E in Hlen. simpl in Hlen.
    destruct (filter (not_fixed st) (World_values self)); [now apply Hne|].
    discriminate. }
  destruct (random_choice_run pre st1 Hpre_ne)
    as [draw [st2 [Hpick [Hdraw_in E2]]]].
  unfold pre in Hdraw_in. rewrite Hvals in Hdraw_in.
  apply nth_error_filter_seq in Hdraw_in.
  destruct Hdraw_in as (k & -> & Hk & Hnf).
  assert (Hdk : exists d, nth_error copies k = Some d).
  { destruct (nth_error copies k) eqn:E; [eauto|].
    apply nth_error_None in E. lia. }
  destruct Hdk as [d Hdk].
  assert (Hd1 : nth_error (draws st1) (n + k)%nat = Some d).
  { simpl. unfold n. rewrite nth_error_app2 by lia.
    now replace (List.length (draws st) + k - List.length (draws st))%nat
      with k by lia. }
  assert (Hd : nth_error (draws st2) (n + k)%nat = Some d) by now rewrite E2.
  assert (Hfd : fixed d = false).
  { unfold not_fixed in Hnf. rewrite Hd1 in Hnf. now destruct (fixed d). }
  destruct (sampler (choice d) (rng st2)) as [v r] eqn:Hs.
  set (st3 := mkState (list_set (draws st2) (n + k)%nat (set_value v d)) r).
  assert (Hres : Draw_resample (n + k)%nat st2 = (st3, Returns tt))
    by now apply Draw_resample_run.
  assert (Hd3 : nth_error (draws st3) (n + k)%nat = Some (set_value v d))
    by (simpl; apply nth_error_list_set_eq; eapply nth_error_in_range; eauto).
  assert (E3 : draws st3 = draws st ++ list_set copies k (set_value v d)).
  { simpl. rewrite E2. simpl. unfold n. apply list_set_app_r. }
  exists proposal, pre, st3, k, d, v.
  split; [exact Hnames|]. split; [exact Hlen|]. split; [|split; [exact Hdk|]].
  { destruct Hwf1 as [Hnd1 Hst1]. split; [exact Hnd1|].
    intros n0 l0 Hin. rewrite E3, length_app, length_list_set.
    specialize (Hst1 n0 l0 Hin). simpl in Hst1.
    now rewrite length_app in Hst1. }
  split; [exact Hfd|]. split; [|split].
  - unfold proposal. destruct st3 as [ds3 r3]. simpl in E3. subst ds3.
    replace (List.length self)
      with (List.length (list_set copies k (set_value v d)))
      by (now rewrite length_list_set).
    apply draws_of_combine_seq. now rewrite length_list_set, length_map.
  - intros l Hl. rewrite E3. now apply nth_error_app1.
  - unfold World_propose, propose_tail.
    rewrite (bind_Returns _ _ _ _ _ Hcopy).
    rewrite (bind_Returns _ _ _ _ _ Hpre).
    rewrite (bind_Returns _ _ _ _ _ Hpick).
    rewrite (bind_Returns _ _ _ _ _ (load_Returns _ _ _ Hd)). cbv zeta.
    rewrite (bind_Returns _ _ _ _ _ Hres).
    rewrite (bind_Returns _ _ _ _ _ (load_Returns _ _ _ Hd3)). cbv zeta.
    reflexivity.
Qed.

Lemma world_ak_wf np py : wf_world (store_ak np py) world_ak.
Proof. solve_wf. Defined.

Lemma world_k_wf np py : wf_world (store_k np py) world_k.
Proof. solve_wf. Defined.

(** X9: [World.propose] calls the model on a copy of the world in which
    exactly one Draw differs from the [Draw.copy] of the original: a
    non-fixed one, by its value.  Every fixed Draw reaches the model with its
    value, and no object of the store before the call has changed. *)
Theorem World_propose_resamples_one {Out} :
  forall (self : World) (model : Model Out) (tick : Z) (st : State),
    wf_world st self ->
    filter (not_fixed st) (World_values self) <> [] ->
    exists proposal pre st3 k d v,
      World_propose self model tick st
      = propose_tail model tick proposal pre (Draw_score d)
                     (Draw_score (set_value v d)) st3 /\
      map fst proposal = map fst self /\
      nth_error (map Draw_copy (draws_of st self)) k = Some d /\
      fixed d = false /\
      draws_of st3 proposal
      = list_set (map Draw_copy (draws_of st self)) k (set_value v d) /\
      (forall j dj,
          nth_error (map Draw_copy (draws_of st self)) j = Some dj ->
          fixed dj = true ->
          nth_error (draws_of st3 proposal) j = Some dj) /\
      keeps (List.length (draws st)) st st3.
Proof.
  intros self model tick st Hwf Hne.
  destruct (World_propose_resampled self model tick st Hwf Hne)
    as (proposal & pre & st3 & k & d & v
        & Hnames & _ & _ & Hk & Hf & Hds & Hkeeps & Hrun).
  exists proposal, pre, st3, k, d, v.
  repeat (split; [assumption|]). split; [|exact Hkeeps].
  intros j dj Hj Hfj. rewrite Hds.
  rewrite nth_error_list_set_neq; [exact Hj|].
  intro E. subst j. congruence.
Qed.

Lemma World_propose_resamples_one_witness :
  wf_world (store_ak [] []) world_ak /\
  filter (not_fixed (store_ak [] [])) (World_values world_ak) <> [] /\
  exists proposal pre st3 s_pre s_post,
    World_propose world_ak fixed_only_model 1 (store_ak [] [])
    = propose_tail fixed_only_model 1 proposal pre s_pre s_post st3 /\
    nth_error (draws_of st3 proposal) 1
    = Some (mkDraw (VBool true) (flip_choice (1 # 2)) (-1) (-1) true).
Proof.
  split; [apply world_ak_wf|]. split; [discriminate|].
  destruct (World_propose_resamples_one world_ak fixed_only_model 1
              (store_ak [] []) (world_ak_wf _ _) ltac:(discriminate))
    as (proposal & pre & st3 & k & d & v & Hrun & _ & _ & _ & _ & Hfix & _).
  exists proposal, pre, st3, (Draw_score d), (Draw_score (set_value v d)).
  split; [exact Hrun|]. apply Hfix; reflexivity.
Defined.

(** X10: on a world without a non-fixed Draw (the empty world is one),
    [World.propose] raises [IndexError], from [random.choice] on the empty
    list; the [try] of [mcmc] catches only [ZeroProbabilityException], so the
    transition raises [IndexError] too. *)
Theorem World_propose_no_proposable {Out} :
  forall (self : World) (model : Model Out) (tick : Z) (st : State),
    wf_world st self ->
    filter (not_fixed st) (World_values self) = [] ->
    snd (World_propose self model tick st) = Raises IndexError /\
    forall condition i j value,
      snd (transition model condition i j self value st) = Raises IndexError.
Proof.
  intros self model tick st Hwf Hnone. pose proof Hwf as [Hnd Hst].
  pose proof (World_copy_wf self st Hwf) as Hwf1.
  assert (H : forall t, snd (World_propose self model t st) = Raises IndexError).
  { intro t. unfold World_propose.
    rewrite (bind_Returns _ _ _ _ _ (World_copy_run self st Hwf)).
    rewrite (bind_Returns _ _ _ _ _
               (proposable_run _ _ (in_store_values _ _ (proj2 Hwf1)))).
    assert (E : filter
                  (not_fixed
                     (mkState (draws st ++ map Draw_copy (draws_of st self))
                              (rng st)))
                  (World_values
                     (combine (map fst self)
                        (seq (List.length (draws st)) (List.length self))))
                = []).
    { apply (filter_nil_length (not_fixed st) (World_values self));
        [|exact Hnone].
      unfold World_values at 1.
      rewrite map_snd_combine_eq by (now rewrite length_map, length_seq).
      apply (count_proposable_copy_gen st self (draws st) Hst). }
    rewrite E. reflexivity. }
  split; [apply H|].
  intros condition i j value. unfold transition, try_except_else.
  specialize (H (i * j)).
  destruct (World_propose self model (i * j) st) as [s [r | e | | ]];
    simpl in H; try discriminate.
  inversion H; subst. reflexivity.
Qed.

Lemma World_propose_no_proposable_witness :
  wf_world (store_k [] []) world_k /\
  filter (not_fixed (store_k [] [])) (World_values world_k) = [] /\
  snd (World_propose world_k flip_model 1 (store_k [] []))
  = Raises IndexError.
Proof.
  split; [apply world_k_wf|]. split; [reflexivity|].
  apply (World_propose_no_proposable world_k flip_model 1 (store_k [] [])
           (world_k_wf _ _) eq_refl).
Defined.

(** X11: when the model callback returns a world that has no non-fixed Draw
    left after cleaning, [World.propose] raises [ZeroDivisionError], from
    [1 / len(proposable_draws_post)]. *)
Theorem World_propose_no_proposable_after {Out} :
  forall (self : World) (model : Model Out) (tick : Z) (st : State),
    wf_world st self ->
    filter (not_fixed st) (World_values self) <> [] ->
    exists proposal pre st3 s_pre s_post,
      World_propose self model tick st
      = propose_tail model tick proposal pre s_pre s_post st3 /\
      forall st4 new_world new_value,
        model proposal tick st3 = (st4, Returns (new_world, new_value)) ->
        wf_world st4 new_world ->
        filter (not_fixed st4)
               (World_values
                  (filter (fun e => negb (stale st4 tick e)) new_world)) = [] ->
        World_propose self model tick st = (st4, Raises ZeroDivisionError).
Proof.
  intros self model tick st Hwf Hne.
  destruct (World_propose_resampled self model tick st Hwf Hne)
    as (proposal & pre & st3 & k & d & v & _ & _ & _ & _ & _ & _ & _ & Hrun).
  exists proposal, pre, st3, (Draw_score d), (Draw_score (set_value v d)).
  split; [exact Hrun|].
  intros st4 new_world new_value Hmodel Hwf4 Hpost.
  rewrite Hrun. unfold propose_tail.
  rewrite (bind_Returns _ _ _ _ _ Hmodel).
  rewrite (bind_Returns _ _ _ _ _ (World_clean_exact new_world tick st4 Hwf4)).
  rewrite (bind_Returns _ _ _ _ _
             (proposable_run _ _
                (in_store_values _ _
                   (in_store_filter _ _ _ (proj2 Hwf4))))).
  rewrite Hpost. reflexivity.
Qed.

Lemma World_propose_no_proposable_after_witness :
  wf_world (store_a [] []) world_a /\
  filter (not_fixed (store_a [] [])) (World_values world_a) <> [] /\
  snd (World_propose world_a fixed_only_model 1 (store_a [] []))
  = Raises ZeroDivisionError.
Proof.
  split; [apply world_a_wf|]. split; [discriminate|].
  destruct (World_propose_no_proposable_after world_a fixed_only_model 1
              (store_a [] []) (world_a_wf _ _) ltac:(discriminate))
    as (proposal & pre & st3 & s_pre & s_post & _ & Hraise).
  assert (Hn : nth_error
                 (draws st3
                  ++ [mkDraw (VBool true) (flip_choice (1 # 2)) 1 1 true])
                 (List.length (draws st3))
               = Some (mkDraw (VBool true) (flip_choice (1 # 2)) 1 1 true))
    by apply nth_error_app_length.
  rewrite (Hraise _ _ _
             (Choice_set_absent (flip_choice (1 # 2)) [] (NStr "k") 1
                (VBool true) st3 eq_refl)).
  - reflexivity.
  - apply wf_singleton. simpl. rewrite length_app. simpl. lia.
  - simpl. unfold stale. simpl. rewrite Hn. simpl.
    unfold not_fixed. simpl. now rewrite Hn.
Defined.

(** ** initialize and the transitions of mcmc *)

Lemma initialize_loop_condition {Out} :
  forall fuel (model : Model Out) condition world value st st' w' v',
    initialize_loop fuel model condition world value st
    = (st', Returns (w', v')) ->
    (st' = st /\ w' = world /\ v' = value /\ condition value = true) \/
    (exists st0,
        model [] (-1) st0 = (st', Returns (w', v')) /\ condition v' = true).
Proof.
  induction fuel as [|fuel IH]; intros model condition world value st st' w' v';
    simpl; destruct (condition value) eqn:C.
  - intro H. inversion H; subst. now left.
  - discriminate.
  - intro H. inversion H; subst. now left.
  - intro H. apply bind_inv in H. destruct H as [st1 [[w v] [Hm H]]].
    right. apply IH in H. destruct H as [(-> & -> & -> & Hc) | H].
    + now exists st.
    + exact H.
Qed.

(** X12: when [initialize] returns, it returns the world and the value of its
    last run of the model on an empty world at tick -1, and [condition] holds
    on the value.  When the first run already satisfies [condition] it is the
    one returned, and an exception of the first run, [ZeroProbabilityException]
    included, is not caught. *)
Theorem initialize_condition {Out} :
  forall fuel (model : Model Out) condition st,
    (forall st' world value,
        initialize fuel model condition st = (st', Returns (world, value)) ->
        exists st0,
          model [] (-1) st0 = (st', Returns (world, value)) /\
          condition value = true) /\
    (forall st1 world value,
        model [] (-1) st = (st1, Returns (world, value)) ->
        condition value = true ->
        initialize fuel model condition st = (st1, Returns (world, value))) /\
    (forall st1 e,
        model [] (-1) st = (st1, Raises e) ->
        initialize fuel model condition st = (st1, Raises e)).
Proof.
  intros fuel model condition st. split; [|split].
  - intros st' world value H. unfold initialize in H.
    apply bind_inv in H. destruct H as [st1 [[w v] [Hm H]]].
    apply initialize_loop_condition in H.
    destruct H as [(-> & -> & -> & Hc) | H]; [now exists st | exact H].
  - intros st1 world value Hm Hc. unfold initialize.
    rewrite (bind_Returns _ _ _ _ _ Hm).
    destruct fuel; simpl; now rewrite Hc.
  - intros st1 e Hm. unfold initialize, bind. now rewrite Hm.
Qed.

Lemma initialize_condition_witness :
  exists st' world value,
    initialize 3 branching_model fst (empty_store [1; 0; 1]%Q [])
    = (st', Returns (world, value)) /\
    fst value = true.
Proof.
  eassert (H : initialize 3 branching_model fst (empty_store [1; 0; 1]%Q [])
               = (_, Returns (_, _))) by (vm_compute; reflexivity).
  destruct (initialize_condition 3 branching_model fst
              (empty_store [1; 0; 1]%Q [])) as [Hc _].
  destruct (Hc _ _ _ H) as (st0 & _ & Hcond).
  do 3 eexists. split; [exact H | exact Hcond].
Defined.

Lemma transition_inv {Out} (model : Model Out) condition i j world value
    st st' w' v' :
  transition model condition i j world value st = (st', Returns (w', v')) ->
  (w' = world /\ v' = value) \/
  (condition v' = true /\
   exists st1 bw fw,
     World_propose world model (i * j) st = (st1, Returns (w', v', bw, fw))).
Proof.
  unfold transition, try_except_else.
  destruct (World_propose world model (i * j) st)
    as [s1 [[[[p nv] bw] fw] | [ | | ] | | ]]; try discriminate.
  - destruct (condition nv) eqn:C.
    + intro H.
      apply bind_inv in H. destruct H as (s2 & sp & _ & H).
      apply bind_inv in H. destruct H as (s3 & sw & _ & H).
      apply bind_inv in H. destruct H as (s4 & a & _ & H).
      apply bind_inv in H. destruct H as (s5 & b & _ & H). cbv zeta in H.
      destruct (Qle_bool 1 (a * b)).
      * inversion H; subst. right. split; [exact C|]. now exists s1, bw, fw.
      * apply bind_inv in H. destruct H as (s6 & f & _ & H).
        destruct f; inversion H; subst.
        -- right. split; [exact C|]. now exists s1, bw, fw.
        -- now left.
    + intro H. inversion H; subst. now left.
  - intro H. inversion H; subst. now left.
Qed.

(** X13: a transition of [mcmc] that returns retains either the state it had
    or the world and value of the proposal, and the latter only when
    [condition] holds on the proposed value.  When [World.propose] raises
    [ZeroProbabilityException] the transition returns the state it had; any
    other exception of [World.propose] escapes. *)
Theorem transition_outcome {Out} :
  forall (model : Model Out) condition i j world value st,
    (forall st' w' v',
        transition model condition i j world value st
        = (st', Returns (w', v')) ->
        (w' = world /\ v' = value) \/
        (condition v' = true /\
         exists st1 bw fw,
           World_propose world model (i * j) st
           = (st1, Returns (w', v', bw, fw)))) /\
    (forall st1,
        World_propose world model (i * j) st
        = (st1, Raises ZeroProbabilityException) ->
        transition model condition i j world value st
        = (st1, Returns (world, value))) /\
    (forall st1 e,
        World_propose world model (i * j) st = (st1, Raises e) ->
        e <> ZeroProbabilityException ->
        transition model condition i j world value st = (st1, Raises e)).
Proof.
  intros model condition i j world value st. split; [|split].
  - intros st' w' v'. apply transition_inv.
  - intros st1 H. unfold transition, try_except_else. now rewrite H.
  - intros st1 e H He. unfold transition, try_except_else. rewrite H.
    destruct e; [contradiction | reflexivity | reflexivity].
Qed.

(** the proposal of [fixed_only_model] has no proposable Draw:
    [ZeroDivisionError] escapes the transition *)
Lemma transition_outcome_witness :
  transition fixed_only_model (fun _ => true) 1 1 world_a (VBool false)
             (store_a [] [])
  = (fst (World_propose world_a fixed_only_model 1 (store_a [] [])),
     Raises ZeroDivisionError).
Proof.
  destruct (transition_outcome fixed_only_model (fun _ => true) 1 1 world_a
              (VBool false) (store_a [] [])) as (_ & _ & Hescape).
  apply Hescape; [|discriminate].
  vm_compute. reflexivity.
Defined.

Lemma mcmc_round_condition {Out} (model : Model Out) condition num_steps i :
  forall s st st' s',
    condition (snd s) = true ->
    mcmc_round model condition num_steps i s st = (st', Returns s') ->
    condition (snd s') = true.
Proof.
  unfold mcmc_round. induction (range num_steps) as [|j js IH];
    intros s st st' s' Hc H; simpl in H.
  - inversion H; subst. exact Hc.
  - apply bind_inv in H. destruct H as (s1 & [w1 v1] & Ht & H).
    destruct s as [w v]. apply transition_inv in Ht.
    eapply IH; [|exact H]. simpl.
    destruct Ht as [[-> ->] | [Hc' _]]; assumption.
Qed.

Lemma retained_states_condition {Out} (model : Model Out) condition
    num_steps rounds :
  forall s st st' states,
    condition (snd s) = true ->
    retained_states model condition num_steps rounds s st
    = (st', Returns states) ->
    Forall (fun s' => condition (snd s') = true) states.
Proof.
  induction rounds as [|i rounds IH]; intros s st st' states Hc H; simpl in H.
  - inversion H; subst. constructor.
  - apply bind_inv in H. destruct H as (s1 & x & Hr & H).
    apply bind_inv in H. destruct H as (s2 & xs & Hs & H).
    inversion H; subst.
    pose proof (mcmc_round_condition _ _ _ _ _ _ _ _ Hc Hr) as Hx.
    constructor; [exact Hx|]. eapply IH; eauto.
Qed.

Lemma mcmc_run {Out T} fuel (model : Model Out) condition (query : Out -> T)
    num_steps num_samples st :
  mcmc fuel model condition query num_steps num_samples st
  = (s0 <- initialize fuel model condition ;;
     states <- retained_states model condition num_steps
                 (range num_samples) s0 ;;
     ret (map (fun s => query (snd s)) states)) st.
Proof.
  unfold mcmc. apply bind_ext. intros [world value] s.
  apply (outer_loop_run model condition query num_steps (range num_samples)
           world value [] s).
Qed.

(** X14: every output of [mcmc] is the projection by [query] of a value on
    which [condition] holds: the chain starts from such a value and a
    transition retains a proposed value only when [condition] holds on it. *)
Theorem mcmc_outputs_condition {Out T} :
  forall fuel (model : Model Out) condition (query : Out -> T)
         num_steps num_samples st st' samples,
    mcmc fuel model condition query num_steps num_samples st
    = (st', Returns samples) ->
    Forall (fun r => exists v, condition v = true /\ r = query v) samples.
Proof.
  intros fuel model condition query num_steps num_samples st st' samples H.
  rewrite mcmc_run in H.
  apply bind_inv in H. destruct H as (s1 & [w0 v0] & Hinit & H).
  apply bind_inv in H. destruct H as (s2 & states & Hs & H).
  inversion H; subst. clear H.
  unfold initialize in Hinit.
  apply bind_inv in Hinit. destruct Hinit as (s0 & [w v] & _ & Hinit).
  apply initialize_loop_condition in Hinit.
  assert (Hc : condition v0 = true).
  { destruct Hinit as [(_ & _ & -> & Hc) | (st0 & _ & Hc)]; exact Hc. }
  pose proof (retained_states_condition _ _ _ _ (w0, v0) _ _ _ Hc Hs) as HF.
  clear Hs. induction HF as [|x xs Hx _ IH]; simpl; constructor.
  - now exists (snd x).
  - exact IH.
Qed.

Lemma mcmc_outputs_condition_witness :
  exists st' samples,
    mcmc 3 branching_model snd fst 2 2
         (empty_store [0; 0; 1; 1; 0; 1]%Q [])
    = (st', Returns samples) /\
    Forall (fun r => exists v : bool * bool, snd v = true /\ r = fst v) samples.
Proof.
  eassert (H : mcmc 3 branching_model snd fst 2 2
                 (empty_store [0; 0; 1; 1; 0; 1]%Q []) = (_, Returns _))
    by (vm_compute; reflexivity).
  do 2 eexists. split; [exact H|].
  exact (mcmc_outputs_condition _ _ _ _ _ _ _ _ _ H).
Defined.

(** X15: with [num_steps <= 0] no transition runs: [mcmc] returns
    [num_samples] times the projection of the value [initialize] returned,
    in the state [initialize] left. *)
Theorem mcmc_no_steps {Out T} :
  forall fuel (model : Model Out) condition (query : Out -> T)
         num_steps num_samples st,
    num_steps <= 0 ->
    mcmc fuel model condition query num_steps num_samples st
    = ('(_, value) <- initialize fuel model condition ;;
       ret (repeat (query value) (Z.to_nat num_samples))) st.
Proof.
  intros fuel model condition query num_steps num_samples st Hn.
  rewrite mcmc_run. apply bind_ext. intros [w v] s.
  assert (E : forall rounds s1,
             retained_states model condition num_steps rounds (w, v) s1
             = (s1, Returns (repeat (w, v) (List.length rounds)))).
  { induction rounds as [|i rounds IH]; intro s1; [reflexivity|].
    simpl retained_states.
    assert (Hr : mcmc_round model condition num_steps i (w, v) s1
                 = (s1, Returns (w, v))).
    { unfold mcmc_round, range.
      replace (Z.to_nat num_steps) with 0%nat by lia. reflexivity. }
    rewrite (bind_Returns _ _ _ _ _ Hr).
    now rewrite (bind_Returns _ _ _ _ _ (IH s1)). }
  rewrite (bind_Returns _ _ _ _ _ (E (range num_samples) s)).
  unfold ret. rewrite length_range, map_repeat. reflexivity.
Qed.

Lemma mcmc_no_steps_witness :
  0 <= 0 /\
  snd (mcmc 0 flip_model (fun _ => true) (fun b => b) 0 3 (empty_store [] []))
  = Returns [true; true; true].
Proof.
  split; [lia|].
  rewrite (mcmc_no_steps 0 flip_model (fun _ => true) (fun b => b) 0 3
             (empty_store [] []) ltac:(lia)).
  reflexivity.
Defined.

(** ** rejection, again *)

Lemma single_rejection_returns_condition {Out T} fuel (model : Model Out)
    condition (query : Out -> T) st st' r :
  single_rejection fuel model condition query st = (st', Returns r) ->
  exists v, condition v = true /\ r = query v.
Proof.
  intro H. unfold single_rejection in H.
  apply bind_inv in H. destruct H as [st1 [[w v] [Hm H]]].
  apply single_rejection_loop_condition in H.
  destruct H as [(_ & Hc & Hr) | (st0 & w0 & v0 & _ & Hc & Hr)]; eauto.
Qed.

Lemma replicateM_Forall {A} (m : M A) (P : A -> Prop) :
  (forall st st' r, m st = (st', Returns r) -> P r) ->
  forall n st st' xs,
    replicateM n m st = (st', Returns xs) -> Forall P xs.
Proof.
  intros Hm. induction n as [|n IH]; intros st st' xs H; simpl in H.
  - inversion H. constructor.
  - apply bind_inv in H. destruct H as (s1 & x & Hx & H).
    apply bind_inv in H. destruct H as (s2 & ys & Hys & H).
    inversion H; subst. constructor; eauto.
Qed.

(** [rejection] for any [num_samples]: the batches of 100, then the rest *)
Lemma rejection_run {Out T} fuel (model : Model Out) condition
    (query : Out -> T) num_samples st :
  rejection fuel model condition query num_samples st
  = replicateM (Z.to_nat (num_samples ÷ 100) * 100
                + Z.to_nat (num_samples mod 100))
               (single_rejection fuel model condition query) st.
Proof.
  set (call := single_rejection fuel model condition query).
  unfold rejection. fold call. rewrite replicateM_add.
  rewrite (bind_cong_l _ _ _ _ (batches_run call _ 100 [] st)).
  rewrite length_range, bind_assoc.
  change (Z.to_nat 100) with 100%nat.
  apply bind_ext. intros xs s. simpl app.
  change ((if negb (num_samples mod 100 =? 0)
           then batch <- mapp (fun _ : Z => call)
                              (range (num_samples mod 100)) ;;
                ret (xs ++ batch)
           else ret xs) s
          = (ys <- replicateM (Z.to_nat (num_samples mod 100)) call ;;
             ret (xs ++ ys)) s).
  destruct (num_samples mod 100 =? 0) eqn:Em; simpl negb; cbv iota.
  - apply Z.eqb_eq in Em. rewrite Em. simpl. unfold bind, ret. simpl.
    now rewrite app_nil_r.
  - unfold mapp. apply bind_cong_l. rewrite mapM_const, length_range.
    reflexivity.
Qed.

(** X16: for a negative [num_samples], [int(num_samples / 100)] is not
    positive and no full batch runs, but [num_samples % 100] is between 0 and
    99: [rejection] makes [num_samples mod 100] calls of [single_rejection],
    so [rejection(..., -5)] returns 95 samples. *)
Theorem rejection_negative {Out T} :
  forall fuel (model : Model Out) condition (query : Out -> T) num_samples st,
    num_samples < 0 ->
    rejection fuel model condition query num_samples st
    = replicateM (Z.to_nat (num_samples mod 100))
                 (single_rejection fuel model condition query) st /\
    forall st' samples,
      rejection fuel model condition query num_samples st
      = (st', Returns samples) ->
      Z.of_nat (List.length samples) = num_samples mod 100.
Proof.
  intros fuel model condition query n st Hn.
  assert (E : rejection fuel model condition query n st
              = replicateM (Z.to_nat (n mod 100))
                  (single_rejection fuel model condition query) st).
  { rewrite rejection_run.
    assert (Hq : n ÷ 100 <= 0).
    { replace n with (- (- n)) by lia. rewrite Z.quot_opp_l by lia.
      pose proof (Z.quot_pos (- n) 100 ltac:(lia) ltac:(lia)). lia. }
    replace (Z.to_nat (n ÷ 100)) with 0%nat by lia. reflexivity. }
  split; [exact E|].
  intros st' samples H. rewrite E in H. apply replicateM_length in H.
  rewrite H. pose proof (Z.mod_pos_bound n 100 ltac:(lia)). lia.
Qed.

Lemma rejection_negative_witness :
  -5 < 0 /\
  exists st' samples,
    rejection 1 flip_model (fun _ => true) (fun b => b) (-5)
              (empty_store [] [])
    = (st', Returns samples) /\
    List.length samples = 95%nat.
Proof.
  split; [lia|].
  destruct (rejection_negative 1 flip_model (fun _ => true) (fun b => b) (-5)
              (empty_store [] []) ltac:(lia)) as [E Hlen].
  destruct (replicateM_returns
              (single_rejection 1 flip_model (fun _ => true) (fun b => b))
              (Z.to_nat (-5 mod 100)) (flip_model_returns 1)
              (empty_store [] [])) as (st' & samples & Hrun).
  rewrite <- E in Hrun. exists st', samples. split; [exact Hrun|].
  specialize (Hlen st' samples Hrun). change (-5 mod 100) with 95 in Hlen. lia.
Defined.

(** X17: every sample [rejection] returns is the projection by [query] of a
    value on which [condition] holds, for any [num_samples]. *)
Theorem rejection_outputs_condition {Out T} :
  forall fuel (model : Model Out) condition (query : Out -> T) num_samples
         st st' samples,
    rejection fuel model condition query num_samples st
    = (st', Returns samples) ->
    Forall (fun r => exists v, condition v = true /\ r = query v) samples.
Proof.
  intros fuel model condition query num_samples st st' samples H.
  rewrite rejection_run in H.
  eapply replicateM_Forall; [|exact H].
  intros s s' r Hr. eapply single_rejection_returns_condition; eauto.
Qed.

Lemma rejection_outputs_condition_witness :
  exists st' samples,
    rejection 3 branching_model fst snd 2 (empty_store [1; 0; 1; 0; 0]%Q [])
    = (st', Returns samples) /\
    Forall (fun r => exists v : bool * bool, fst v = true /\ r = snd v) samples.
Proof.
  eassert (H : rejection 3 branching_model fst snd 2
                 (empty_store [1; 0; 1; 0; 0]%Q []) = (_, Returns _))
    by (vm_compute; reflexivity).
  do 2 eexists. split; [exact H|].
  exact (rejection_outputs_condition _ _ _ _ _ _ _ _ H).
Defined.

(** ** The distributions *)





















(** ** histogram *)



















(** ** memoize *)

Lemma find_app_miss {A} (f : A -> bool) (xs ys : list A) :
  find f xs = None -> find f (xs ++ ys) = find f ys.
Proof.
  induction xs as [|x xs IH]; simpl; [reflexivity|].
  destruct (f x); [discriminate | exact IH].
Qed.

Lemma find_app_hit {A} (f : A -> bool) (xs ys : list A) x :
  find f xs = Some x -> find f (xs ++ ys) = Some x.
Proof.
  induction xs as [|y xs IH]; simpl; [discriminate|].
  destruct (f y); [trivial | exact IH].
Qed.

(** X23: after a call of the memoized function, every later call with the
    same positional arguments returns the result of the first, whatever the
    keyword arguments and the state: [obj] is not called again, and the cache
    is left as it is. *)
Theorem memoizer_replay {Args Kw S Res} :
  forall (eqb : Args -> Args -> bool)
         (obj : Args -> Kw -> S -> S * Res)
         (cache cache1 : list (Args * Res)) args kwargs s s1 r1,
    (forall a, eqb a a = true) ->
    memoizer eqb obj cache args kwargs s = (cache1, s1, r1) ->
    forall kwargs' s',
      memoizer eqb obj cache1 args kwargs' s' = (cache1, s', r1).
Proof.
  intros eqb obj cache cache1 args kwargs s s1 r1 Hrefl H kwargs' s'.
  unfold memoizer in *.
  destruct (find (fun e => eqb (fst e) args) cache) as [e|] eqn:F.
  - inversion H; subst. now rewrite F.
  - destruct (obj args kwargs s) as [s0 r] eqn:E. inversion H; subst.
    rewrite (find_app_miss _ _ _ F). simpl. now rewrite Hrefl.
Qed.

Lemma memoizer_replay_witness :
  let obj := fun (a : Z) (kw : Z) (calls : nat) => (S calls, a + kw) in
  exists cache1,
    memoizer Z.eqb obj [] 5 100 0%nat = (cache1, 1%nat, 105) /\
    memoizer Z.eqb obj cache1 5 7 1%nat = (cache1, 1%nat, 105).
Proof.
  intro obj. eexists. split; [reflexivity|].
  apply (memoizer_replay Z.eqb obj [] _ 5 100 0%nat 1%nat 105 Z.eqb_refl
           eq_refl).
Defined.



(** ** The model of test_transdimensional *)

(** a flip on a well-formed world returns: the scorer of a flip is never 0 *)
Lemma church_flip_run (world : World) (name : Name) (tick : Z) (p : Q)
    (st : State) :
  wf_world st world ->
  exists st' w' v,
    church_flip world name tick p st = (st', Returns (w', v)) /\
    wf_world st' w' /\
    map fst w'
    = match dict_get name world with
      | Some _ => map fst world
      | None => map fst world ++ [name]
      end.
Proof.
  intros Hwf. unfold church_flip.
  destruct (dict_get name world) as [l|] eqn:G.
  - assert (Hl : (l < List.length (draws st))%nat).
    { destruct Hwf as [_ Hst]. eapply Hst. eapply dict_get_In; eauto. }
    destruct (load_in_store st l Hl) as [d [Hd _]].
    pose proof (Choice_sample_revisit (flip_choice p) world name tick st l d
                  G Hd (flip_score_nonzero _ _)) as R.
    do 3 eexists. split; [exact R|]. split; [|reflexivity].
    now apply wf_world_list_set.
  - destruct (sampler (flip_choice p) (rng st)) as [v r] eqn:Es.
    pose proof (Choice_sample_absent _ _ _ tick _ _ _ G Es) as R.
    do 3 eexists. split; [exact R|]. split.
    + now apply wf_world_alloc.
    + rewrite map_app. reflexivity.
Qed.

Lemma rbits_run (names : list Name) (tick : Z) :
  forall (world : World) (st : State),
    wf_world st world ->
    exists st' w' vs,
      rbits names world tick st = (st', Returns (w', vs)) /\
      wf_world st' w' /\
      List.length vs = List.length names /\
      (NoDup names ->
       (forall n, In n names -> ~ In n (map fst world)) ->
       map fst w' = map fst world ++ names).
Proof.
  induction names as [|name names IH]; intros world st Hwf.
  - exists st, world, []. split; [reflexivity|]. split; [exact Hwf|].
    split; [reflexivity|]. intros _ _. now rewrite app_nil_r.
  - destruct (church_flip_run world name tick (1 # 2) st Hwf)
      as (s1 & w1 & v & Hrun & Hwf1 & Hkeys).
    destruct (IH w1 s1 Hwf1) as (s2 & w2 & vs & Hrest & Hwf2 & Hlen & Hk2).
    exists s2, w2, (v :: vs). split; [|split; [exact Hwf2|split]].
    + simpl. rewrite (bind_Returns _ _ _ _ _ Hrun).
      now rewrite (bind_Returns _ _ _ _ _ Hrest).
    + simpl. now rewrite Hlen.
    + intros Hnd Hfresh. inversion Hnd as [|? ? Hnot Hnd']; subst.
      assert (G : dict_get name world = None).
      { apply dict_get_None. apply Hfresh. now left. }
      rewrite G in Hkeys. rewrite Hk2; [| exact Hnd' |].
      * rewrite Hkeys, <- app_assoc. reflexivity.
      * intros n Hn. rewrite Hkeys, in_app_iff. intros [H | [H | []]].
        -- apply (Hfresh n); [now right | exact H].
        -- subst. contradiction.
Qed.

Lemma NoDup_map_injective {A B} (f : A -> B) (l : list A) :
  (forall x y, f x = f y -> x = y) -> NoDup l -> NoDup (map f l).
Proof.
  intros Hinj Hnd. induction Hnd as [|x l Hnot Hnd IH]; simpl; constructor.
  - intro H. apply in_map_iff in H. destruct H as [y [E Hy]].
    apply Hinj in E. now subst.
  - exact IH.
Qed.

Lemma names_1_50_NoDup :
  NoDup (map (fun n => NInt (1 + n)) (range 50)).
Proof.
  apply NoDup_map_injective.
  - intros x y H. assert (E : 1 + x = 1 + y) by congruence. lia.
  - unfold range. apply NoDup_map_injective.
    + apply Nat2Z.inj.
    + apply seq_NoDup.
Qed.

(** X25: on a well-formed trace the model of [test_transdimensional] always
    returns, with a well-formed trace: none of its flips can raise
    [ZeroProbabilityException].  Run on the empty trace it makes 3 Draws,
    "a", 1 and "c", when "a" comes up true, and 52, "a", 1 to 50 and "c",
    when it comes up false. *)
Theorem transdimensional_model_returns :
  forall (init_world : World) (tick : Z) (st : State),
    wf_world st init_world ->
    exists st' world A B C,
      transdimensional_model init_world tick st
      = (st', Returns (world, (A, B, C))) /\
      wf_world st' world /\
      (init_world = [] ->
       map fst world
       = if truthy A then [NStr "a"; NInt 1; NStr "c"]
         else NStr "a" :: map (fun n => NInt (1 + n)) (range 50)
              ++ [NStr "c"]).
Proof.
  intros init_world tick st Hwf. unfold transdimensional_model.
  pose proof (World_copy_run init_world st Hwf) as Hcopy.
  pose proof (World_copy_wf init_world st Hwf) as Hwf0.
  set (st0 := mkState (draws st ++ map Draw_copy (draws_of st init_world))
                      (rng st)) in *.
  set (w0 := combine (map fst init_world)
               (seq (List.length (draws st)) (List.length init_world))) in *.
  destruct (church_flip_run w0 (NStr "a") tick (1 # 2) st0 Hwf0)
    as (s1 & w1 & A & HA & Hwf1 & Hk1).
  rewrite (bind_Returns _ _ _ _ _ Hcopy).
  rewrite (bind_Returns _ _ _ _ _ HA).
  assert (Hk1' : init_world = [] -> map fst w1 = [NStr "a"]).
  { intro E. clear - Hk1 E. subst w0. subst init_world. exact Hk1. }
  destruct (truthy A) eqn:EA.
  - destruct (church_flip_run w1 (NInt 1) tick (1 # 2) s1 Hwf1)
      as (s2 & w2 & B & HB & Hwf2 & Hk2).
    rewrite (bind_Returns _ _ _ _ _ HB). cbv zeta.
    destruct (church_flip_run w2 (NStr "c") tick
                (if truthy B then 1 # 3 else 2 # 3) s2 Hwf2)
      as (s3 & w3 & C & HC & Hwf3 & Hk3).
    rewrite (bind_Returns _ _ _ _ _ HC).
    exists s3, w3, A, B, C. split; [reflexivity|]. split; [exact Hwf3|].
    intro E. specialize (Hk1' E). rewrite EA.
    assert (G2 : dict_get (NInt 1) w1 = None).
    { apply dict_get_None. rewrite Hk1'. intros [H | []]. discriminate. }
    rewrite G2, Hk1' in Hk2.
    assert (G3 : dict_get (NStr "c") w2 = None).
    { apply dict_get_None. rewrite Hk2. simpl.
      intros [H | [H | []]]; discriminate. }
    now rewrite G3, Hk2 in Hk3.
  - destruct (rbits_run (map (fun n => NInt (1 + n)) (range 50)) tick w1 s1
                Hwf1) as (s2 & w2 & bits & Hbits & Hwf2 & _ & Hk2).
    rewrite bind_assoc. rewrite (bind_Returns _ _ _ _ _ Hbits).
    cbv zeta. unfold bind at 1. unfold ret at 1.
    set (B := VInt (if Qeq_bool (mod2 (Qsum (map num bits))) 1 then 1 else 0)).
    destruct (church_flip_run w2 (NStr "c") tick
                (if truthy B then 1 # 3 else 2 # 3) s2 Hwf2)
      as (s3 & w3 & C & HC & Hwf3 & Hk3).
    rewrite (bind_Returns _ _ _ _ _ HC).
    exists s3, w3, A, B, C. split; [reflexivity|]. split; [exact Hwf3|].
    intro E. specialize (Hk1' E). rewrite EA.
    rewrite Hk1' in Hk2.
    specialize (Hk2 names_1_50_NoDup).
    assert (Hfresh : forall n,
               In n (map (fun n => NInt (1 + n)) (range 50)) ->
               ~ In n [NStr "a"]).
    { intros n Hn [H | []]. subst n. apply in_map_iff in Hn.
      destruct Hn as [x [Hx _]]. discriminate. }
    specialize (Hk2 Hfresh).
    assert (G3 : dict_get (NStr "c") w2 = None).
    { apply dict_get_None. rewrite Hk2. intro H. apply in_app_iff in H.
      destruct H as [[H | []] | H]; [discriminate|].
      apply in_map_iff in H. destruct H as [x [Hx _]]. discriminate. }
    rewrite G3, Hk2 in Hk3. exact Hk3.
Qed.

Lemma transdimensional_model_returns_witness :
  wf_world (empty_store [1%Q] []) [] /\
  exists st' world A B C,
    transdimensional_model [] (-1) (empty_store [1%Q] [])
    = (st', Returns (world, (A, B, C))) /\
    List.length world = 52%nat.
Proof.
  assert (Hwf : wf_world (empty_store [1%Q] []) []).
  { split; [constructor | intros ? ? []]. }
  split; [exact Hwf|].
  destruct (transdimensional_model_returns [] (-1) (empty_store [1%Q] []) Hwf)
    as (st' & world & A & B & C & Hrun & _ & Hkeys).
  exists st', world, A, B, C. split; [exact Hrun|].
  specialize (Hkeys eq_refl).
  assert (HA : A = VBool false).
  { assert (E : exists s w b c,
               transdimensional_model [] (-1) (empty_store [1%Q] [])
               = (s, Returns (w, (VBool false, b, c))))
      by (do 4 eexists; vm_compute; reflexivity).
    destruct E as (s & w & b & c & E). rewrite E in Hrun. now inversion Hrun. }
  subst A. simpl truthy in Hkeys. cbv iota in Hkeys.
  rewrite <- (length_map fst), Hkeys. reflexivity.
Defined.

(** ** Chains that cannot fail *)

Lemma positive_world_wf st (w : World) : positive_world st w -> wf_world st w.
Proof.
  intros [Hnd H]. split; [exact Hnd|]. intros n l Hin.
  destruct (H n l Hin) as [d [Hd _]]. now apply (nth_error_in_range _ _ _ Hd).
Qed.

Lemma draws_of_In st (w : World) d :
  In d (draws_of st w) <->
  exists n l, In (n, l) w /\ nth_error (draws st) l = Some d.
Proof.
  unfold draws_of. rewrite in_flat_map. split.
  - intros [[n l] [Hin Hd]]. simpl in Hd. exists n, l. split; [exact Hin|].
    destruct (nth_error (draws st) l) as [d'|]; [|contradiction].
    destruct Hd as [-> | []]. reflexivity.
  - intros (n & l & Hin & Hd). exists (n, l). split; [exact Hin|].
    simpl. rewrite Hd. now left.
Qed.

Lemma positive_world_draws st (w : World) :
  positive_world st w -> Forall positive (draws_of st w).
Proof.
  intros [_ H]. apply Forall_forall. intros d Hd.
  apply draws_of_In in Hd. destruct Hd as (n & l & Hin & Hd).
  destruct (H n l Hin) as [d' [Hd' Hp]]. congruence.
Qed.

Lemma positive_world_of_draws st (w : World) :
  wf_world st w -> Forall positive (draws_of st w) -> positive_world st w.
Proof.
  intros [Hnd Hst] Hall. split; [exact Hnd|]. intros n l Hin.
  destruct (load_in_store st l (Hst n l Hin)) as [d [Hd _]].
  exists d. split; [exact Hd|].
  rewrite Forall_forall in Hall. apply Hall. apply draws_of_In. now exists n, l.
Qed.

Lemma positive_scores st (w : World) :
  (forall n l, In (n, l) w ->
     exists d, nth_error (draws st) l = Some d /\ positive d) ->
  ~ product (map Draw_score (draws_of st w)) == 0.
Proof.
  intros H Hz. apply product_zero in Hz. destruct Hz as [s [Hin Hs]].
  apply in_map_iff in Hin. destruct Hin as [d [<- Hd]].
  apply draws_of_In in Hd. destruct Hd as (n & l & Hin & Hd).
  destruct (H n l Hin) as [d' [Hd' [_ Hp]]].
  assert (d' = d) by congruence. subst d'. exact (Hp _ Hs).
Qed.

Lemma positive_Draw_copy d : positive d -> positive (Draw_copy d).
Proof. intros [Hf Hp]. split; assumption. Qed.

Lemma positive_set_value v d : positive d -> positive (set_value v d).
Proof. intros [Hf Hp]. split; assumption. Qed.

Lemma In_list_set {A} (xs : list A) i y x :
  In x (list_set xs i y) -> x = y \/ In x xs.
Proof.
  revert i. induction xs as [|h t IH]; intros [|i]; simpl; try tauto.
  - intros [H | H]; auto.
  - intros [H | H]; auto. destruct (IH _ H); auto.
Qed.

Lemma positive_world_draws_eq st st' (w : World) :
  positive_world st w ->
  (forall l, In l (World_values w) ->
             nth_error (draws st') l = nth_error (draws st) l) ->
  positive_world st' w.
Proof.
  intros [Hnd H] E. split; [exact Hnd|]. intros n l Hin.
  destruct (H n l Hin) as [d [Hd Hp]]. exists d. split; [|exact Hp].
  rewrite E; [exact Hd|]. change l with (snd (n, l)). now apply in_map.
Qed.

Lemma positive_world_filter st (w : World) f :
  positive_world st w -> positive_world st (filter f w).
Proof.
  intros [Hnd H]. split; [now apply NoDup_keys_filter|].
  intros n l Hin. apply filter_In in Hin. apply (H n l). apply Hin.
Qed.

Lemma positive_world_nil st : positive_world st [].
Proof. split; [constructor | intros ? ? []]. Qed.

(** [Choice.sample] with a choice whose scorer is never 0 *)
Lemma Choice_sample_positive self world name tick st :
  (forall v, ~ scorer self v == 0) ->
  positive_world st world ->
  exists st' w' v,
    Choice_sample self world name tick st = (st', Returns (w', v)) /\
    positive_world st' w' /\
    touched st' tick w' name.
Proof.
  intros Hs Hpw. pose proof Hpw as [Hnd Hp].
  destruct (dict_get name world) as [l|] eqn:G.
  - pose proof (dict_get_In _ _ _ G) as Hin.
    destruct (Hp _ _ Hin) as [d [Hd [Hf Hsc]]].
    pose proof (Choice_sample_revisit self world name tick st l d G Hd
                  (Hs _)) as R.
    pose proof (nth_error_in_range _ _ _ Hd) as Hl.
    do 3 eexists. split; [exact R|]. split.
    + split; [exact Hnd|]. intros n l' Hin'. simpl draws.
      destruct (Nat.eq_dec l' l) as [-> | Hne].
      * rewrite nth_error_list_set_eq by exact Hl.
        eexists. split; [reflexivity|]. split; [exact Hf | exact Hs].
      * rewrite nth_error_list_set_neq by (intro; apply Hne; congruence).
        now apply (Hp n).
    + exists l. eexists. split; [exact Hin|]. split.
      * simpl draws. now rewrite nth_error_list_set_eq by exact Hl.
      * reflexivity.
  - destruct (sampler self (rng st)) as [v r] eqn:Es.
    pose proof (Choice_sample_absent _ _ _ tick _ _ _ G Es) as R.
    do 3 eexists. split; [exact R|]. split.
    + split.
      * apply (wf_world_alloc st world name (mkDraw v self tick tick false) r
                 (positive_world_wf _ _ Hpw) G).
      * intros n l Hin. apply in_app_iff in Hin. simpl draws.
        destruct Hin as [Hin | [E | []]].
        -- destruct (Hp n l Hin) as [d [Hd Hpos]]. exists d.
           split; [|exact Hpos].
           rewrite nth_error_app1 by now apply (nth_error_in_range _ _ _ Hd).
           exact Hd.
        -- inversion E; subst. rewrite nth_error_app_length.
           eexists. split; [reflexivity|]. split; [reflexivity | exact Hs].
    + exists (List.length (draws st)). eexists.
      split; [apply in_app_iff; right; now left|].
      simpl draws. rewrite nth_error_app_length. split; reflexivity.
Qed.

Lemma rbits_positive (names : list Name) (tick : Z) :
  forall (world : World) (st : State),
    positive_world st world ->
    exists st' w' vs,
      rbits names world tick st = (st', Returns (w', vs)) /\
      positive_world st' w'.
Proof.
  induction names as [|name names IH]; intros world st Hpw.
  - exists st, world, []. split; [reflexivity | exact Hpw].
  - destruct (Choice_sample_positive (flip_choice (1 # 2)) world name tick st
                (flip_score_nonzero _) Hpw)
      as (s1 & w1 & v & Hrun & Hpw1 & _).
    destruct (IH w1 s1 Hpw1) as (s2 & w2 & vs & Hrest & Hpw2).
    exists s2, w2, (v :: vs). split; [|exact Hpw2].
    simpl. unfold church_flip. rewrite (bind_Returns _ _ _ _ _ Hrun).
    now rewrite (bind_Returns _ _ _ _ _ Hrest).
Qed.

Lemma positive_world_copy (self : World) (st : State) :
  positive_world st self ->
  positive_world
    (mkState (draws st ++ map Draw_copy (draws_of st self)) (rng st))
    (combine (map fst self)
       (seq (List.length (draws st)) (List.length self))).
Proof.
  intro Hpw. pose proof (positive_world_wf _ _ Hpw) as Hwf.
  apply positive_world_of_draws; [now apply World_copy_wf|].
  pose proof (length_draws_of st self (proj2 Hwf)) as Hlen.
  rewrite <- Hlen. rewrite <- (length_map Draw_copy (draws_of st self)).
  rewrite draws_of_combine_seq by now rewrite !length_map.
  apply Forall_forall. intros d Hd. apply in_map_iff in Hd.
  destruct Hd as [d' [<- Hd']]. apply positive_Draw_copy.
  pose proof (positive_world_draws _ _ Hpw) as Hall.
  rewrite Forall_forall in Hall. now apply Hall.
Qed.

Lemma transdimensional_model_positive :
  positive_model transdimensional_model.
Proof.
  intros init_world tick st Hpw. unfold transdimensional_model.
  pose proof (World_copy_run init_world st (positive_world_wf _ _ Hpw))
    as Hcopy.
  pose proof (positive_world_copy init_world st Hpw) as Hpw0.
  rewrite (bind_Returns _ _ _ _ _ Hcopy).
  destruct (Choice_sample_positive (flip_choice (1 # 2)) _ (NStr "a") tick _
              (flip_score_nonzero _) Hpw0)
    as (s1 & w1 & A & HA & Hpw1 & _).
  unfold church_flip at 1. rewrite (bind_Returns _ _ _ _ _ HA).
  assert (HB : exists s2 w2 B,
             (if truthy A then church_flip w1 (NInt 1) tick (1 # 2)
              else
                '(world, bits) <-
                  rbits (map (fun n => NInt (1 + n)) (range 50)) w1 tick ;;
                let z := Qsum (map num bits) in
                ret (world, VInt (if Qeq_bool (mod2 z) 1 then 1 else 0))) s1
             = (s2, Returns (w2, B)) /\
             positive_world s2 w2).
  { destruct (truthy A).
    - destruct (Choice_sample_positive (flip_choice (1 # 2)) w1 (NInt 1) tick
                  s1 (flip_score_nonzero _) Hpw1)
        as (s2 & w2 & B & HB & Hpw2 & _).
      now exists s2, w2, B.
    - destruct (rbits_positive (map (fun n => NInt (1 + n)) (range 50)) tick
                  w1 s1 Hpw1) as (s2 & w2 & bits & Hbits & Hpw2).
      do 3 eexists. split; [|exact Hpw2].
      rewrite (bind_Returns _ _ _ _ _ Hbits). cbv zeta. unfold ret.
      reflexivity. }
  destruct HB as (s2 & w2 & B & HB & Hpw2).
  rewrite (bind_Returns _ _ _ _ _ HB). cbv zeta.
  destruct (Choice_sample_positive
              (flip_choice (if truthy B then 1 # 3 else 2 # 3)) w2 (NStr "c")
              tick s2 (flip_score_nonzero _) Hpw2)
    as (s3 & w3 & C & HC & Hpw3 & Ht).
  unfold church_flip. rewrite (bind_Returns _ _ _ _ _ HC).
  exists s3, w3, (A, B, C). split; [reflexivity|]. split; [exact Hpw3|].
  now exists (NStr "c").
Qed.

Lemma rbits_above n names tick :
  forall world st st0,
    keeps n st0 st -> above n st world ->
    keeps n st0 (fst (rbits names world tick st)) /\
    forall st' w vs,
      rbits names world tick st = (st', Returns (w, vs)) -> above n st' w.
Proof.
  induction names as [|name names IH]; intros world st st0 K A.
  - simpl. split; [exact K|]. intros st' w vs H. inversion H; subst. exact A.
  - simpl. unfold church_flip.
    destruct (Choice_sample_above n (flip_choice (1 # 2)) world name tick
                st st0 K A) as [K1 A1].
    split.
    + apply keeps_bind; [exact K1|]. intros [w1 b] s1 H1.
      rewrite (fst_run_eq _ _ _ _ H1) in K1. specialize (A1 s1 w1 b H1).
      destruct (IH w1 s1 st0 K1 A1) as [K2 _].
      apply keeps_bind; [exact K2|]. intros [w2 bs] s2 H2.
      now rewrite (fst_run_eq _ _ _ _ H2) in K2.
    + intros st' w vs H. apply bind_inv in H.
      destruct H as [s1 [[w1 b] [H1 H]]]. apply bind_inv in H.
      destruct H as [s2 [[w2 bs] [H2 H]]]. inversion H; subst.
      rewrite (fst_run_eq _ _ _ _ H1) in K1.
      destruct (IH w1 s1 st0 K1 (A1 _ _ _ H1)) as [_ A2].
      exact (A2 _ _ _ H2).
Qed.

Lemma transdimensional_model_keeps (world : World) (tick : Z) (st : State) :
  keeps (List.length (draws st)) st
        (fst (transdimensional_model world tick st)).
Proof.
  set (n := List.length (draws st)). unfold transdimensional_model, World_copy.
  destruct (copy_items_above n world [] st st (keeps_refl n st)
              (above_nil n st (Nat.le_refl n))) as [K1 A1].
  apply keeps_bind; [exact K1|]. intros w1 s1 H1.
  rewrite (fst_run_eq _ _ _ _ H1) in K1. specialize (A1 s1 w1 H1).
  unfold church_flip at 1.
  destruct (Choice_sample_above n (flip_choice (1 # 2)) w1 (NStr "a") tick
              s1 st K1 A1) as [K2 A2].
  apply keeps_bind; [exact K2|]. intros [w2 A] s2 H2.
  rewrite (fst_run_eq _ _ _ _ H2) in K2. specialize (A2 s2 w2 A H2).
  assert (HB : keeps n st
                 (fst ((if truthy A then church_flip w2 (NInt 1) tick (1 # 2)
                        else
                          '(world, bits) <-
                            rbits (map (fun n => NInt (1 + n)) (range 50))
                                  w2 tick ;;
                          let z := Qsum (map num bits) in
                          ret (world,
                               VInt (if Qeq_bool (mod2 z) 1 then 1 else 0)))
                         s2)) /\
               forall s3 w3 B,
                 (if truthy A then church_flip w2 (NInt 1) tick (1 # 2)
                  else
                    '(world, bits) <-
                      rbits (map (fun n => NInt (1 + n)) (range 50))
                            w2 tick ;;
                    let z := Qsum (map num bits) in
                    ret (world, VInt (if Qeq_bool (mod2 z) 1 then 1 else 0)))
                   s2
                 = (s3, Returns (w3, B)) ->
                 above n s3 w3).
  { destruct (truthy A).
    - apply (Choice_sample_above n (flip_choice (1 # 2)) w2 (NInt 1) tick
               s2 st K2 A2).
    - destruct (rbits_above n (map (fun n => NInt (1 + n)) (range 50)) tick
                  w2 s2 st K2 A2) as [K3 A3].
      split.
      + apply keeps_bind; [exact K3|]. intros [w3 bits] s3 H3.
        now rewrite (fst_run_eq _ _ _ _ H3) in K3.
      + intros s3 w3 B H. apply bind_inv in H.
        destruct H as [s [[w bits] [H3 H]]]. inversion H; subst.
        exact (A3 _ _ _ H3). }
  destruct HB as [K3 A3].
  apply keeps_bind; [exact K3|]. intros [w3 B] s3 H3.
  assert (K3' : keeps n st s3)
    by (rewrite <- (fst_run_eq _ _ _ _ H3); exact K3).
  clear K3. rename K3' into K3. specialize (A3 s3 w3 B H3).
  cbv zeta. unfold church_flip.
  destruct (Choice_sample_above n
              (flip_choice (if truthy B then 1 # 3 else 2 # 3)) w3 (NStr "c")
              tick s3 st K3 A3) as [K4 _].
  apply keeps_bind; [exact K4|]. intros [w4 C] s4 H4.
  now rewrite (fst_run_eq _ _ _ _ H4) in K4.
Qed.

(** X26: the model of [test_transdimensional] writes to no Draw that existed
    before the call: it works on the copy it makes of the trace and on the
    Draws it creates, so the trace it is given is not modified. *)
Theorem transdimensional_model_frame :
  forall (world : World) (tick : Z) (st : State) (l : loc),
    (l < List.length (draws st))%nat ->
    nth_error (draws (fst (transdimensional_model world tick st))) l
    = nth_error (draws st) l.
Proof.
  intros world tick st l Hl. now apply transdimensional_model_keeps.
Qed.

Lemma transdimensional_model_frame_witness :
  nth_error (draws (fst (transdimensional_model world_a 5 (store_a [] []))))
            0
  = nth_error (draws (store_a [] [])) 0.
Proof.
  apply (transdimensional_model_frame world_a 5 (store_a [] []) 0%nat).
  simpl. lia.
Defined.

(** *** The transition on positive worlds *)

Lemma positive_not_fixed st (w : World) :
  positive_world st w -> w <> [] ->
  filter (not_fixed st) (World_values w) <> [].
Proof.
  intros [_ Hp] Hne. destruct w as [|[n l] w]; [contradiction|].
  destruct (Hp n l (or_introl eq_refl)) as [d [Hd [Hf _]]].
  simpl. unfold not_fixed at 1. rewrite Hd, Hf. simpl. discriminate.
Qed.

Lemma touched_kept st tick (w : World) name :
  touched st tick w name ->
  filter (fun e => negb (stale st tick e)) w <> [].
Proof.
  intros (l & d & Hin & Hd & Ht) E.
  assert (H : In (name, l) (filter (fun e => negb (stale st tick e)) w)).
  { apply filter_In. split; [exact Hin|]. unfold stale. simpl.
    rewrite Hd, Ht, Z.eqb_refl. simpl. now rewrite andb_false_r. }
  rewrite E in H. contradiction.
Qed.

Lemma Qinv_len_nonzero {A} (xs : list A) : xs <> [] -> ~ (1 / len xs == 0)%Q.
Proof.
  intros Hne Hz. pose proof (len_nonzero xs Hne) as Hl.
  assert (H : (len xs * (1 / len xs) == 1)%Q) by (field; exact Hl).
  rewrite Hz, Qmult_0_r in H. discriminate H.
Qed.

Lemma positive_world_rng st r (w : World) :
  positive_world st w -> positive_world (mkState (draws st) r) w.
Proof.
  intro H. apply (positive_world_draws_eq st); [exact H | reflexivity].
Qed.

(** a proposal on a positive world, with a positive model, returns, and its
    forward weight is not 0 *)
Lemma World_propose_positive {Out} (model : Model Out) (tick : Z)
    (w : World) (st : State) :
  positive_model model ->
  positive_world st w -> w <> [] ->
  exists st4 kept v4 bw fw,
    World_propose w model tick st = (st4, Returns (kept, v4, bw, fw)) /\
    positive_world st4 kept /\ kept <> [] /\ ~ fw == 0.
Proof.
  intros Hmodel Hpw Hne.
  pose proof (positive_world_wf _ _ Hpw) as Hwf.
  destruct (World_propose_resampled w model tick st Hwf
              (positive_not_fixed _ _ Hpw Hne))
    as (proposal & pre & st3 & k & d & v & Hnames & Hlen & Hwf3 & Hk & Hfd
        & Hds & Hkeeps & Hrun).
  assert (Hcopies : Forall positive (map Draw_copy (draws_of st w))).
  { apply Forall_forall. intros x Hx. apply in_map_iff in Hx.
    destruct Hx as [x' [<- Hx']]. apply positive_Draw_copy.
    pose proof (positive_world_draws _ _ Hpw) as Hall.
    rewrite Forall_forall in Hall. now apply Hall. }
  rewrite Forall_forall in Hcopies.
  assert (Hd : positive d) by (apply Hcopies; eapply nth_error_In; eauto).
  assert (Hpw3 : positive_world st3 proposal).
  { apply positive_world_of_draws; [exact Hwf3|]. rewrite Hds.
    apply Forall_forall. intros x Hx. apply In_list_set in Hx.
    destruct Hx as [-> | Hx]; [now apply positive_set_value|].
    now apply Hcopies. }
  destruct (Hmodel proposal tick st3 Hpw3)
    as (st4 & w4 & v4 & Hm & Hpw4 & name & Ht).
  pose proof (positive_world_wf _ _ Hpw4) as Hwf4.
  set (kept := filter (fun e => negb (stale st4 tick e)) w4).
  assert (Hpwk : positive_world st4 kept) by now apply positive_world_filter.
  assert (Hkne : kept <> []) by now apply (touched_kept st4 tick w4 name).
  set (post := filter (not_fixed st4) (World_values kept)).
  assert (Hpost : post <> []) by now apply positive_not_fixed.
  assert (Hpre : pre <> []).
  { intro E. rewrite E in Hlen. simpl in Hlen.
    apply (positive_not_fixed _ _ Hpw Hne).
    apply length_zero_iff_nil. now symmetry. }
  exists st4, kept, v4. rewrite Hrun. unfold propose_tail.
  rewrite (bind_Returns _ _ _ _ _ Hm). cbv beta iota.
  rewrite (bind_Returns _ _ _ _ _ (World_clean_exact w4 tick st4 Hwf4)).
  cbv beta iota. fold kept.
  rewrite (bind_Returns _ _ _ _ _
             (proposable_run (World_values kept) st4
                (in_store_values _ _ (proj2 (positive_world_wf _ _ Hpwk))))).
  fold post.
  rewrite (bind_Returns _ _ _ _ _
             (py_div_run 1 (len post) st4 (len_nonzero _ Hpost))).
  rewrite (bind_Returns _ _ _ _ _
             (py_div_run 1 (len pre) st4 (len_nonzero _ Hpre))).
  cbv zeta. do 2 eexists. split; [reflexivity|].
  split; [exact Hpwk|]. split; [exact Hkne|].
  apply Qmult_nonzero; [apply Qmult_nonzero|].
  - now apply Qinv_len_nonzero.
  - unfold Draw_score. simpl. apply Hd.
  - rewrite accumulate_product. apply positive_scores.
    intros n l Hin. apply filter_In in Hin. destruct Hpw4 as [_ H4].
    apply (H4 n l), Hin.
Qed.

Lemma transition_positive {Out} (model : Model Out) condition :
  model_frame model -> positive_model model ->
  forall i j s st,
    positive_world st (fst s) /\ fst s <> [] ->
    exists st' s',
      transition model condition i j (fst s) (snd s) st = (st', Returns s') /\
      (positive_world st' (fst s') /\ fst s' <> []).
Proof.
  intros Hframe Hmodel i j [w val] st [Hpw Hne]. simpl fst in *. simpl snd.
  set (tick := i * j).
  pose proof (positive_world_wf _ _ Hpw) as Hwf.
  destruct (World_propose_positive model tick w st Hmodel Hpw Hne)
    as (st4 & kept & v4 & bw & fw & Hp & Hpwk & Hkne & Hfw).
  assert (K : keeps (List.length (draws st)) st st4).
  { pose proof (World_propose_keeps w model tick st Hwf Hframe) as K.
    now rewrite Hp in K. }
  assert (Hpw' : positive_world st4 w).
  { apply (positive_world_draws_eq st); [exact Hpw|]. intros l Hl. apply K.
    apply in_map_iff in Hl. destruct Hl as [[n l'] [<- Hin]].
    destruct Hwf as [_ Hst]. now apply (Hst n). }
  unfold transition, try_except_else. fold tick. rewrite Hp.
  destruct (condition v4).
  2: { exists st4, (w, val). split; [reflexivity|]. now split. }
  rewrite (bind_Returns _ _ _ _ _
             (World_score_run kept st4 (proj2 (positive_world_wf _ _ Hpwk)))).
  rewrite (bind_Returns _ _ _ _ _
             (World_score_run w st4 (proj2 (positive_world_wf _ _ Hpw')))).
  rewrite (bind_Returns _ _ _ _ _
             (py_div_run _ _ st4 (positive_scores st4 w (proj2 Hpw')))).
  rewrite (bind_Returns _ _ _ _ _ (py_div_run bw fw st4 Hfw)).
  cbv zeta.
  destruct (Qle_bool 1 _).
  - exists st4, (kept, v4). split; [reflexivity|]. now split.
  - unfold bind, flip, with_rng.
    destruct (flip_rng _ (rng st4)) as [f r].
    exists (mkState (draws st4) r).
    destruct f; eexists; (split; [reflexivity|]); simpl fst;
      (split; [now apply positive_world_rng | assumption]).
Qed.

Lemma initialize_returns_inv {Out} fuel (model : Model Out) condition
    st st' w v :
  initialize fuel model condition st = (st', Returns (w, v)) ->
  exists st0, model [] (-1) st0 = (st', Returns (w, v)).
Proof.
  unfold initialize. intro H. apply bind_inv in H.
  destruct H as [st1 [[w1 v1] [Hm H]]].
  apply initialize_loop_condition in H.
  destruct H as [(-> & -> & -> & _) | [st0 [H _]]]; eauto.
Qed.

Lemma positive_model_initial {Out} (model : Model Out) st0 st' w v :
  positive_model model ->
  model [] (-1) st0 = (st', Returns (w, v)) ->
  positive_world st' w /\ w <> [].
Proof.
  intros Hm H.
  destruct (Hm [] (-1) st0 (positive_world_nil st0))
    as (s & w' & v' & Hrun & Hpw & name & (l & d & Hin & _)).
  rewrite H in Hrun. inversion Hrun; subst. split; [exact Hpw|].
  intro E. rewrite E in Hin. contradiction.
Qed.

Lemma mcmc_positive {Out T} fuel (model : Model Out) condition
    (query : Out -> T) num_steps num_samples st st0 s0 :
  model_frame model -> positive_model model ->
  initialize fuel model condition st = (st0, Returns s0) ->
  exists st' samples,
    mcmc fuel model condition query num_steps num_samples st
    = (st', Returns samples) /\
    List.length samples = Z.to_nat num_samples.
Proof.
  intros Hf Hm Hi. rewrite mcmc_run. rewrite (bind_Returns _ _ _ _ _ Hi).
  destruct s0 as [w v].
  destruct (initialize_returns_inv _ _ _ _ _ _ _ Hi) as [s Hs].
  pose proof (positive_model_initial model s st0 w v Hm Hs) as Hinv.
  destruct (retained_states_returns model condition
              (fun st s => positive_world st (fst s) /\ fst s <> [])
              (transition_positive model condition Hf Hm)
              num_steps (range num_samples) (w, v) st0 Hinv)
    as (st' & states & Hr).
  rewrite (bind_Returns _ _ _ _ _ Hr). do 2 eexists. split; [reflexivity|].
  rewrite length_map, (retained_states_length _ _ _ _ _ _ _ _ Hr).
  apply length_range.
Qed.




(** X28: the chain of [test_transdimensional] cannot fail.  Once [initialize]
    has found a first state, [mcmc] with the model of the test returns,
    whatever the condition, the query, the numbers of steps and of samples and
    the random numbers drawn: no transition raises, and the list returned has
    [num_samples] samples. *)
Theorem test_transdimensional_mcmc {T} :
  forall (fuel : nat) (condition : Value * Value * Value -> bool)
         (query : Value * Value * Value -> T) (num_steps num_samples : Z)
         (st st0 : State) s0,
    initialize fuel transdimensional_model condition st = (st0, Returns s0) ->
    exists st' samples,
      mcmc fuel transdimensional_model condition query num_steps num_samples st
      = (st', Returns samples) /\
      List.length samples = Z.to_nat num_samples.
Proof.
  intros fuel condition query num_steps num_samples st st0 s0 Hi.
  apply (mcmc_positive fuel transdimensional_model condition query num_steps
           num_samples st st0 s0); [| | exact Hi].
  - apply keeps_model_frame. apply transdimensional_model_keeps.
  - apply transdimensional_model_positive.
Qed.

Lemma test_transdimensional_mcmc_witness :
  exists st' samples,
    mcmc 0 transdimensional_model (fun val => truthy (snd val))
         (fun val => fst (fst val)) 1000 100 (empty_store [] [])
    = (st', Returns samples) /\
    List.length samples = Z.to_nat 100.
Proof.
  eassert (Hi : initialize 0 transdimensional_model
                  (fun val => truthy (snd val)) (empty_store [] [])
                = (_, Returns _)) by (vm_compute; reflexivity).
  exact (test_transdimensional_mcmc 0 (fun val => truthy (snd val))
           (fun val => fst (fst val)) 1000 100 (empty_store [] []) _ _ Hi).
Defined.
